(** * Dealbot: deal orchestration and IPNI verification pipeline

    A shallow embedding of the deal-addon pipeline
    ([deal-addons.service.ts]), the CDN and IPNI strategies
    ([strategies/cdn.strategy.ts], [strategies/ipni.strategy.ts]) and the
    deal service ([deal.service.ts]) together with the properties the
    specification states about them.
    The time windows of the metrics queries
    ([metrics/utils/time-window-parser.ts]) are embedded in a module of
    their own, [TimeWindowParser], with its own conventions.

    Conventions.
    - A rejected promise or a thrown [Error] is [Err message]; a resolved
      promise or a normal return is [Ok value].
    - A [Deal] entity is a JavaScript object shared by reference between the
      orchestrator, the addon hooks and the detached monitor: it is a finite
      map from property names to values, held in one cell of the world.
    - Everything outside the repository (the Synapse SDK, the repositories,
      the PDP server, the IPNI HTTP endpoint, the CAR and hashing libraries)
      is an oracle of the environment [Env]; theorems quantify over it.
    - [Date.now()] reads the clock of the world; awaiting an outside call
      advances the clock by the latency the environment gives that call and
      [setTimeout] advances it by its delay.
    - The trace of the world lists, with their times, the writes to the Deal
      object, the save attempts, the timers, the lookups and the logger
      calls of the code that runs in the world; numbers interpolated into a
      log line are not rendered.
    - The registration of the addons and the preprocessing pipeline
      ([preprocessDeal] with the strategies' [preprocessData], [validate]
      and [getSynapseConfig]) are embedded as pure functions of the
      configuration: they do not run in the world, and the lines they log
      are not part of the trace.
    - Promises that are awaited together ([Promise.all],
      [Promise.allSettled]) are run one after the other, each to its end, in
      the order they are made. *)

From Stdlib Require Import ZArith Lia Permutation Sorted Floats.
From stdpp Require Import gmap strings list fin_maps sorting pretty.

Local Open Scope string_scope.
Local Open Scope list_scope.
Local Open Scope nat_scope.

(** ** Outcomes of fallible code *)

Inductive Result (A : Type) : Type :=
  | Ok (a : A)
  | Err (message : string).
Arguments Ok {A} a.
Arguments Err {A} message.

Definition is_ok {A} (r : Result A) : bool :=
  match r with Ok _ => true | Err _ => false end.

Definition result_bind {A B} (r : Result A) (k : A → Result B) : Result B :=
  match r with
  | Ok a => k a
  | Err m => Err m
  end.

(** [try { r } catch (error) { throw new Error(prefix + error.message) }] *)
Definition rethrow_with {A} (prefix : string) (r : Result A) : Result A :=
  match r with
  | Ok a => Ok a
  | Err m => Err (prefix +:+ m)
  end.

(** ** Enumerations of [database/types.ts] *)

Inductive DealStatus : Type :=
  | PENDING | UPLOADED | PIECE_ADDED | DEAL_CREATED | FAILED.

Inductive IpniStatus : Type :=
  | IPNI_PENDING
  | SP_INDEXED
  | SP_ADVERTISED
  | SP_RECEIVED_RETRIEVE_REQUEST
  | VERIFIED
  | IPNI_FAILED.

Global Instance DealStatus_eq_dec : EqDecision DealStatus.
Proof. solve_decision. Defined.
Global Instance IpniStatus_eq_dec : EqDecision IpniStatus.
Proof. solve_decision. Defined.

(** [ServiceType]: the addon names, used as metadata namespace keys. *)
Module ServiceType.
Definition DIRECT_SP : string := "direct_sp".
Definition CDN : string := "cdn".
Definition IPFS_PIN : string := "ipfs_pin".
End ServiceType.

(** [AddonPriority] of [deal-addons/types.ts]. *)
Module AddonPriority.
Definition HIGH : Z := 1.
Definition MEDIUM : Z := 5.
Definition LOW : Z := 10.
End AddonPriority.

(** [METADATA_KEYS] of the Synapse SDK. *)
Module METADATA_KEYS.
Definition WITH_CDN : string := "withCDN".
Definition WITH_IPFS_INDEXING : string := "withIPFSIndexing".
Definition IPFS_ROOT_CID : string := "ipfsRootCID".
End METADATA_KEYS.

(** ** Data model of [deal-addons/types.ts] *)

Module DataFile.
Record t : Type := mk { data : list Byte.byte; size : Z; name : string }.
End DataFile.

Module DealConfiguration.
Record t : Type := mk {
  enableCDN : bool;
  enableIpni : bool;
  dataFile : DataFile.t }.
End DealConfiguration.

Module IpniMetadata.
Record t : Type := mk {
  enabled : bool;
  rootCID : string;
  blockCIDs : list string;
  blockCount : nat;
  carSize : Z;
  originalSize : Z }.
End IpniMetadata.

(** The per-addon metadata stored under the addon's name. *)
Inductive AddonMetadata : Type :=
  | CdnMetadata (enabled : bool) (provider : string)
  | IpniMeta (m : IpniMetadata.t)
  | DirectMetadata (fields : gmap string string).

Module PreprocessingResult.
Record t : Type := mk {
  data : list Byte.byte;
  metadata : AddonMetadata;
  originalData : option (list Byte.byte);
  size : Z }.
End PreprocessingResult.

Module SynapseConfig.
Record t : Type := mk {
  dataSetMetadata : option (gmap string string);
  pieceMetadata : option (gmap string string) }.
End SynapseConfig.

Module AddonExecutionContext.
Record t : Type := mk {
  currentData : DataFile.t;
  accumulatedMetadata : gmap string AddonMetadata;
  configuration : DealConfiguration.t }.
End AddonExecutionContext.

Module DealPreprocessingResult.
Record t : Type := mk {
  processedData : DataFile.t;
  metadata : gmap string AddonMetadata;
  synapseConfig : gmap string string * gmap string string;
  appliedAddons : list string }.
Definition dataSetMetadata (r : t) := fst (synapseConfig r).
Definition pieceMetadata (r : t) := snd (synapseConfig r).
End DealPreprocessingResult.

(** ** The Deal entity and the world *)

Module StorageProvider.
Record t : Type := mk { address : string; serviceUrl : string }.
End StorageProvider.

(** Values a property of a Deal object holds. A number that is not finite
    ([Infinity], [NaN]) is [VNotFinite]. *)
Inductive Value : Type :=
  | VStr (s : string)
  | VNum (n : Z)
  | VNotFinite
  | VDate (ms : Z)
  | VNull
  | VStatus (s : DealStatus)
  | VIpni (s : IpniStatus)
  | VProvider (p : StorageProvider.t)
  | VMetadata (m : gmap string AddonMetadata)
  | VNames (l : list string).

Inductive LogLevel : Type := LOG | DEBUG | WARN | ERROR.

Inductive Event : Type :=
  | EvLog (level : LogLevel) (text : string)
  | EvCreate (entity : gmap string Value)
  | EvSet (field : string) (value : Value)
  | EvSave (snapshot : gmap string Value) (resolved : bool)
  | EvSleep (ms : Z)
  | EvGetPieceStatus (pieceCid : string)
  | EvQueryIPNI (cid : string)
  | EvMonitoringStarted.

Module World.
Record t : Type := mk {
  now : Z;
  calls : nat;
  deal : gmap string Value;
  trace : list (Z * Event) }.
End World.

(** Effectful code: a state transformer on the world that returns or throws. *)
Definition M (A : Type) : Type := World.t → Result A * World.t.

Global Instance M_ret : MRet M := λ A a w, (Ok a, w).
Global Instance M_bind : MBind M := λ A B k m w,
  match m w with
  | (Ok a, w') => k a w'
  | (Err e, w') => (Err e, w')
  end.

Definition throw {A} (message : string) : M A := λ w, (Err message, w).

(** [try { body } catch (error) { handler error.message }] *)
Definition try_catch {A} (body : M A) (handler : string → M A) : M A := λ w,
  match body w with
  | (Ok a, w') => (Ok a, w')
  | (Err e, w') => handler e w'
  end.

(** [try { body } finally { cleanup }]: the cleanup runs on both exits; the
    completion of [body] stands unless the cleanup itself throws. *)
Definition try_finally {A} (body : M A) (cleanup : M unit) : M A := λ w,
  match body w with
  | (r, w') =>
      match cleanup w' with
      | (Ok _, w'') => (r, w'')
      | (Err e, w'') => (Err e, w'')
      end
  end.

Definition lift {A} (r : Result A) : M A := λ w, (r, w).

(** Every event enters the trace with the time it happens at. *)
Definition emit (e : Event) : M unit := λ w,
  (Ok tt, World.mk (World.now w) (World.calls w) (World.deal w)
                   (World.trace w ++ [(World.now w, e)])).

Definition logger (level : LogLevel) (text : string) : M unit := emit (EvLog level text).

(** [Date.now()] and [new Date()] *)
Definition Date_now : M Z := λ w, (Ok (World.now w), w).

Definition advance (ms : Z) : M unit := λ w,
  (Ok tt, World.mk (World.now w + ms) (World.calls w) (World.deal w) (World.trace w)).

(** [await new Promise((resolve) => setTimeout(resolve, ms))]; Node runs a
    timer whose delay is below 1 or above 2147483647 with a delay of 1. *)
Definition timer_delay (ms : Z) : Z :=
  if ((1 <=? ms) && (ms <=? 2147483647))%Z then ms else 1%Z.

Definition sleep (ms : Z) : M unit := emit (EvSleep ms) ;; advance (timer_delay ms).

(** Reading and writing properties of the shared Deal object. *)
Definition get_deal : M (gmap string Value) := λ w, (Ok (World.deal w), w).

(** [deal.field = v]; the trace keeps every write to the object. *)
Definition set_deal (field : string) (v : Value) : M unit := λ w,
  (Ok tt, World.mk (World.now w) (World.calls w) (<[field := v]> (World.deal w))
                   (World.trace w ++ [(World.now w, EvSet field v)])).

(** [dealRepository.create(fields)]: a new entity object, not yet saved. *)
Definition dealRepository_create (fields : gmap string Value) : M unit := λ w,
  (Ok tt, World.mk (World.now w) (World.calls w) fields
                   (World.trace w ++ [(World.now w, EvCreate fields)])).

Definition get_field (field : string) : M (option Value) := λ w,
  (Ok (World.deal w !! field), w).

(** [x.getTime()] on a property that has to hold a Date. *)
Definition getTime (field : string) : M Z :=
  v ← get_field field;
  match v with
  | Some (VDate ms) => mret ms
  | _ => throw ("Cannot read properties of undefined (reading 'getTime')")
  end.

(** JavaScript truthiness of a property. *)
Definition truthy (v : option Value) : bool :=
  match v with
  | None | Some VNull | Some VNotFinite => false
  | Some (VStr s) => negb (String.eqb s EmptyString)
  | Some (VNum n) => negb (n =? 0)%Z
  | Some _ => true
  end.

Global Instance Result_ret : MRet Result := λ A a, Ok a.
Global Instance Result_bind : MBind Result := λ A B k r, result_bind r k.

(** ** Numbers that are binary64 floats *)

(** The number that a whole number below 2^63 in magnitude is as a
    binary64 float: the nearest one. *)
Definition Number_of_Z (z : Z) : float :=
  if (z <? 0)%Z then PrimFloat.opp (PrimFloat.of_uint63 (Uint63.of_Z (- z)))
  else PrimFloat.of_uint63 (Uint63.of_Z z).

(** [Math.round]: the whole number nearest to [x], the larger one of two
    that are equally near; a result that is zero keeps the sign of [x]. *)
Definition Math_round (x : float) : float :=
  match Prim2SF x with
  | S754_finite negative m e =>
      if (0 <=? e)%Z then x
      else
        let n :=
          ((2 * (if negative then Z.neg m else Z.pos m) + 2 ^ (- e))
           / 2 ^ (- e + 1))%Z in
        if (n =? 0)%Z then (if negative then (-0)%float else 0%float)
        else Number_of_Z n
  | _ => x
  end.

(** A number that [Math.round] returned, as the value of a property: the
    whole number it is (zero for either zero), or not finite. *)
Definition Value_of_rounded (x : float) : Value :=
  match Prim2SF x with
  | S754_zero _ => VNum 0
  | S754_finite negative m e =>
      VNum (Z.shiftl (if negative then Z.neg m else Z.pos m) e)
  | _ => VNotFinite
  end.

(** ** The environment *)

Module UploadResult.
Record t : Type := mk { pieceCid : string; size : Z; pieceId : Z }.
End UploadResult.

(** The two callbacks [storage.upload] is given. *)
Inductive UploadCallback : Type :=
  | OnUploadComplete (pieceCid : string)
  | OnPieceAdded (transactionHash : string).

(** What [pdpServer.getPieceStatus] resolves to. Dates are milliseconds. *)
Module SdkPieceStatus.
Record t : Type := mk {
  status : string;
  indexed : bool;
  advertised : bool;
  retrieved : bool;
  retrievedAt : option Z }.
End SdkPieceStatus.

(** The JSON body of the IPNI lookup, as [extractProviderAddrs] reads it. *)
Module IpniResponse.
Record ProviderResult : Type := mkProvider { Addrs : option (list string) }.
Record MultihashResult : Type :=
  mkMultihash { ProviderResults : option (list ProviderResult) }.
Record t : Type := mk { MultihashResults : option (list MultihashResult) }.
End IpniResponse.

Module Env.
Record t : Type := mk {
  (** milliseconds the n-th outside call takes *)
  latency : nat → nat;
  (** [dealRepository.save]: [None] resolves, [Some message] rejects *)
  save : nat → option string;
  (** [storageProviderRepository.findOne({ where: { address } })] *)
  findOne : nat → string → Result (option StorageProvider.t);
  (** [synapse.createStorage({ providerAddress, metadata })]: the dataSetId *)
  createStorage : nat → string → gmap string string → Result Z;
  (** [storage.upload]: the callbacks the backend fires, in order, and then
      what the call settles to *)
  upload : nat → list Byte.byte → gmap string string →
           list UploadCallback * Result UploadResult.t;
  (** [pdpServer.getPieceStatus(pieceCid)] *)
  getPieceStatus : nat → string → Result SdkPieceStatus.t;
  (** [httpsGet(hostname, path, timeoutMs)] with the body parsed; a body
      that [extractProviderAddrs] cannot read counts as a rejection, which
      [verifySingleCID] catches alike *)
  httpsGet : nat → string → string → Z → Result IpniResponse.t;
  (** [new URL(serviceURL).hostname] *)
  URL_hostname : string → Result string;
  (** [CID.create(1, raw.code, await sha256.digest(bytes)).toString()] *)
  cidOf : list Byte.byte → string;
  (** The bytes [CarWriter] streams out for the roots and the blocks put *)
  CarWriter : list string → list (string * list Byte.byte) → list Byte.byte;
  (** [MAX_BLOCK_SIZE] of [common/constants.ts] *)
  MAX_BLOCK_SIZE : Z;
  (** [new PDPServer(null, serviceURL)]: the constructor can throw *)
  PDPServer : string → Result unit }.
End Env.

(** Awaiting a call that leaves the process. *)
Definition outside {A} (env : Env.t) (f : nat → Result A) : M A := λ w,
  let n := World.calls w in
  (f n, World.mk (World.now w + Z.of_nat (Env.latency env n)) (S n)
                 (World.deal w) (World.trace w)).

(** [await this.dealRepository.save(deal)] *)
Definition dealRepository_save (env : Env.t) : M unit :=
  deal ← get_deal;
  try_catch
    (outside env (λ n, match Env.save env n with None => Ok tt | Some m => Err m end);;
     emit (EvSave deal true))
    (λ m, emit (EvSave deal false);; throw m).

(** ** The addon interface ([interfaces/deal-addon.interface.ts]) *)

Module IDealAddon.
Record t : Type := mk {
  name : string;
  priority : Z;
  isApplicable : DealConfiguration.t → bool;
  preprocessData : AddonExecutionContext.t → Result PreprocessingResult.t;
  getSynapseConfig : option (gmap string AddonMetadata → SynapseConfig.t);
  validate : option (PreprocessingResult.t → Result bool);
  (** The two hooks: a call of one either throws or returns a promise,
      which is resolved or rejected. *)
  onUploadComplete : option (M (Result unit));
  postProcess : option (M (Result unit)) }.
End IDealAddon.

(** A call of an [async] function never throws: what its body throws
    rejects the promise the call returns. *)
Definition async {A} (body : M A) : M (Result A) := λ w,
  match body w with
  | (outcome, w') => (Ok outcome, w')
  end.

(** [result.metadata.enabled], read as a condition. *)
Definition metadata_enabled (metadata : AddonMetadata) : bool :=
  match metadata with
  | CdnMetadata enabled _ => enabled
  | IpniMeta m => IpniMetadata.enabled m
  | DirectMetadata fields =>
      match fields !! "enabled" with
      | Some s => negb (String.eqb s EmptyString)
      | None => false
      end
  end.

(** ** [CdnAddonStrategy] *)

Module CdnAddonStrategy.
Definition name : string := ServiceType.CDN.
Definition priority : Z := AddonPriority.MEDIUM.

Definition isApplicable (config : DealConfiguration.t) : bool :=
  DealConfiguration.enableCDN config.

Definition preprocessData (context : AddonExecutionContext.t)
  : Result PreprocessingResult.t :=
  let metadata := CdnMetadata true "fil-beam" in
  Ok (PreprocessingResult.mk
        (DataFile.data (AddonExecutionContext.currentData context))
        metadata
        None
        (DataFile.size (AddonExecutionContext.currentData context))).

Definition getSynapseConfig (_ : gmap string AddonMetadata) : SynapseConfig.t :=
  SynapseConfig.mk (Some {[ METADATA_KEYS.WITH_CDN := EmptyString ]}) None.

Definition validate (result : PreprocessingResult.t) : Result bool :=
  if negb (metadata_enabled (PreprocessingResult.metadata result))
  then Err "CDN validation failed: cdnEnabled flag not set"
  else if (PreprocessingResult.size result =? 0)%Z
  then Err "CDN validation failed: data is empty"
  else Ok true.

Definition addon : IDealAddon.t :=
  IDealAddon.mk name priority isApplicable preprocessData
                (Some getSynapseConfig) (Some validate) None None.
End CdnAddonStrategy.

(** ** Result types of [strategies/ipni.types.ts] *)

Module PieceStatus.
Record t : Type := mk {
  status : string;
  indexed : bool;
  advertised : bool;
  retrieved : bool;
  retrievedAt : option Z;
  indexedAt : option Z;
  advertisedAt : option Z }.
End PieceStatus.

Module PieceMonitoringResult.
Record t : Type := mk {
  success : bool;
  finalStatus : PieceStatus.t;
  checks : nat;
  durationMs : Z }.
End PieceMonitoringResult.

Module FailedCID.
Record t : Type := mk { cid : string; reason : string; addrs : option (list string) }.
End FailedCID.

Module SingleCIDVerificationResult.
Record t : Type := mk {
  verified : bool;
  reason : option string;
  addrs : option (list string) }.
End SingleCIDVerificationResult.

Module RootCIDVerificationResult.
Record t : Type := mk { verified : bool; failed : option FailedCID.t }.
End RootCIDVerificationResult.

Module BlockCIDsVerificationResult.
Record t : Type := mk { verified : nat; failed : list FailedCID.t }.
End BlockCIDsVerificationResult.

Module IPNIVerificationResult.
Record t : Type := mk {
  verified : nat;
  unverified : nat;
  total : nat;
  rootCIDVerified : bool;
  durationMs : Z;
  failedCIDs : list FailedCID.t;
  verifiedAt : Z }.
End IPNIVerificationResult.

Module MonitorAndVerifyResult.
Record t : Type := mk {
  monitoringResult : PieceMonitoringResult.t;
  ipniResult : IPNIVerificationResult.t }.
End MonitorAndVerifyResult.

Module CarDataFile.
Record t : Type := mk {
  carData : list Byte.byte;
  rootCID : string;
  blockCIDs : list string;
  blockCount : nat;
  totalBlockSize : nat;
  carSize : Z }.
End CarDataFile.

(** [Math.ceil(a / b)] for integers and a positive [b]. *)
Definition Math_ceil_div (a b : Z) : Z := ((a + b - 1) / b)%Z.

(** [buffer.slice(start, end)] for indices that are not negative. *)
Definition Buffer_slice (buffer : list Byte.byte) (start end_ : Z) : list Byte.byte :=
  take (Z.to_nat end_ - Z.to_nat start) (drop (Z.to_nat start) buffer).

(** [s.slice(0, n)] on a string. *)
Definition String_slice0 (n : nat) (s : string) : string := String.substring 0 n s.

(** [value || fallback] on a string that may be missing. *)
Definition or_default (value : option string) (fallback : string) : string :=
  match value with
  | Some s => if String.eqb s EmptyString then fallback else s
  | None => fallback
  end.

(** ** [IpniAddonStrategy] *)

Module IpniAddonStrategy.
Section WithEnv.
Variable env : Env.t.

Definition name : string := ServiceType.IPFS_PIN.
Definition priority : Z := AddonPriority.HIGH.
Definition POLLING_INTERVAL_MS : Z := 2500.
Definition POLLING_TIMEOUT_MS : Z := 10 * 60 * 1000.
Definition IPNI_LOOKUP_TIMEOUT_MS : Z := 60 * 60 * 1000.
Definition IPNI_VERIFICATION_DELAY_MS : Z := 30 * 1000.
Definition IPNI_VERIFICATION_RETRY_INTERVAL_MS : Z := 10 * 1000.

Definition isApplicable (config : DealConfiguration.t) : bool :=
  DealConfiguration.enableIpni config.

(** *** CAR conversion *)

Definition make_block (data : list Byte.byte) (i : Z) : string * list Byte.byte :=
  let blockData :=
    Buffer_slice data (i * Env.MAX_BLOCK_SIZE env) ((i + 1) * Env.MAX_BLOCK_SIZE env) in
  let cid := Env.cidOf env blockData in
  (cid, blockData).

Definition convertToCar (dataFile : DataFile.t) : Result CarDataFile.t :=
  let numBlocks := Math_ceil_div (DataFile.size dataFile) (Env.MAX_BLOCK_SIZE env) in
  let blocks := make_block (DataFile.data dataFile) <$> seqZ 0 numBlocks in
  match blocks with
  | [] => Err "Cannot read properties of undefined (reading 'cid')"
  | block0 :: _ =>
      let rootCID := fst block0 in
      let carData := Env.CarWriter env [rootCID] blocks in
      let totalBlockSize := foldl (λ sum b, sum + length (snd b)) 0 blocks in
      let blockCIDs := fst <$> blocks in
      Ok (CarDataFile.mk carData rootCID blockCIDs (length blocks)
                         totalBlockSize (Z.of_nat (length carData)))
  end.

Definition preprocessData (context : AddonExecutionContext.t)
  : Result PreprocessingResult.t :=
  rethrow_with "IPNI preprocessing failed: "
    (carResult ← convertToCar (AddonExecutionContext.currentData context);
     let metadata :=
       IpniMetadata.mk true
         (CarDataFile.rootCID carResult)
         (CarDataFile.blockCIDs carResult)
         (CarDataFile.blockCount carResult)
         (CarDataFile.carSize carResult)
         (DataFile.size (AddonExecutionContext.currentData context)) in
     Ok (PreprocessingResult.mk
           (CarDataFile.carData carResult)
           (IpniMeta metadata)
           (Some (DataFile.data (AddonExecutionContext.currentData context)))
           (CarDataFile.carSize carResult))).

Definition getSynapseConfig (dealMetadata : gmap string AddonMetadata)
  : SynapseConfig.t :=
  match dealMetadata !! name with
  | Some (IpniMeta m) =>
      let rootCID := IpniMetadata.rootCID m in
      if String.eqb rootCID EmptyString
      then SynapseConfig.mk None None
      else SynapseConfig.mk
             (Some {[ METADATA_KEYS.WITH_IPFS_INDEXING := EmptyString ]})
             (Some {[ METADATA_KEYS.IPFS_ROOT_CID := rootCID ]})
  | _ => SynapseConfig.mk None None
  end.

Definition validate (result : PreprocessingResult.t) : Result bool :=
  match PreprocessingResult.metadata result with
  | IpniMeta metadata =>
      if negb (IpniMetadata.enabled metadata)
      then Err "IPNI validation failed: enabled flag not set"
      else if String.eqb (IpniMetadata.rootCID metadata) EmptyString
      then Err "IPNI validation failed: rootCID not generated"
      else if length (IpniMetadata.blockCIDs metadata) =? 0
      then Err "IPNI validation failed: no block CIDs generated"
      else if negb (IpniMetadata.blockCount metadata =?
                    length (IpniMetadata.blockCIDs metadata))
      then Err ("IPNI validation failed: block count mismatch (expected "
                +:+ pretty (IpniMetadata.blockCount metadata) +:+ ", got "
                +:+ pretty (length (IpniMetadata.blockCIDs metadata)) +:+ ")")
      else if (PreprocessingResult.size result =? 0)%Z
      then Err "IPNI validation failed: CAR data is empty"
      else Ok true
  | other =>
      if negb (metadata_enabled other)
      then Err "IPNI validation failed: enabled flag not set"
      else Err "IPNI validation failed: rootCID not generated"
  end.

(** *** Phase 3: lookups in the external index *)

Definition extractProviderAddrs (ipniResponse : IpniResponse.t) : list string :=
  let multihashResults := default [] (IpniResponse.MultihashResults ipniResponse) in
  mjoin ((λ multihashResult,
     let providerResults := default [] (IpniResponse.ProviderResults multihashResult) in
     mjoin ((λ providerResult, default [] (IpniResponse.Addrs providerResult))
              <$> providerResults))
    <$> multihashResults).

Definition queryIPNI (cid : string) (timeoutMs : Z) : M (list string) :=
  emit (EvQueryIPNI cid);;
  response ← outside env (λ n,
    Env.httpsGet env n "filecoinpin.contact" ("/cid/" +:+ cid) timeoutMs);
  mret (extractProviderAddrs response).

Definition verifySingleCID (cid expectedMultiaddr : string)
  : M SingleCIDVerificationResult.t :=
  try_catch
    (addrs ← queryIPNI cid 5000;
     if length addrs =? 0
     then mret (SingleCIDVerificationResult.mk false (Some "not found") (Some addrs))
     else if negb (bool_decide (expectedMultiaddr ∈ addrs))
     then mret (SingleCIDVerificationResult.mk false (Some "wrong multiaddr") (Some addrs))
     else mret (SingleCIDVerificationResult.mk true None None))
    (λ message, mret (SingleCIDVerificationResult.mk false (Some message) None)).

(** The [for (let retry = 0; retry < maxRetries; retry++)] loop, entered
    with [todo = maxRetries - retry] iterations left. *)
Fixpoint verifyRootCID_loop (todo retry maxRetries : nat)
    (rootCID expectedMultiaddr : string) (maxDurationMs startTime : Z)
  : M RootCIDVerificationResult.t :=
  match todo with
  | 0 =>
      mret (RootCIDVerificationResult.mk false
              (Some (FailedCID.mk rootCID "max retries exceeded" None)))
  | S todo' =>
      now ← Date_now;
      let elapsed := (now - startTime)%Z in
      if (elapsed >? maxDurationMs)%Z then
        logger WARN "IPNI verification timeout while checking rootCID";;
        mret (RootCIDVerificationResult.mk false
                (Some (FailedCID.mk rootCID "timeout" None)))
      else
        result ← verifySingleCID rootCID expectedMultiaddr;
        if SingleCIDVerificationResult.verified result then
          logger LOG "RootCID verified in IPNI";;
          mret (RootCIDVerificationResult.mk true None)
        else if retry <? maxRetries - 1 then
          logger DEBUG ("RootCID " +:+
            or_default (SingleCIDVerificationResult.reason result) "verification failed"
            +:+ ", retry");;
          sleep IPNI_VERIFICATION_RETRY_INTERVAL_MS;;
          verifyRootCID_loop todo' (S retry) maxRetries
                             rootCID expectedMultiaddr maxDurationMs startTime
        else
          mret (RootCIDVerificationResult.mk false
                  (Some (FailedCID.mk rootCID
                           (or_default (SingleCIDVerificationResult.reason result) "unknown")
                           (SingleCIDVerificationResult.addrs result))))
  end.

Definition verifyRootCID (rootCID expectedMultiaddr : string)
    (maxDurationMs startTime : Z) : M RootCIDVerificationResult.t :=
  logger LOG ("Verifying rootCID in IPNI: " +:+ String_slice0 12 rootCID +:+ "...");;
  let maxRetries := 5 in
  verifyRootCID_loop maxRetries 0 maxRetries rootCID expectedMultiaddr
                     maxDurationMs startTime.

(** The [for (const cid of blockCIDs)] loop with its [break]. *)
Fixpoint verifyBlockCIDs_loop (blockCIDs : list string) (expectedMultiaddr : string)
    (maxDurationMs startTime : Z) (verified : nat) (failed : list FailedCID.t)
  : M BlockCIDsVerificationResult.t :=
  match blockCIDs with
  | [] => mret (BlockCIDsVerificationResult.mk verified failed)
  | cid :: rest =>
      now ← Date_now;
      let elapsed := (now - startTime)%Z in
      if (elapsed >? maxDurationMs)%Z then
        logger WARN "IPNI verification timeout";;
        mret (BlockCIDsVerificationResult.mk verified failed)
      else
        result ← verifySingleCID cid expectedMultiaddr;
        if SingleCIDVerificationResult.verified result then
          verifyBlockCIDs_loop rest expectedMultiaddr maxDurationMs startTime
                               (S verified) failed
        else
          verifyBlockCIDs_loop rest expectedMultiaddr maxDurationMs startTime
            verified
            (failed ++ [FailedCID.mk cid
                          (or_default (SingleCIDVerificationResult.reason result) "unknown")
                          (SingleCIDVerificationResult.addrs result)])
  end.

Definition verifyBlockCIDs (blockCIDs : list string) (expectedMultiaddr : string)
    (maxDurationMs startTime : Z) : M BlockCIDsVerificationResult.t :=
  logger LOG "Verifying blockCIDs in IPNI...";;
  verifyBlockCIDs_loop blockCIDs expectedMultiaddr maxDurationMs startTime 0 [].

Definition verifyIPNIAdvertisement (rootCID : string) (blockCIDs : list string)
    (expectedMultiaddr : string) (maxDurationMs : Z) : M IPNIVerificationResult.t :=
  startTime ← Date_now;
  rootCIDResult ← verifyRootCID rootCID expectedMultiaddr maxDurationMs startTime;
  let failedCIDs := from_option (λ f, [f]) [] (RootCIDVerificationResult.failed rootCIDResult) in
  '(blockCIDsVerified, failedCIDs) ←
    (if RootCIDVerificationResult.verified rootCIDResult then
       blockCIDsResult ← verifyBlockCIDs blockCIDs expectedMultiaddr maxDurationMs startTime;
       mret (BlockCIDsVerificationResult.verified blockCIDsResult,
             failedCIDs ++ BlockCIDsVerificationResult.failed blockCIDsResult)
     else mret (0, failedCIDs));
  now ← Date_now;
  let durationMs := (now - startTime)%Z in
  verifiedAt ← Date_now;
  let successCount :=
    (if RootCIDVerificationResult.verified rootCIDResult then 1 else 0) + blockCIDsVerified in
  let totalCIDs := length blockCIDs + 1 in
  (if 0 <? length failedCIDs
   then logger WARN "IPNI verification: some CIDs failed"
   else logger LOG "IPNI verified");;
  mret (IPNIVerificationResult.mk successCount (totalCIDs - successCount) totalCIDs
          (RootCIDVerificationResult.verified rootCIDResult)
          durationMs failedCIDs verifiedAt).

(** *** Phase 1: polling the provider *)

Definition initial_status : PieceStatus.t :=
  PieceStatus.mk EmptyString false false false None None None.

(** The body of the [try] block of one polling round: [inl] is its
    [return], [inr] the new [lastStatus]. *)
Definition poll_once (pieceCid : string) (startTime : Z)
    (lastStatus : PieceStatus.t) (checkCount : nat)
  : M (PieceMonitoringResult.t + PieceStatus.t) :=
  emit (EvGetPieceStatus pieceCid);;
  sdkStatus ← outside env (λ n, Env.getPieceStatus env n pieceCid);
  let indexed := SdkPieceStatus.indexed sdkStatus in
  let advertised := SdkPieceStatus.advertised sdkStatus in
  indexedAt ←
    (if indexed && negb (PieceStatus.indexed lastStatus) then
       t ← Date_now;
       logger LOG ("Piece indexed: " +:+ String_slice0 12 pieceCid +:+ "...");;
       mret (Some t)
     else mret (PieceStatus.indexedAt lastStatus));
  advertisedAt ←
    (if advertised && negb (PieceStatus.advertised lastStatus) then
       t ← Date_now;
       logger LOG ("Piece advertised: " +:+ String_slice0 12 pieceCid +:+ "...");;
       mret (Some t)
     else mret (PieceStatus.advertisedAt lastStatus));
  let currentStatus :=
    PieceStatus.mk (SdkPieceStatus.status sdkStatus) indexed advertised
      (SdkPieceStatus.retrieved sdkStatus) (SdkPieceStatus.retrievedAt sdkStatus)
      indexedAt advertisedAt in
  if bool_decide (is_Some (PieceStatus.retrievedAt currentStatus))
     && negb (bool_decide (is_Some (PieceStatus.retrievedAt lastStatus))) then
    logger LOG ("Piece retrieved: " +:+ String_slice0 12 pieceCid +:+ "...");;
    now ← Date_now;
    mret (inl (PieceMonitoringResult.mk true currentStatus checkCount (now - startTime)%Z))
  else mret (inr currentStatus).

(** The message of the error thrown after the loop; the seconds elapsed,
    which the template renders with [toFixed(1)], stay unrendered. *)
Definition timeout_error : string :=
  "Timeout waiting for piece retrieval after ${durationSec}s".

(** The statements after the loop. *)
Definition timeout_exit {A} (pieceCid : string) : M A :=
  logger WARN ("Piece retrieval timeout: " +:+ String_slice0 12 pieceCid +:+ "...");;
  throw timeout_error.

(** The [try] and [catch] of one polling round: [lastStatus] stays as it
    is when the status check throws. *)
Definition poll_round (pieceCid : string) (startTime : Z)
    (lastStatus : PieceStatus.t) (checkCount : nat)
  : M (PieceMonitoringResult.t + PieceStatus.t) :=
  try_catch
    (poll_once pieceCid startTime lastStatus checkCount)
    (λ message,
       (if checkCount mod 20 =? 0
        then logger DEBUG ("Status check error: " +:+ message)
        else mret tt);;
       mret (inr lastStatus)).

(** The [while (Date.now() - startTime < maxDurationMs)] loop. Every round
    ends in a timer of at least one millisecond, so [rounds] rounds take at
    least [rounds] milliseconds: [monitorPieceStatus] enters the loop with
    as many rounds as [maxDurationMs] has milliseconds. *)
Fixpoint monitorPieceStatus_loop (rounds : nat) (pieceCid : string)
    (maxDurationMs pollIntervalMs startTime : Z)
    (lastStatus : PieceStatus.t) (checkCount : nat)
  : M PieceMonitoringResult.t :=
  now ← Date_now;
  if (now - startTime <? maxDurationMs)%Z then
    match rounds with
    | 0 => timeout_exit pieceCid
    | S rounds' =>
        let checkCount := S checkCount in
        step ← poll_round pieceCid startTime lastStatus checkCount;
        match step with
        | inl result => mret result
        | inr lastStatus =>
            sleep pollIntervalMs;;
            monitorPieceStatus_loop rounds' pieceCid maxDurationMs pollIntervalMs
                                    startTime lastStatus checkCount
        end
    end
  else timeout_exit pieceCid.

Definition monitorPieceStatus (pieceCid : string) (maxDurationMs pollIntervalMs : Z)
  : M PieceMonitoringResult.t :=
  startTime ← Date_now;
  monitorPieceStatus_loop (Z.to_nat maxDurationMs) pieceCid maxDurationMs
                          pollIntervalMs startTime initial_status 0.

Definition monitorAndVerifyIPNI (pieceCid : string) (blockCIDs : list string)
    (rootCID expectedMultiaddr : string)
    (statusTimeoutMs ipniTimeoutMs pollIntervalMs : Z)
  : M MonitorAndVerifyResult.t :=
  monitoringResult ← try_catch
    (monitorPieceStatus pieceCid statusTimeoutMs pollIntervalMs)
    (λ message,
       logger WARN ("Piece status monitoring incomplete: " +:+ message);;
       mret (PieceMonitoringResult.mk false
               (PieceStatus.mk "timeout" false false false None None None)
               0 statusTimeoutMs));
  (if PieceStatus.retrieved (PieceMonitoringResult.finalStatus monitoringResult) then
     logger LOG "Waiting for IPNI indexer to process CIDs...";;
     sleep IPNI_VERIFICATION_DELAY_MS
   else mret tt);;
  ipniResult ← verifyIPNIAdvertisement rootCID blockCIDs expectedMultiaddr ipniTimeoutMs;
  mret (MonitorAndVerifyResult.mk monitoringResult ipniResult).

(** *** Writing the outcome to the Deal *)

(** [deal.uploadEndTime || now] *)
Definition uploadEndTime_or (now : Z) : M (option Value) :=
  v ← get_field "uploadEndTime";
  mret (if truthy v then v else Some (VDate now)).

(** [a.getTime() - b.getTime()] for a Date [a] and a value [b]. *)
Definition time_since (a : Z) (b : option Value) : M Value :=
  match b with
  | Some (VDate ms) => mret (VNum (a - ms))
  | _ => throw "uploadEndTime.getTime is not a function"
  end.

Definition updateDealWithIpniMetrics (result : MonitorAndVerifyResult.t) : M unit :=
  let monitoringResult := MonitorAndVerifyResult.monitoringResult result in
  let ipniResult := MonitorAndVerifyResult.ipniResult result in
  let finalStatus := PieceMonitoringResult.finalStatus monitoringResult in
  now ← Date_now;
  uploadEndTime ← uploadEndTime_or now;
  (if IPNIVerificationResult.rootCIDVerified ipniResult then
     set_deal "ipniStatus" (VIpni VERIFIED)
   else if PieceStatus.retrieved finalStatus then
     set_deal "ipniStatus" (VIpni SP_RECEIVED_RETRIEVE_REQUEST)
   else if PieceStatus.advertised finalStatus then
     set_deal "ipniStatus" (VIpni SP_ADVERTISED)
   else if PieceStatus.indexed finalStatus then
     set_deal "ipniStatus" (VIpni SP_INDEXED)
   else
     set_deal "ipniStatus" (VIpni IPNI_FAILED));;
  ipniIndexedAt ← get_field "ipniIndexedAt";
  (if PieceStatus.indexed finalStatus && negb (truthy ipniIndexedAt) then
     let indexedTimestamp := default now (PieceStatus.indexedAt finalStatus) in
     set_deal "ipniIndexedAt" (VDate indexedTimestamp);;
     elapsed ← time_since indexedTimestamp uploadEndTime;
     set_deal "ipniTimeToIndexMs" elapsed
   else mret tt);;
  ipniAdvertisedAt ← get_field "ipniAdvertisedAt";
  (if PieceStatus.advertised finalStatus && negb (truthy ipniAdvertisedAt) then
     let advertisedTimestamp := default now (PieceStatus.advertisedAt finalStatus) in
     set_deal "ipniAdvertisedAt" (VDate advertisedTimestamp);;
     elapsed ← time_since advertisedTimestamp uploadEndTime;
     set_deal "ipniTimeToAdvertiseMs" elapsed
   else mret tt);;
  ipniRetrievedAt ← get_field "ipniRetrievedAt";
  match PieceStatus.retrievedAt finalStatus with
  | Some retrievedAt =>
      if negb (truthy ipniRetrievedAt) then
        set_deal "ipniRetrievedAt" (VDate retrievedAt);;
        elapsed ← time_since retrievedAt uploadEndTime;
        set_deal "ipniTimeToRetrieveMs" elapsed
      else mret tt
  | None => mret tt
  end;;
  ipniVerifiedAt ← get_field "ipniVerifiedAt";
  (if IPNIVerificationResult.rootCIDVerified ipniResult && negb (truthy ipniVerifiedAt) then
     let verifiedTimestamp := IPNIVerificationResult.verifiedAt ipniResult in
     set_deal "ipniVerifiedAt" (VDate verifiedTimestamp);;
     elapsed ← time_since verifiedTimestamp uploadEndTime;
     set_deal "ipniTimeToVerifyMs" elapsed
   else mret tt);;
  set_deal "ipniVerifiedCidsCount"
           (VNum (Z.of_nat (IPNIVerificationResult.verified ipniResult)));;
  set_deal "ipniUnverifiedCidsCount"
           (VNum (Z.of_nat (IPNIVerificationResult.unverified ipniResult)));;
  logger LOG "IPNI status recorded";;
  try_catch
    (dealRepository_save env)
    (λ message,
       logger ERROR ("Failed to save IPNI metrics: " +:+ message);;
       throw message).

Definition serviceURLToMultiaddr (serviceURL : string) : M string :=
  hostname ← lift (rethrow_with "Failed to convert serviceURL to multiaddr: "
                                (Env.URL_hostname env serviceURL));
  mret ("/dns/" +:+ hostname +:+ "/tcp/443/https").

(** [deal.metadata[this.name]?.blockCIDs ?? []] and [?.rootCID ?? ""] *)
Definition ipni_metadata_of (metadata : option Value) : M (list string * string) :=
  match metadata with
  | Some (VMetadata m) =>
      match m !! name with
      | Some (IpniMeta im) => mret (IpniMetadata.blockCIDs im, IpniMetadata.rootCID im)
      | _ => mret ([], EmptyString)
      end
  | _ => throw "Cannot read properties of undefined (reading 'ipfs_pin')"
  end.

Definition startIpniMonitoring : M unit :=
  try_catch
    (storageProvider ← get_field "storageProvider";
     serviceUrl ←
       match storageProvider with
       | Some (VProvider p) => mret (StorageProvider.serviceUrl p)
       | _ => throw "Cannot read properties of null (reading 'serviceUrl')"
       end;
     lift (Env.PDPServer env serviceUrl);;
     expectedMultiaddr ← serviceURLToMultiaddr serviceUrl;
     pieceCid ← get_field "pieceCid";
     metadata ← get_field "metadata";
     '(blockCIDs, rootCID) ← ipni_metadata_of metadata;
     result ← monitorAndVerifyIPNI
       (match pieceCid with Some (VStr s) => s | _ => EmptyString end)
       blockCIDs rootCID expectedMultiaddr
       POLLING_TIMEOUT_MS IPNI_LOOKUP_TIMEOUT_MS POLLING_INTERVAL_MS;
     updateDealWithIpniMetrics result)
    (λ message,
       set_deal "ipniStatus" (VIpni IPNI_FAILED);;
       try_catch
         (dealRepository_save env;;
          logger WARN ("IPNI failed: " +:+ message))
         (λ saveError,
            logger ERROR ("Failed to save IPNI failure status: " +:+ saveError));;
       throw message).

(** The promise [onUploadComplete] starts and does not await:
    [this.startIpniMonitoring(deal).catch(...)]. *)
Definition detached_monitoring : M unit :=
  try_catch startIpniMonitoring
    (λ message, logger ERROR ("IPNI monitoring failed: " +:+ message)).

(** [onUploadComplete]: the monitoring it starts runs later, on the same
    Deal object; here it is the event [EvMonitoringStarted]. *)
Definition onUploadComplete : M unit :=
  storageProvider ← get_field "storageProvider";
  if negb (truthy storageProvider) then
    logger WARN "No storage provider for deal"
  else
    set_deal "ipniStatus" (VIpni IPNI_PENDING);;
    dealRepository_save env;;
    logger LOG "IPNI tracking started";;
    emit EvMonitoringStarted.

Definition addon : IDealAddon.t :=
  IDealAddon.mk name priority isApplicable preprocessData
                (Some getSynapseConfig) (Some validate)
                (Some (async onUploadComplete)) None.
End WithEnv.
End IpniAddonStrategy.

(** *** Observations on a trace *)

(** The lookups and the timers among the events, in the order they happen. *)
Definition schedule (events : list (Z * Event)) : list (string + Z) :=
  omap (λ timed, match timed.2 with
                 | EvQueryIPNI cid => Some (inl cid)
                 | EvSleep ms => Some (inr ms)
                 | _ => None
                 end) events.

(** No lookup among the events starts later than [maxDurationMs] after
    [startTime]. *)
Definition in_time (startTime maxDurationMs : Z) (events : list (Z * Event)) : Prop :=
  ∀ t cid, (t, EvQueryIPNI cid) ∈ events → (t - startTime ≤ maxDurationMs)%Z.

(** The save attempts among the events. *)
Definition saves (events : list (Z * Event)) : list (gmap string Value * bool) :=
  omap (λ timed, match timed.2 with
                 | EvSave snapshot resolved => Some (snapshot, resolved)
                 | _ => None
                 end) events.

(** The values written to the [status] property, in the order they are written,
    starting from the one a created entity holds. *)
Definition status_history (events : list (Z * Event)) : list Value :=
  omap (λ timed, match timed.2 with
                 | EvSet field v => if decide (field = "status") then Some v else None
                 | EvCreate entity => entity !! "status"
                 | _ => None
                 end) events.

(** [attempts] lookups of one identifier with a timer of [interval] between
    one lookup and the next. *)
Fixpoint retry_schedule (attempts : nat) (cid : string) (interval : Z)
  : list (string + Z) :=
  match attempts with
  | 0 => []
  | 1 => [inl cid]
  | S attempts' => inl cid :: inr interval :: retry_schedule attempts' cid interval
  end.

(** The events a computation adds to the trace of the world it starts in. *)
Definition events_of {A} (m : M A) (w : World.t) : list (Z * Event) :=
  drop (length (World.trace w)) (World.trace (m w).2).

(** The ways two sequences of events can interleave in time. *)
Inductive interleaving {A} : list A → list A → list A → Prop :=
  | interleaving_nil : interleaving [] [] []
  | interleaving_left x l1 l2 l :
      interleaving l1 l2 l → interleaving (x :: l1) l2 (x :: l)
  | interleaving_right x l1 l2 l :
      interleaving l1 l2 l → interleaving l1 (x :: l2) (x :: l).

(** The terminal values of the primary status. *)
Definition terminal (status : Value) : Prop :=
  status = VStatus DEAL_CREATED ∨ status = VStatus FAILED.

(** The values of the primary status that are not terminal. *)
Definition open_status (status : Value) : Prop :=
  status ∈ [VStatus PENDING; VStatus UPLOADED; VStatus PIECE_ADDED].

(** The place of a status along PENDING, UPLOADED, PIECE_ADDED,
    DEAL_CREATED, with FAILED above them all. *)
Definition status_rank (status : Value) : Z :=
  match status with
  | VStatus PENDING => 0
  | VStatus UPLOADED => 1
  | VStatus PIECE_ADDED => 2
  | VStatus DEAL_CREATED => 3
  | VStatus FAILED => 4
  | _ => -1
  end.

(** The contract of the storage backend on its callbacks: each fires at
    most once, upload-complete before piece-added. *)
Definition in_contract (callbacks : list UploadCallback) : bool :=
  match callbacks with
  | [] | [_] | [OnUploadComplete _; OnPieceAdded _] => true
  | _ => false
  end.

(** The value monitoring goes on with when polling has thrown. *)
Definition placeholder (statusTimeoutMs : Z) : PieceMonitoringResult.t :=
  PieceMonitoringResult.mk false
    (PieceStatus.mk "timeout" false false false None None None) 0 statusTimeoutMs.

(** The stages of verification in the order the specification lists them,
    and the highest of the stages reached ([IPNI_FAILED] when none is). *)
Definition stage_rank (stage : IpniStatus) : nat :=
  match stage with
  | IPNI_FAILED | IPNI_PENDING => 0
  | SP_INDEXED => 1
  | SP_ADVERTISED => 2
  | SP_RECEIVED_RETRIEVE_REQUEST => 3
  | VERIFIED => 4
  end.

Definition stages_reached (rootVerified retrieved advertised indexed : bool)
  : list IpniStatus :=
  (if indexed then [SP_INDEXED] else [])
  ++ (if advertised then [SP_ADVERTISED] else [])
  ++ (if retrieved then [SP_RECEIVED_RETRIEVE_REQUEST] else [])
  ++ (if rootVerified then [VERIFIED] else []).

Definition highest_stage (stages : list IpniStatus) : IpniStatus :=
  foldr (λ stage best, if stage_rank best <? stage_rank stage then stage else best)
        IPNI_FAILED stages.

(** The properties of a Deal that hold the verification state. *)
Definition ipni_fields : list string :=
  [ "ipniStatus"; "ipniIndexedAt"; "ipniTimeToIndexMs"; "ipniAdvertisedAt";
    "ipniTimeToAdvertiseMs"; "ipniRetrievedAt"; "ipniTimeToRetrieveMs";
    "ipniVerifiedAt"; "ipniTimeToVerifyMs"; "ipniVerifiedCidsCount";
    "ipniUnverifiedCidsCount" ].

(** ** [DealAddonsService] *)

(** [[...array].sort(compareFn)]: the sort of the language is stable. An
    element goes in front of the first element it does not compare greater
    than, so elements that compare equal keep their order. *)
Fixpoint Array_insert {A} (compareFn : A → A → Z) (x : A) (sorted : list A) : list A :=
  match sorted with
  | [] => [x]
  | y :: rest =>
      if (compareFn x y <=? 0)%Z then x :: y :: rest
      else y :: Array_insert compareFn x rest
  end.

Definition Array_sort {A} (compareFn : A → A → Z) (array : list A) : list A :=
  foldr (Array_insert compareFn) [] array.

(** The comparator [(a, b) => key(a) - key(b)]. *)
Definition compare_by {A} (key : A → Z) (a b : A) : Z := (key a - key b)%Z.

Module DealAddonsService.
(** The injected strategies and the [addons] map; a [Map] iterates in
    insertion order, so it is the list of its values in that order. *)
Record t : Type := mk {
  directAddon : IDealAddon.t;
  cdnAddon : IDealAddon.t;
  ipniAddon : IDealAddon.t;
  addons : list IDealAddon.t }.

Definition has (addons : list IDealAddon.t) (addonName : string) : bool :=
  existsb (λ a, String.eqb (IDealAddon.name a) addonName) addons.

(** [this.addons.get(addonName)] *)
Definition get (addons : list IDealAddon.t) (addonName : string) : option IDealAddon.t :=
  List.find (λ a, String.eqb (IDealAddon.name a) addonName) addons.

Definition registerAddon (addons : list IDealAddon.t) (addon : IDealAddon.t)
  : list IDealAddon.t :=
  if has addons (IDealAddon.name addon) then addons
  else addons ++ [addon].

Definition registerAddons (directAddon cdnAddon ipniAddon : IDealAddon.t)
  : list IDealAddon.t :=
  registerAddon (registerAddon (registerAddon [] directAddon) cdnAddon) ipniAddon.

(** The constructor. *)
Definition new (directAddon cdnAddon ipniAddon : IDealAddon.t) : t :=
  mk directAddon cdnAddon ipniAddon (registerAddons directAddon cdnAddon ipniAddon).

Definition getApplicableAddons (this : t) (config : DealConfiguration.t)
  : list IDealAddon.t :=
  List.filter (λ addon, IDealAddon.isApplicable addon config) (addons this).

Definition sortAddonsByPriority (addons : list IDealAddon.t) : list IDealAddon.t :=
  Array_sort (compare_by IDealAddon.priority) addons.

(** One round of the [for (const addon of addons)] loop of
    [executePreprocessingPipeline]. *)
Definition run_addon (addon : IDealAddon.t)
    (state : AddonExecutionContext.t * list string)
  : Result (AddonExecutionContext.t * list string) :=
  let '(context, appliedAddons) := state in
  rethrow_with ("Add-on " +:+ IDealAddon.name addon +:+ " preprocessing failed: ")
    (result ← IDealAddon.preprocessData addon context;
     match IDealAddon.validate addon with
     | Some validate => validate result
     | None => Ok true
     end;;
     let currentData :=
       DataFile.mk (PreprocessingResult.data result)
                   (PreprocessingResult.size result)
                   (DataFile.name (AddonExecutionContext.currentData context)) in
     let accumulatedMetadata :=
       <[IDealAddon.name addon := PreprocessingResult.metadata result]>
         (AddonExecutionContext.accumulatedMetadata context) in
     Ok (AddonExecutionContext.mk currentData accumulatedMetadata
           (AddonExecutionContext.configuration context),
         appliedAddons ++ [IDealAddon.name addon])).

Fixpoint run_addons (addons : list IDealAddon.t)
    (state : AddonExecutionContext.t * list string)
  : Result (AddonExecutionContext.t * list string) :=
  match addons with
  | [] => Ok state
  | addon :: rest => state' ← run_addon addon state; run_addons rest state'
  end.

Module PipelineResult.
Record t : Type := mk {
  finalData : list Byte.byte;
  finalSize : Z;
  aggregatedMetadata : gmap string AddonMetadata;
  appliedAddons : list string }.
End PipelineResult.

Definition executePreprocessingPipeline (addons : list IDealAddon.t)
    (config : DealConfiguration.t) : Result PipelineResult.t :=
  let context :=
    AddonExecutionContext.mk (DealConfiguration.dataFile config) ∅ config in
  '(context, appliedAddons) ← run_addons addons (context, []);
  Ok (PipelineResult.mk
        (DataFile.data (AddonExecutionContext.currentData context))
        (DataFile.size (AddonExecutionContext.currentData context))
        (AddonExecutionContext.accumulatedMetadata context)
        appliedAddons).

(** One round of the loop of [mergeSynapseConfigs]; [{ ...merged, ...config }]
    keeps the value of [config] for a key both hold. *)
Definition merge_config (dealMetadata : gmap string AddonMetadata)
    (merged : gmap string string * gmap string string) (addon : IDealAddon.t)
  : gmap string string * gmap string string :=
  match IDealAddon.getSynapseConfig addon with
  | None => merged
  | Some getSynapseConfig =>
      let config := getSynapseConfig dealMetadata in
      let dataSetMetadata :=
        match SynapseConfig.dataSetMetadata config with
        | Some exported => exported ∪ fst merged
        | None => fst merged
        end in
      let pieceMetadata :=
        match SynapseConfig.pieceMetadata config with
        | Some exported => exported ∪ snd merged
        | None => snd merged
        end in
      (dataSetMetadata, pieceMetadata)
  end.

(** The keys an addon exports to each namespace: those of the maps its
    [getSynapseConfig] returns; none when it has no [getSynapseConfig] or
    returns no map for the namespace. *)
Definition exported_dataSet (dealMetadata : gmap string AddonMetadata)
    (addon : IDealAddon.t) : gmap string string :=
  default ∅ (getSynapseConfig ← IDealAddon.getSynapseConfig addon;
             SynapseConfig.dataSetMetadata (getSynapseConfig dealMetadata)).

Definition exported_piece (dealMetadata : gmap string AddonMetadata)
    (addon : IDealAddon.t) : gmap string string :=
  default ∅ (getSynapseConfig ← IDealAddon.getSynapseConfig addon;
             SynapseConfig.pieceMetadata (getSynapseConfig dealMetadata)).

Definition mergeSynapseConfigs (addons : list IDealAddon.t)
    (dealMetadata : gmap string AddonMetadata)
  : gmap string string * gmap string string :=
  foldl (merge_config dealMetadata) (∅, ∅) addons.

(** The addons [preprocessDeal] executes for a configuration. *)
Definition addons_to_run (this : t) (config : DealConfiguration.t) : list IDealAddon.t :=
  let applicableAddons := getApplicableAddons this config in
  let applicableAddons :=
    if length applicableAddons =? 0
    then applicableAddons ++ [directAddon this]
    else applicableAddons in
  sortAddonsByPriority applicableAddons.

Definition preprocessDeal (this : t) (config : DealConfiguration.t)
  : Result DealPreprocessingResult.t :=
  rethrow_with "Deal preprocessing failed: "
    (let sortedAddons := addons_to_run this config in
     pipelineResult ← executePreprocessingPipeline sortedAddons config;
     let synapseConfig :=
       mergeSynapseConfigs sortedAddons
                           (PipelineResult.aggregatedMetadata pipelineResult) in
     Ok (DealPreprocessingResult.mk
           (DataFile.mk (PipelineResult.finalData pipelineResult)
                        (PipelineResult.finalSize pipelineResult)
                        (DataFile.name (DealConfiguration.dataFile config)))
           (PipelineResult.aggregatedMetadata pipelineResult)
           synapseConfig
           (PipelineResult.appliedAddons pipelineResult))).

(** [hooks.map((hook) => hook(deal))]: the hooks are called in their order,
    and a call that throws ends the [map]. *)
Fixpoint call_hooks (hooks : list (M (Result unit))) : M (list (Result unit)) :=
  match hooks with
  | [] => mret []
  | hook :: rest =>
      promise ← hook;
      promises ← call_hooks rest;
      mret (promise :: promises)
  end.

(** [await Promise.all(promises)]: rejected with the first rejection. *)
Fixpoint Promise_all (promises : list (Result unit)) : Result unit :=
  match promises with
  | [] => Ok tt
  | Ok _ :: rest => Promise_all rest
  | Err message :: _ => Err message
  end.

(** The hooks are called before the [try] block, which only awaits the
    promises they returned. *)
Definition handleUploadComplete (this : t) (appliedAddons : list string) : M unit :=
  logger DEBUG "Running onUploadComplete handlers for deal";;
  uploadCompletePromises ←
    call_hooks
      (omap (λ addonName, get (addons this) addonName ≫= IDealAddon.onUploadComplete)
            appliedAddons);
  try_catch
    (lift (Promise_all uploadCompletePromises);;
     logger DEBUG "onUploadComplete handlers completed for deal")
    (λ message, logger WARN ("onUploadComplete handler failed for deal: " +:+ message)).

Definition postProcessDeal (this : t) (appliedAddons : list string) : M unit :=
  logger DEBUG "Running post-processing for deal";;
  postProcessPromises ←
    call_hooks
      (omap (λ addonName, get (addons this) addonName ≫= IDealAddon.postProcess)
            appliedAddons);
  try_catch
    (lift (Promise_all postProcessPromises);;
     logger DEBUG "Post-processing completed for deal")
    (λ message, logger WARN ("Post-processing failed for deal: " +:+ message)).

(** What [getRegisteredAddons] lists of an addon. *)
Module RegisteredAddon.
Record t : Type := mk { name : string; priority : Z }.
End RegisteredAddon.

Definition getRegisteredAddons (this : t) : list RegisteredAddon.t :=
  (λ addon, RegisteredAddon.mk (IDealAddon.name addon) (IDealAddon.priority addon))
  <$> addons this.

Definition isAddonRegistered (this : t) (addonName : string) : bool :=
  has (addons this) addonName.
End DealAddonsService.

(** ** [DealService] *)

Module ProviderInfoEx.
Record t : Type := mk { serviceProvider : string }.
End ProviderInfoEx.

(** [Math.round(a / (b / 1000))] for whole numbers [a] and [b], computed as
    the program does, in binary64. *)
Definition round_per_second (a b : Z) : Value :=
  Value_of_rounded (Math_round (Number_of_Z a / (Number_of_Z b / 1000))).

(** [Promise.allSettled]: every promise runs to its end, and the outcomes
    come back in the order of the promises. The calls of one group are run
    one after the other. *)
Fixpoint Promise_allSettled {A} (promises : list (M A)) : M (list (Result A)) :=
  match promises with
  | [] => mret []
  | promise :: rest =>
      λ w, match promise w with
           | (outcome, w') =>
               (outcomes ← Promise_allSettled rest; mret (outcome :: outcomes)) w'
           end
  end.

Module BatchEntry.
Record t : Type := mk {
  success : bool;
  deal : option (gmap string Value);
  error : option string;
  provider : string }.
End BatchEntry.

Module DealService.
Record t : Type := mk {
  walletAddress : string;
  enableCDNTesting : bool;
  enableIpniTesting : bool;
  dealAddonsService : DealAddonsService.t;
  (** [walletSdkService.getTestingProviders()] and [...Count()] *)
  getTestingProviders : list ProviderInfoEx.t;
  getTestingProvidersCount : nat;
  (** [Math.random() > 0.5], drawn for CDN and for IPNI *)
  randomCDN : bool;
  randomIpni : bool;
  (** [dataSourceService.fetchKaggleDataset] and [fetchLocalDataset] *)
  fetchKaggleDataset : Result DataFile.t;
  fetchLocalDataset : Result DataFile.t }.

Section WithEnv.
Variable env : Env.t.
Variable this : t.

Definition saveDeal : M unit :=
  try_catch
    (dealRepository_save env)
    (λ message, logger WARN ("Failed to save deal: " +:+ message)).

Definition updateDealWithUploadResult (uploadResult : UploadResult.t) : M unit :=
  set_deal "pieceCid" (VStr (UploadResult.pieceCid uploadResult));;
  set_deal "pieceSize" (VNum (UploadResult.size uploadResult));;
  set_deal "pieceId" (VNum (UploadResult.pieceId uploadResult));;
  set_deal "status" (VStatus DEAL_CREATED);;
  now ← Date_now;
  set_deal "dealConfirmedTime" (VDate now);;
  dealConfirmedTime ← getTime "dealConfirmedTime";
  uploadStartTime ← getTime "uploadStartTime";
  set_deal "dealLatencyMs" (VNum (dealConfirmedTime - uploadStartTime)).

Definition handleUploadComplete (pieceCid : string) (appliedAddons : list string)
  : M unit :=
  set_deal "pieceCid" (VStr pieceCid);;
  now ← Date_now;
  set_deal "uploadEndTime" (VDate now);;
  uploadEndTime ← getTime "uploadEndTime";
  uploadStartTime ← getTime "uploadStartTime";
  set_deal "ingestLatencyMs" (VNum (uploadEndTime - uploadStartTime));;
  fileSize ← get_field "fileSize";
  set_deal "ingestThroughputBps"
    (match fileSize with
     | Some (VNum fileSize) => round_per_second fileSize (uploadEndTime - uploadStartTime)
     | _ => VNotFinite
     end);;
  set_deal "status" (VStatus UPLOADED);;
  DealAddonsService.handleUploadComplete (dealAddonsService this) appliedAddons.

Definition handleRootAdded (transactionHash : string) : M unit :=
  now ← Date_now;
  set_deal "pieceAddedTime" (VDate now);;
  pieceAddedTime ← getTime "pieceAddedTime";
  uploadEndTime ← getTime "uploadEndTime";
  set_deal "chainLatencyMs" (VNum (pieceAddedTime - uploadEndTime));;
  set_deal "status" (VStatus PIECE_ADDED);;
  set_deal "transactionHash" (VStr transactionHash).

(** The backend awaits each callback it fires before [upload] settles; a
    callback that throws makes [upload] reject with its error. *)
Fixpoint fire_callbacks (callbacks : list UploadCallback)
    (onUploadComplete onPieceAdded : string → M unit) : M unit :=
  match callbacks with
  | [] => mret tt
  | OnUploadComplete pieceCid :: rest =>
      onUploadComplete pieceCid;; fire_callbacks rest onUploadComplete onPieceAdded
  | OnPieceAdded hash :: rest =>
      onPieceAdded hash;; fire_callbacks rest onUploadComplete onPieceAdded
  end.

(** [await storage.upload(data, { onUploadComplete, onPieceAdded, metadata })] *)
Definition storage_upload (data : list Byte.byte)
    (onUploadComplete onPieceAdded : string → M unit)
    (metadata : gmap string string) : M UploadResult.t :=
  behaviour ← (λ w, outside env (λ n, Ok (Env.upload env n data metadata)) w);
  fire_callbacks (fst behaviour) onUploadComplete onPieceAdded;;
  lift (snd behaviour).

(** The statements of the [try] block of [createDeal], one by one. *)
Definition load_storageProvider : M unit :=
  spAddress ← get_field "spAddress";
  storageProvider ← outside env (λ n,
    Env.findOne env n (match spAddress with Some (VStr a) => a | _ => EmptyString end));
  set_deal "storageProvider"
           (match storageProvider with Some p => VProvider p | None => VNull end).

Definition create_storage (providerAddress : string)
    (dealInput : DealPreprocessingResult.t) : M Z :=
  outside env (λ n,
    Env.createStorage env n providerAddress
                      (DealPreprocessingResult.dataSetMetadata dealInput)).

Definition upload_data (dealInput : DealPreprocessingResult.t) : M UploadResult.t :=
  storage_upload
    (DataFile.data (DealPreprocessingResult.processedData dealInput))
    (λ pieceCid, handleUploadComplete pieceCid
                   (DealPreprocessingResult.appliedAddons dealInput))
    (λ hash, handleRootAdded hash)
    (DealPreprocessingResult.pieceMetadata dealInput).

Definition after_upload (providerAddress : string)
    (dealInput : DealPreprocessingResult.t) (uploadResult : UploadResult.t)
  : M (gmap string Value) :=
  updateDealWithUploadResult uploadResult;;
  logger LOG ("Deal created: " +:+ String_slice0 12 (UploadResult.pieceCid uploadResult)
              +:+ "... (" +:+ String_slice0 8 providerAddress +:+ "...)");;
  DealAddonsService.postProcessDeal (dealAddonsService this)
                                    (DealPreprocessingResult.appliedAddons dealInput);;
  get_deal.

Definition before_upload (providerAddress : string)
    (dealInput : DealPreprocessingResult.t) : M unit :=
  load_storageProvider;;
  dataSetId ← create_storage providerAddress dealInput;
  set_deal "dataSetId" (VNum dataSetId);;
  now ← Date_now;
  set_deal "uploadStartTime" (VDate now).

Definition createDeal_try (providerAddress : string)
    (dealInput : DealPreprocessingResult.t) : M (gmap string Value) :=
  before_upload providerAddress dealInput;;
  uploadResult ← upload_data dealInput;
  after_upload providerAddress dealInput uploadResult.

Definition createDeal_catch {A} (providerAddress message : string) : M A :=
  logger ERROR ("Deal creation failed for " +:+ String_slice0 8 providerAddress
                +:+ "...: " +:+ message);;
  set_deal "status" (VStatus FAILED);;
  set_deal "errorMessage" (VStr message);;
  throw message.

Definition new_deal (providerAddress : string) (dealInput : DealPreprocessingResult.t)
  : gmap string Value :=
  {[ "fileName" := VStr (DataFile.name (DealPreprocessingResult.processedData dealInput));
     "fileSize" := VNum (DataFile.size (DealPreprocessingResult.processedData dealInput));
     "spAddress" := VStr providerAddress;
     "status" := VStatus PENDING;
     "walletAddress" := VStr (walletAddress this);
     "metadata" := VMetadata (DealPreprocessingResult.metadata dealInput);
     "serviceTypes" := VNames (DealPreprocessingResult.appliedAddons dealInput) ]}.

Definition createDeal (providerInfo : ProviderInfoEx.t)
    (dealInput : DealPreprocessingResult.t) : M (gmap string Value) :=
  let providerAddress := ProviderInfoEx.serviceProvider providerInfo in
  dealRepository_create (new_deal providerAddress dealInput);;
  try_finally
    (try_catch
       (createDeal_try providerAddress dealInput)
       (createDeal_catch providerAddress))
    saveDeal.

(** *** The batch *)

Definition batch_entry (provider : ProviderInfoEx.t)
    (result : Result (gmap string Value)) : BatchEntry.t :=
  match result with
  | Ok value =>
      BatchEntry.mk true (Some value) None (ProviderInfoEx.serviceProvider provider)
  | Err message =>
      BatchEntry.mk false None (Some (or_default (Some message) "Unknown error"))
                    (ProviderInfoEx.serviceProvider provider)
  end.

(** The [for (let i = 0; i < providers.length; i += maxConcurrency)] loop
    on the providers from index [i] on; [groups] bounds the number of
    groups, and a group size of at least one needs no more groups than
    there are providers. *)
Fixpoint process_groups (groups : nat) (remaining : list ProviderInfoEx.t)
    (dealInput : DealPreprocessingResult.t) (maxConcurrency : nat)
    (results : list BatchEntry.t) : M (list BatchEntry.t) :=
  match groups, remaining with
  | _, [] => mret results
  | 0, _ => mret results
  | S groups', _ =>
      let batch := take maxConcurrency remaining in
      let batchPromises := (λ provider, createDeal provider dealInput) <$> batch in
      batchResults ← Promise_allSettled batchPromises;
      process_groups groups' (drop maxConcurrency remaining) dealInput maxConcurrency
                     (results ++ zip_with batch_entry batch batchResults)
  end.

Definition processProvidersInParallel (providers : list ProviderInfoEx.t)
    (dealInput : DealPreprocessingResult.t) (maxConcurrency : nat)
  : M (list BatchEntry.t) :=
  process_groups (length providers) providers dealInput maxConcurrency [].

Definition fetchDataFile : Result DataFile.t :=
  match fetchKaggleDataset this with
  | Ok dataFile => Ok dataFile
  | Err _ => fetchLocalDataset this
  end.

Definition createDealsForAllProviders : M (list (gmap string Value)) :=
  let totalProviders := getTestingProvidersCount this in
  let enableCDN := if enableCDNTesting this then randomCDN this else false in
  let enableIpni := if enableIpniTesting this then randomIpni this else false in
  logger LOG "Starting deal creation";;
  dataFile ← lift fetchDataFile;
  preprocessed ← lift (DealAddonsService.preprocessDeal (dealAddonsService this)
                         (DealConfiguration.mk enableCDN enableIpni dataFile));
  let providers := getTestingProviders this in
  results ← processProvidersInParallel providers preprocessed 10;
  let successfulDeals := omap BatchEntry.deal (List.filter BatchEntry.success results) in
  logger LOG "Deal creation completed";;
  mret successfulDeals.
End WithEnv.
End DealService.

(** * Time windows of the metrics queries ([metrics/utils/time-window-parser.ts])

    Conventions of this module.
    - A string is the sequence of the bytes of its UTF-8 encoding; a preset
      is a well-formed string.
    - A [Date] holds a time value: [None] is NaN (an Invalid Date) and
      [Some t] is [t] milliseconds after the epoch.  [new Date()] reads the
      clock, which the functions take as the argument [now];
      [new Date(string)] and [Number.parseFloat] are oracles.
    - A number that can be fractional is a binary64 float.  The differences
      of two time values that [validateDateRange] compares with its bounds
      are whole numbers of milliseconds: dividing one by the milliseconds
      of a day (of an hour) and comparing the quotient with 90 (with 1) is
      the comparison of the difference with 90 days (with 1 hour) in
      milliseconds, since a whole number on the wrong side of the bound is
      off by one millisecond at least, far more than the rounding of the
      quotient.
    - Numbers interpolated into an error message are not rendered. *)

Module TimeWindowParser.

Import Stdlib.Strings.Ascii.
Local Open Scope Z_scope.

Definition Date : Type := option Z.

Module TimeWindow.
Record t : Type := mk {
  startDate : Date;
  endDate : Date;
  days : float;
  preset : string;
  isAllTime : bool;
}.
End TimeWindow.

Module ParsedDuration.
Record t : Type := mk {
  value : float;
  unit : string;
  hours : float;
}.
End ParsedDuration.

(** ** Strings *)

Definition code (c : ascii) : N := N_of_ascii c.

Definition between (low high : N) (c : ascii) : bool :=
  ((low <=? code c) && (code c <=? high))%N.

(** [\d] *)
Definition is_digit (c : ascii) : bool := between 48 57 c.

(** The double quote of the messages. *)
Definition quote : string := String (ascii_of_N 34) EmptyString.

(** White space and line terminators of one, two and three bytes: TAB, LF,
    VT, FF, CR, SP; U+00A0; U+1680, U+2000 to U+200A, U+2028, U+2029,
    U+202F, U+205F, U+3000 and U+FEFF. *)
Definition white1 (c : ascii) : bool :=
  between 9 13 c || (code c =? 32)%N.

Definition white2 (c1 c2 : ascii) : bool :=
  ((code c1 =? 194) && (code c2 =? 160))%N.

Definition white3 (c1 c2 c3 : ascii) : bool :=
  ((code c1 =? 225) && (code c2 =? 154) && (code c3 =? 128)
   || (code c1 =? 226) && (code c2 =? 128)
      && (between 128 138 c3 || (code c3 =? 168) || (code c3 =? 169)
          || (code c3 =? 175))
   || (code c1 =? 226) && (code c2 =? 129) && (code c3 =? 159)
   || (code c1 =? 227) && (code c2 =? 128) && (code c3 =? 128)
   || (code c1 =? 239) && (code c2 =? 187) && (code c3 =? 191))%N.

(** [String.prototype.trimStart] *)
Fixpoint trimStart (s : string) : string :=
  match s with
  | EmptyString => EmptyString
  | String c1 s1 =>
      if white1 c1 then trimStart s1
      else
        match s1 with
        | EmptyString => s
        | String c2 s2 =>
            if white2 c1 c2 then trimStart s2
            else
              match s2 with
              | EmptyString => s
              | String c3 s3 => if white3 c1 c2 c3 then trimStart s3 else s
              end
        end
  end.

(** The bytes of a string, last byte first, without the white space they
    start with. *)
Fixpoint trimStart_reversed (s : list ascii) : list ascii :=
  match s with
  | [] => []
  | c1 :: s1 =>
      if white1 c1 then trimStart_reversed s1
      else
        match s1 with
        | [] => s
        | c2 :: s2 =>
            if white2 c2 c1 then trimStart_reversed s2
            else
              match s2 with
              | [] => s
              | c3 :: s3 =>
                  if white3 c3 c2 c1 then trimStart_reversed s3 else s
              end
        end
  end.

(** [String.prototype.trimEnd] *)
Definition trimEnd (s : string) : string :=
  String.string_of_list_ascii
    (rev (trimStart_reversed (rev (String.list_ascii_of_string s)))).

(** [String.prototype.trim] *)
Definition trim (s : string) : string := trimEnd (trimStart s).

Definition lower (c : ascii) : ascii :=
  if between 65 90 c then ascii_of_N (code c + 32) else c.

(** [String.prototype.toLowerCase], on the letters A to Z.  The letters
    outside ASCII are left as they are: a string that holds one has,
    lowered by JavaScript too, a character that is no digit, dot, [h], [d],
    [a] or [l], so that it is neither ["all"] nor matched by the pattern
    of [parseDuration]. *)
Fixpoint toLowerCase (s : string) : string :=
  match s with
  | EmptyString => EmptyString
  | String c rest => String (lower c) (toLowerCase rest)
  end.

(** [\d+], greedy: the digits the string starts with, and what follows
    them. *)
Fixpoint digits (s : string) : string * string :=
  match s with
  | EmptyString => (EmptyString, EmptyString)
  | String c rest =>
      if is_digit c then
        let (found, after) := digits rest in (String c found, after)
      else (EmptyString, s)
  end.

(** [(?:\.\d+)?], greedy: a dot and the digits after it when there is at
    least one, and what follows them. *)
Definition fraction (s : string) : string * string :=
  match s with
  | String c rest =>
      if (code c =? 46)%N then
        let (found, after) := digits rest in
        match found with
        | EmptyString => (EmptyString, s)
        | _ => (String c found, after)
        end
      else (EmptyString, s)
  | EmptyString => (EmptyString, s)
  end.

(** [normalized.match(/^(\d+(?:\.\d+)?)(h|d)$/)]: the two groups of the
    match, or [None] for [null]. *)
Definition match_pattern (normalized : string) : option (string * string) :=
  let (whole, after) := digits normalized in
  match whole with
  | EmptyString => None
  | _ =>
      let (part, after) := fraction after in
      match after with
      | String c EmptyString =>
          if (code c =? 104)%N || (code c =? 100)%N
          then Some (whole +:+ part, String c EmptyString)
          else None
      | _ => None
      end
  end.

(** ** Dates *)

Definition msPerHour : Z := 1000 * 60 * 60.
Definition msPerDay : Z := 1000 * 60 * 60 * 24.

(** A time value out of the range of a [Date] becomes NaN. *)
Definition TimeClip (time : Z) : Date :=
  if 8640000000000000 <? Z.abs time then None else Some time.

(** [date.setUTCHours(23, 59, 59, 999)]: the last millisecond of the UTC
    day of [date]; an Invalid Date stays one. *)
Definition setUTCHours_23_59_59_999 (date : Date) : Date :=
  match date with
  | None => None
  | Some time =>
      TimeClip
        (time / msPerDay * msPerDay
         + (23 * msPerHour + 59 * 60000 + 59 * 1000 + 999))
  end.

(** ** The functions of the module *)

Section Functions.

(** [Number.parseFloat] *)
Variable parseFloat : string → float.

(** [new Date(string)] *)
Variable Date_parse : string → Date.

(** [new Date()] *)
Variable now : Z.

Definition parseDuration (preset : string) : Result ParsedDuration.t :=
  let normalized := toLowerCase (trim preset) in
  if String.eqb normalized "all" then
    Err ("Use isAllTime flag for " +:+ quote +:+ "all" +:+ quote
         +:+ " preset")
  else
    match match_pattern normalized with
    | None =>
        Err ("Invalid time window format: " +:+ quote +:+ preset +:+ quote
             +:+ ". Expected format: <number><unit> (e.g., "
             +:+ quote +:+ "1h" +:+ quote +:+ ", "
             +:+ quote +:+ "2.5d" +:+ quote +:+ ", "
             +:+ quote +:+ "30d" +:+ quote +:+ ")")
    | Some (valueStr, unit) =>
        let value := parseFloat valueStr in
        if PrimFloat.is_nan value || negb (PrimFloat.is_finite value)
           || PrimFloat.leb value 0
        then
          Err ("Invalid duration value: " +:+ quote +:+ valueStr +:+ quote
               +:+ ". Must be a positive number.")
        else
          let MIN_HOURS := 1%float in
          let MAX_HOURS := (90 * 24)%float in
          let check (hours : float) : Result ParsedDuration.t :=
            if PrimFloat.ltb hours MIN_HOURS then
              Err "Duration too short: ${hours}h. Minimum is 1 hour."
            else if PrimFloat.ltb MAX_HOURS hours then
              Err "Duration too long: ${hours}h (${hours / 24}d). Maximum is 90 days."
            else Ok (ParsedDuration.mk value unit hours) in
          if String.eqb unit "h" then check value
          else if String.eqb unit "d" then check (value * 24)%float
          else
            Err ("Invalid unit: " +:+ quote +:+ unit +:+ quote
                 +:+ ". Supported units: h (hours), d (days)")
    end.

Definition validateDateRange (startDate endDate : Date) : Result unit :=
  match startDate with
  | None => Err "Invalid start date"
  | Some startTime =>
      match endDate with
      | None => Err "Invalid end date"
      | Some endTime =>
          if endTime <=? startTime then
            Err "Start date must be before end date"
          else if now <? endTime then
            Err "End date cannot be in the future"
          else
            let MAX_DAYS := 90 in
            if MAX_DAYS * msPerDay <? endTime - startTime then
              Err "Date range too large: ${Math.round(daysDiff)} days. Maximum is 90 days."
            else
              let MIN_HOURS := 1 in
              if endTime - startTime <? MIN_HOURS * msPerHour then
                Err "Date range too small: ${hoursDiff.toFixed(1)} hours. Minimum is 1 hour."
              else Ok tt
      end
  end.

Definition parseCustomDateRange (startDateStr endDateStr : string)
    : Result TimeWindow.t :=
  let startDate := Date_parse startDateStr in
  let endDate := setUTCHours_23_59_59_999 (Date_parse endDateStr) in
  result_bind (validateDateRange startDate endDate) (λ _,
    let days :=
      match startDate, endDate with
      | Some startTime, Some endTime =>
          (Math_round
             (Number_of_Z (endTime - startTime) / Number_of_Z msPerDay * 10)
           / 10)%float
      | _, _ => PrimFloat.nan
      end in
    Ok (TimeWindow.mk startDate endDate days
          (startDateStr +:+ "_" +:+ endDateStr) false)).

End Functions.

Definition allowed (c : ascii) : bool :=
  between 97 122 c || between 65 90 c || between 48 57 c
  || (code c =? 46)%N || (code c =? 45)%N.

(** [preset.replace(/[^a-zA-Z0-9.-]/g, empty)]: the characters outside the
    class are dropped; every byte of a character outside ASCII is outside
    the class too. *)
Fixpoint sanitizePreset (preset : string) : string :=
  match preset with
  | EmptyString => EmptyString
  | String c rest =>
      if allowed c then String c (sanitizePreset rest)
      else sanitizePreset rest
  end.

End TimeWindowParser.

(** * Notions the properties are stated with *)

(** [steps_within R m]: whatever [m] does to the world and however it ends,
    the world it leaves is related by [R] to the world it started in. *)
Definition steps_within (R : relation World.t) {A} (m : M A) : Prop :=
  ∀ w, R w (m w).2.

(** The clock never runs backwards. *)
Definition clock_le (w w' : World.t) : Prop := (World.now w ≤ World.now w')%Z.

(** [writes_only F]: the events of the first trace are a prefix of those of
    the second, the Deal object is the same one, the properties written in
    between all satisfy [F], and every other property holds what it held. *)
Definition writes_only (F : string → Prop) (w w' : World.t) : Prop :=
  ∃ events,
    World.trace w' = World.trace w ++ events
    ∧ (∀ t field v, (t, EvSet field v) ∈ events → F field)
    ∧ (∀ t entity, (t, EvCreate entity) ∉ events)
    ∧ (∀ field, ¬ F field → World.deal w' !! field = World.deal w !! field).

(** [status_within S]: the trace grows, and every value written to [status]
    in between satisfies [S]. *)
Definition status_within (S : Value → Prop) (w w' : World.t) : Prop :=
  ∃ events, World.trace w' = World.trace w ++ events ∧ Forall S (status_history events).

(** Nothing is written to [status]. *)
Definition quiet : relation World.t := status_within (λ _, False).

(** First values that are not terminal, then terminal ones. *)
Definition forward (w w' : World.t) : Prop :=
  ∃ events opening closing,
    World.trace w' = World.trace w ++ events
    ∧ status_history events = opening ++ closing
    ∧ Forall open_status opening
    ∧ Forall terminal closing.

(** The hooks of the registered addons leave [status] alone. *)
Definition hooks_keep_status (service : DealAddonsService.t) : Prop :=
  ∀ addon hook,
    addon ∈ DealAddonsService.addons service →
    IDealAddon.onUploadComplete addon = Some hook ∨ IDealAddon.postProcess addon = Some hook →
    steps_within quiet hook.

(** [climbs lo hi]: the values written to [status] rise strictly along
    [status_rank], all of them above [lo] and none above [hi]. *)
Definition climbs (lo hi : Z) (w w' : World.t) : Prop :=
  ∃ events,
    World.trace w' = World.trace w ++ events
    ∧ StronglySorted (λ a b, (status_rank a < status_rank b)%Z) (status_history events)
    ∧ Forall (λ v, (lo < status_rank v ≤ hi)%Z) (status_history events).

(** The Deal of a fulfilled outcome. *)
Definition fulfilled {A} (outcome : Result A) : option A :=
  match outcome with
  | Ok value => Some value
  | Err _ => None
  end.

(** An outcome of [promise]: what it settles to from some world. *)
Definition outcome_of {A} (promise : M A) (outcome : Result A) : Prop :=
  ∃ w, outcome = (promise w).1.


(** What Phase 1 returns is what the provider reported at one status check
    that carried a retrieval time: the three flags and that time are the
    reported ones. *)
Definition reported_by (env : Env.t) (pieceCid : string) (finalStatus : PieceStatus.t)
  : Prop :=
  ∃ n sdkStatus,
    Env.getPieceStatus env n pieceCid = Ok sdkStatus
    ∧ is_Some (SdkPieceStatus.retrievedAt sdkStatus)
    ∧ PieceStatus.indexed finalStatus = SdkPieceStatus.indexed sdkStatus
    ∧ PieceStatus.advertised finalStatus = SdkPieceStatus.advertised sdkStatus
    ∧ PieceStatus.retrieved finalStatus = SdkPieceStatus.retrieved sdkStatus
    ∧ PieceStatus.retrievedAt finalStatus = SdkPieceStatus.retrievedAt sdkStatus.

(** The lookup of [cid] made as the outside call number [n] finds the
    expected address: the request resolves and the address is among those
    of the response. *)
Definition listed (env : Env.t) (n : nat) (cid expected : string) : bool :=
  match Env.httpsGet env n "filecoinpin.contact" ("/cid/" +:+ cid) 5000 with
  | Ok response =>
      bool_decide (expected ∈ IpniAddonStrategy.extractProviderAddrs response)
  | Err _ => false
  end.

(** How many of the identifiers are found listed when they are looked up
    one after the other, once each, from the outside call number [n] on. *)
Fixpoint listed_count (env : Env.t) (n : nat) (cids : list string) (expected : string)
  : nat :=
  match cids with
  | [] => 0
  | cid :: rest =>
      (if listed env n cid expected then 1 else 0) + listed_count env (S n) rest expected
  end.

(** An addon fails on a context: its [preprocessData] throws, or its
    [validate] throws on what [preprocessData] returned. *)
Definition addon_fails (addon : IDealAddon.t) (context : AddonExecutionContext.t)
    (reason : string) : Prop :=
  IDealAddon.preprocessData addon context = Err reason
  ∨ ∃ result validate,
      IDealAddon.preprocessData addon context = Ok result
      ∧ IDealAddon.validate addon = Some validate
      ∧ validate result = Err reason.

(** The world after each of the hooks has been called once, in their
    order. *)
Definition run_each {A} (hooks : list (M A)) (w : World.t) : World.t :=
  foldl (λ w hook, (hook w).2) w hooks.

(** The hooks of the registered addons never throw when they are called, as
    those that are [async] functions: every call returns a promise. *)
Definition hooks_return_promises (service : DealAddonsService.t) : Prop :=
  ∀ addon hook,
    addon ∈ DealAddonsService.addons service →
    IDealAddon.onUploadComplete addon = Some hook ∨ IDealAddon.postProcess addon = Some hook →
    ∀ w, is_ok (hook w).1 = true.

(** The number of status checks among the events. *)
Definition status_checks (events : list (Z * Event)) : nat :=
  length (List.filter (λ timed, match timed.2 with
                                | EvGetPieceStatus _ => true
                                | _ => false
                                end) events).

(** [saved_last m]: whenever [m] returns, the last thing it did was a save
    of the Deal that resolved, and the Deal is still as it was saved. *)
Definition saved_last {A} (m : M A) : Prop :=
  ∀ w a w', m w = (Ok a, w') →
    ∃ events t,
      World.trace w' = World.trace w ++ events ++ [(t, EvSave (World.deal w') true)].

(** The verification statuses that settle the matter. *)
Definition decided (status : IpniStatus) : Prop :=
  status ∈ [VERIFIED; SP_RECEIVED_RETRIEVE_REQUEST; SP_ADVERTISED; SP_INDEXED; IPNI_FAILED].

(** [keeps field companion]: a Deal that holds a value that counts as set
    under [field] still holds it afterwards, and what it holds under
    [companion] is what it held. *)
Definition keeps (field companion : string) (w w' : World.t) : Prop :=
  truthy (World.deal w !! field) = true →
  World.deal w' !! field = World.deal w !! field
  ∧ World.deal w' !! companion = World.deal w !! companion.

(** The timestamps of the verification stages with the metric that goes
    with each. *)
Definition ipni_timestamps : list (string * string) :=
  [ ("ipniIndexedAt", "ipniTimeToIndexMs");
    ("ipniAdvertisedAt", "ipniTimeToAdvertiseMs");
    ("ipniRetrievedAt", "ipniTimeToRetrieveMs");
    ("ipniVerifiedAt", "ipniTimeToVerifyMs") ].

(** The hooks of the registered addons write to no property of the Deal
    outside [F]. *)
Definition hooks_write_only (F : string → Prop) (service : DealAddonsService.t) : Prop :=
  ∀ addon hook,
    addon ∈ DealAddonsService.addons service →
    IDealAddon.onUploadComplete addon = Some hook ∨ IDealAddon.postProcess addon = Some hook →
    steps_within (writes_only F) hook.

(** Every byte of the string is of the class. *)
Fixpoint every (class : Ascii.ascii → bool) (s : string) : bool :=
  match s with
  | EmptyString => true
  | String c rest => class c && every class rest
  end.

(** A decimal numeral: digits, and maybe a dot and digits after them. *)
Definition is_decimal (numeral : string) : Prop :=
  ∃ whole,
    whole ≠ EmptyString ∧ every TimeWindowParser.is_digit whole = true
    ∧ (numeral = whole
       ∨ ∃ part,
           part ≠ EmptyString ∧ every TimeWindowParser.is_digit part = true
           ∧ numeral = whole +:+ "." +:+ part).

(** * Sample inputs *)

Module Sample.
(** Modelled from the spec: [strategies/direct.strategy.ts] is not among the
    sources. The default pass-through addon: it hands the payload on
    unchanged, exports no configuration and has no hooks. It applies to
    no configuration by itself (with CDN enabled the specification has the
    CDN addon alone applied); the pipeline runs it as the fallback when no
    registered addon applies. *)
Definition direct : IDealAddon.t :=
  IDealAddon.mk ServiceType.DIRECT_SP AddonPriority.LOW
    (λ _, false)
    (λ context,
       Ok (PreprocessingResult.mk
             (DataFile.data (AddonExecutionContext.currentData context))
             (DirectMetadata ∅)
             None
             (DataFile.size (AddonExecutionContext.currentData context))))
    None None None None.

Definition provider : string := "/dns/sp.example/tcp/443/https".

(** A provider that stores what it is given and reports the piece indexed
    and advertised, never retrieved; the index knows the root and the
    blocks from the third lookup on. *)
Definition env : Env.t :=
  Env.mk
    (λ _, 1)
    (λ _, None)
    (λ _ address, Ok (Some (StorageProvider.mk address "https://sp.example")))
    (λ _ address _,
       if String.eqb address "0xFail" then Err "Storage creation failed" else Ok 7%Z)
    (λ _ _ _,
       ([OnUploadComplete "bafk-piece"; OnPieceAdded "0xhash"],
        Ok (UploadResult.mk "bafk-piece" 1024 1)))
    (λ _ _, Ok (SdkPieceStatus.mk "advertised" true true false None))
    (λ n _ _ _,
       if n <? 2 then Err "HTTP 404: Not Found"
       else Ok (IpniResponse.mk
                  (Some [IpniResponse.mkMultihash
                           (Some [IpniResponse.mkProvider (Some [provider])])])))
    (λ _, Ok "sp.example")
    (λ bytes, "bafk" +:+ String.string_of_list_byte bytes)
    (λ _ blocks, mjoin (snd <$> blocks))
    4
    (λ _, Ok tt).

(** The same provider behind an index that never lists it. *)
Definition env_unlisted : Env.t :=
  Env.mk (Env.latency env) (Env.save env) (Env.findOne env) (Env.createStorage env)
         (Env.upload env) (Env.getPieceStatus env)
         (λ _ _ _ _, Err "HTTP 404: Not Found")
         (Env.URL_hostname env) (Env.cidOf env) (Env.CarWriter env)
         (Env.MAX_BLOCK_SIZE env) (Env.PDPServer env).

Definition world : World.t := World.mk 0 0 ∅ [].

Definition dataFile : DataFile.t :=
  DataFile.mk (String.list_byte_of_string "hello") 5 "data.bin".

Definition config (enableCDN enableIpni : bool) : DealConfiguration.t :=
  DealConfiguration.mk enableCDN enableIpni dataFile.

Definition addons : DealAddonsService.t :=
  DealAddonsService.new direct CdnAddonStrategy.addon (IpniAddonStrategy.addon env).

Definition service : DealService.t :=
  DealService.mk "0xWallet" true true addons
    [ProviderInfoEx.mk "0xSuccess"; ProviderInfoEx.mk "0xFail"] 2
    true true (Ok dataFile) (Err "no local dataset").

(** What a successful call returns. *)
Definition returned {A} (fallback : A) (r : Result A) : A :=
  match r with
  | Ok a => a
  | Err _ => fallback
  end.

Definition preprocessed : DealPreprocessingResult.t :=
  returned (DealPreprocessingResult.mk dataFile ∅ (∅, ∅) [])
           (DealAddonsService.preprocessDeal addons (config true true)).

(** The same provider with a CAR writer that frames the blocks: a header
    byte, then the blocks. *)
Definition env_framed : Env.t :=
  Env.mk (Env.latency env) (Env.save env) (Env.findOne env) (Env.createStorage env)
         (Env.upload env) (Env.getPieceStatus env) (Env.httpsGet env)
         (Env.URL_hostname env) (Env.cidOf env)
         (λ _ blocks, Byte.x3a :: mjoin (snd <$> blocks))
         (Env.MAX_BLOCK_SIZE env) (Env.PDPServer env).

(** A Deal whose upload started at time 4 and whose piece the index held
    at time 7, read at time 10. *)
Definition world_indexed : World.t :=
  World.mk 10 0
    {[ "uploadStartTime" := VDate 4; "ipniIndexedAt" := VDate 7;
       "ipniTimeToIndexMs" := VNum 3 ]} [].

(** A Deal after its upload: the provider, the piece and the metadata the
    IPNI addon stored. *)
Definition world_uploaded : World.t :=
  World.mk 0 0
    {[ "storageProvider" := VProvider (StorageProvider.mk "0xSuccess" "https://sp.example");
       "pieceCid" := VStr "bafk-piece";
       "metadata" :=
         VMetadata {[ IpniAddonStrategy.name :=
                        IpniMeta (IpniMetadata.mk true "bafkhell" ["bafkhell"; "bafko"]
                                    2 5 5) ]} ]} [].

(** A provider that reports the piece retrieved at once, behind the same
    index, with a database that rejects every save. *)
Definition env_unsaved : Env.t :=
  Env.mk (Env.latency env) (λ _, Some "connection lost") (Env.findOne env)
         (Env.createStorage env) (Env.upload env)
         (λ _ _, Ok (SdkPieceStatus.mk "retrieved" true true true (Some 1%Z)))
         (Env.httpsGet env) (Env.URL_hostname env) (Env.cidOf env) (Env.CarWriter env)
         (Env.MAX_BLOCK_SIZE env) (Env.PDPServer env).

(** [new Date(string)] on two dates, and an Invalid Date for the rest. *)
Definition Date_parse (s : string) : TimeWindowParser.Date :=
  if String.eqb s "2024-10-01" then Some 1727740800000%Z
  else if String.eqb s "2024-10-31" then Some 1730332800000%Z
  else None.

(** [Number.parseFloat] on two numerals. *)
Definition parseFloat (s : string) : float :=
  if String.eqb s "1.5" then 1.5%float
  else if String.eqb s "90" then 90%float
  else PrimFloat.nan.
End Sample.

(** * Properties *)

(** ** The stable sort *)

Section ArraySort.
Context {A : Type} (key : A → Z).

Local Abbreviation compareFn := (compare_by key).

Lemma Array_insert_Permutation (x : A) (l : list A) :
  Array_insert compareFn x l ≡ₚ x :: l.
Proof.
  induction l as [|y l IH]; simpl; [done|].
  destruct (compareFn x y <=? 0)%Z; [done|].
  rewrite IH. apply Permutation_swap.
Qed.

Lemma Array_sort_Permutation (l : list A) : Array_sort compareFn l ≡ₚ l.
Proof.
  induction l as [|x l IH]; simpl; [done|].
  rewrite Array_insert_Permutation. by rewrite IH.
Qed.

Lemma Array_insert_sorted (x : A) (l : list A) :
  StronglySorted (λ a b, (key a ≤ key b)%Z) l →
  StronglySorted (λ a b, (key a ≤ key b)%Z) (Array_insert compareFn x l).
Proof.
  induction 1 as [|y l Hl IH Hy]; simpl.
  - repeat constructor.
  - destruct (Z.leb_spec (compareFn x y) 0) as [Hle|Hgt]; unfold compare_by in *.
    + constructor; [by constructor|].
      constructor; [lia|].
      eapply Forall_impl; [exact Hy|]. intros z Hz. simpl in Hz. lia.
    + constructor; [done|].
      apply Forall_forall. intros z Hz.
      rewrite (Array_insert_Permutation x l) in Hz.
      apply elem_of_cons in Hz as [->|Hz]; [lia|].
      rewrite Forall_forall in Hy. by apply Hy.
Qed.

Lemma Array_sort_sorted (l : list A) :
  StronglySorted (λ a b, (key a ≤ key b)%Z) (Array_sort compareFn l).
Proof.
  induction l as [|x l IH]; simpl; [constructor|].
  by apply Array_insert_sorted.
Qed.

(** Elements of one key keep the order they had. *)
Lemma Array_insert_stable (p : Z) (x : A) (l : list A) :
  List.filter (λ a, (key a =? p)%Z) (Array_insert compareFn x l)
  = List.filter (λ a, (key a =? p)%Z) (x :: l).
Proof.
  induction l as [|y l IH]; simpl; [done|].
  destruct (Z.leb_spec (compareFn x y) 0) as [Hle|Hgt]; [done|].
  unfold compare_by in Hgt. simpl in *. rewrite IH.
  destruct (Z.eqb_spec (key x) p), (Z.eqb_spec (key y) p); try done; lia.
Qed.

Lemma Array_sort_stable (p : Z) (l : list A) :
  List.filter (λ a, (key a =? p)%Z) (Array_sort compareFn l)
  = List.filter (λ a, (key a =? p)%Z) l.
Proof.
  induction l as [|x l IH]; simpl; [done|].
  rewrite Array_insert_stable. simpl. by rewrite IH.
Qed.
End ArraySort.

(** ** The preprocessing pipeline *)

Lemma result_bind_Ok {A B} (r : Result A) (k : A → Result B) (b : B) :
  r ≫= k = Ok b → ∃ a, r = Ok a ∧ k a = Ok b.
Proof. destruct r as [a|]; [|done]. intros H. by exists a. Qed.

Lemma rethrow_with_Ok {A} (prefix : string) (r : Result A) (a : A) :
  rethrow_with prefix r = Ok a → r = Ok a.
Proof. by destruct r. Qed.

Section Pipeline.
Import DealAddonsService.

Lemma run_addon_applied addon context applied context' applied' :
  run_addon addon (context, applied) = Ok (context', applied') →
  applied' = applied ++ [IDealAddon.name addon].
Proof.
  unfold run_addon, rethrow_with, mbind, Result_bind, result_bind.
  destruct (IDealAddon.preprocessData addon context) as [result|]; [|done].
  destruct (match IDealAddon.validate addon with
            | Some validate => validate result
            | None => Ok true
            end); [|done].
  by intros [= _ <-].
Qed.

Lemma run_addons_applied addons context applied context' applied' :
  run_addons addons (context, applied) = Ok (context', applied') →
  applied' = applied ++ (IDealAddon.name <$> addons).
Proof.
  revert context applied.
  induction addons as [|addon addons IH]; intros context applied; cbn [run_addons].
  - intros [= _ <-]. by rewrite app_nil_r.
  - intros ([c a] & Hstep & Hrest)%result_bind_Ok.
    apply IH in Hrest as ->.
    apply run_addon_applied in Hstep as ->. by rewrite <- app_assoc.
Qed.

Lemma executePreprocessingPipeline_applied addons config pipelineResult :
  executePreprocessingPipeline addons config = Ok pipelineResult →
  PipelineResult.appliedAddons pipelineResult = IDealAddon.name <$> addons.
Proof.
  unfold executePreprocessingPipeline, mbind, Result_bind, result_bind.
  destruct (run_addons addons _) as [[c a]|] eqn:Hrun; [|done].
  intros [= <-]. simpl. by apply run_addons_applied in Hrun as ->.
Qed.

(** What a successful [preprocessDeal] returns, in terms of the addons it ran. *)
Lemma preprocessDeal_Ok this config result :
  preprocessDeal this config = Ok result →
  DealPreprocessingResult.appliedAddons result
    = IDealAddon.name <$> addons_to_run this config
  ∧ DealPreprocessingResult.synapseConfig result
    = mergeSynapseConfigs (addons_to_run this config)
                          (DealPreprocessingResult.metadata result).
Proof.
  unfold preprocessDeal, rethrow_with, mbind, Result_bind, result_bind.
  destruct (executePreprocessingPipeline _ config) as [pipelineResult|] eqn:Hrun; [|done].
  intros [= <-]. simpl. split; [|done].
  by apply (executePreprocessingPipeline_applied _ config).
Qed.

Lemma addons_to_run_applicable this config :
  getApplicableAddons this config ≠ [] →
  addons_to_run this config = sortAddonsByPriority (getApplicableAddons this config).
Proof.
  unfold addons_to_run. by destruct (getApplicableAddons this config).
Qed.

Lemma addons_to_run_fallback this config :
  getApplicableAddons this config = [] →
  addons_to_run this config = [directAddon this].
Proof. unfold addons_to_run. by intros ->. Qed.

(** C6. For a configuration with at least one applicable addon, the
    applied-addon list of a successful [preprocessDeal] names the applicable
    addons (the registered addons whose [isApplicable] holds, in
    registration order) rearranged so that priorities ascend, and the
    addons of any one priority stay in registration order. *)
Theorem applied_addons_sorted_by_priority this config result :
  getApplicableAddons this config ≠ [] →
  preprocessDeal this config = Ok result →
  ∃ sorted : list IDealAddon.t,
    DealPreprocessingResult.appliedAddons result = IDealAddon.name <$> sorted
    ∧ sorted ≡ₚ getApplicableAddons this config
    ∧ StronglySorted (λ a b, (IDealAddon.priority a ≤ IDealAddon.priority b)%Z) sorted
    ∧ ∀ p : Z,
        List.filter (λ a, (IDealAddon.priority a =? p)%Z) sorted
        = List.filter (λ a, (IDealAddon.priority a =? p)%Z
                            && IDealAddon.isApplicable a config)
                      (addons this).
Proof.
  intros Happlicable Hok.
  apply preprocessDeal_Ok in Hok as [Happlied _].
  rewrite addons_to_run_applicable in Happlied by done.
  exists (sortAddonsByPriority (getApplicableAddons this config)).
  unfold sortAddonsByPriority. repeat split.
  - done.
  - apply Array_sort_Permutation.
  - apply Array_sort_sorted.
  - intros p. rewrite Array_sort_stable. unfold getApplicableAddons.
    induction (addons this) as [|a l IH]; simpl; [done|].
    destruct (IDealAddon.isApplicable a config); simpl;
      destruct (IDealAddon.priority a =? p)%Z; simpl; by rewrite ?IH.
Qed.

(** C7. When no registered addon is applicable, [preprocessDeal] executes
    the Direct addon and nothing else. The list it executes is
    [[directAddon]]. When it succeeds, the Direct addon's [preprocessData]
    has returned on the original data file with no metadata accumulated, its
    [validate] (when it has one) has accepted what was returned, and the
    result is made of that alone: the payload and the size returned, the one
    metadata entry under the Direct addon's name, the configuration the
    Direct addon exports, and the applied-addon list with its name alone.
    It fails exactly when the Direct addon's [preprocessData] or [validate]
    throws, with that message behind the two prefixes. *)
Theorem fallback_is_exactly_direct this config :
  (∀ addon, addon ∈ addons this → IDealAddon.isApplicable addon config = false) →
  let direct := directAddon this in
  let context :=
    AddonExecutionContext.mk (DealConfiguration.dataFile config) ∅ config in
  addons_to_run this config = [direct]
  ∧ (∀ result, preprocessDeal this config = Ok result →
       DealPreprocessingResult.appliedAddons result = [IDealAddon.name direct]
       ∧ ∃ output,
           IDealAddon.preprocessData direct context = Ok output
           ∧ (∀ validate, IDealAddon.validate direct = Some validate →
                is_ok (validate output) = true)
           ∧ DealPreprocessingResult.processedData result
             = DataFile.mk (PreprocessingResult.data output)
                           (PreprocessingResult.size output)
                           (DataFile.name (DealConfiguration.dataFile config))
           ∧ DealPreprocessingResult.metadata result
             = {[ IDealAddon.name direct := PreprocessingResult.metadata output ]}
           ∧ DealPreprocessingResult.dataSetMetadata result
             = exported_dataSet (DealPreprocessingResult.metadata result) direct
           ∧ DealPreprocessingResult.pieceMetadata result
             = exported_piece (DealPreprocessingResult.metadata result) direct)
  ∧ (∀ message, preprocessDeal this config = Err message ↔
       ∃ reason,
         addon_fails direct context reason
         ∧ message
           = "Deal preprocessing failed: "
             +:+ ("Add-on " +:+ IDealAddon.name direct +:+ " preprocessing failed: ")
             +:+ reason).
Proof.
  intros Hnone direct context.
  assert (getApplicableAddons this config = []) as Hempty.
  { unfold getApplicableAddons.
    induction (addons this) as [|a l IH]; simpl; [done|].
    rewrite (Hnone a) by left. apply IH. intros b Hb. apply Hnone. by right. }
  pose proof (addons_to_run_fallback _ _ Hempty) as Hrun. fold direct in Hrun.
  split; [done|].
  assert (Hmerge : ∀ metadata,
            mergeSynapseConfigs [direct] metadata
            = (exported_dataSet metadata direct, exported_piece metadata direct)).
  { intros metadata.
    unfold mergeSynapseConfigs, merge_config, exported_dataSet, exported_piece.
    cbn [foldl fst snd]. destruct (IDealAddon.getSynapseConfig direct) as [f|]; [|done].
    cbn. destruct (SynapseConfig.dataSetMetadata (f metadata)),
           (SynapseConfig.pieceMetadata (f metadata)); cbn;
      by rewrite ?(right_id_L ∅ (∪)). }
  unfold preprocessDeal, executePreprocessingPipeline. rewrite Hrun.
  cbn [run_addons]. fold context.
  unfold run_addon, rethrow_with, mbind, Result_bind, result_bind, addon_fails.
  destruct (IDealAddon.preprocessData direct context) as [output|reason] eqn:Hdata.
  - destruct (IDealAddon.validate direct) as [validate|] eqn:Hvalidate.
    + destruct (validate output) as [accepted|reason] eqn:Haccepted.
      * split.
        -- intros result [= <-]. rewrite Hmerge. cbn. split; [done|]. exists output.
           split_and!; try done. intros ? [= <-]. by rewrite Haccepted.
        -- intros message. split; [done|].
           intros (reason & [[=] | (o & v & [= <-] & [= <-] & Hv)] & _). congruence.
      * split; [done|]. intros message. split.
        -- intros [= <-]. exists reason. split; [|done]. right. by exists output, validate.
        -- intros (reason' & [[=] | (o & v & [= <-] & [= <-] & Hv)] & ->).
           congruence.
    + split.
      * intros result [= <-]. rewrite Hmerge. cbn. split; [done|]. exists output.
        split_and!; done.
      * intros message. split; [done|].
        by intros (reason & [[=] | (o & v & _ & [=] & _)] & _).
  - split; [done|]. intros message. split.
    + intros [= <-]. exists reason. split; [by left|done].
    + intros (reason' & [[= <-] | (o & v & [=] & _)] & ->). done.
Qed.
End Pipeline.

(** ** Merging the exported configuration *)

Section Merge.
Import DealAddonsService.

(** Spreading maps one after the other into an accumulator. *)
Lemma spread_lookup_absent (maps : list (gmap string string)) acc k :
  (∀ m, m ∈ maps → m !! k = None) →
  foldl (λ merged m, m ∪ merged) acc maps !! k = acc !! k.
Proof.
  revert acc. induction maps as [|m maps IH]; intros acc Habsent; simpl; [done|].
  rewrite IH by (intros m' Hm'; apply Habsent; by right).
  apply lookup_union_r, Habsent. by left.
Qed.

Lemma spread_lookup_last (maps : list (gmap string string)) acc i m k :
  maps !! i = Some m →
  is_Some (m !! k) →
  (∀ j m', i < j → maps !! j = Some m' → m' !! k = None) →
  foldl (λ merged m, m ∪ merged) acc maps !! k = m !! k.
Proof.
  revert acc i. induction maps as [|m0 maps IH]; intros acc i Hi Hk Hlater; [done|].
  destruct i as [|i]; simpl in *.
  - injection Hi as ->. rewrite spread_lookup_absent.
    + by apply lookup_union_l'.
    + intros m' [j Hj]%list_elem_of_lookup. apply (Hlater (S j)); [lia|done].
  - apply (IH _ i); [done..|].
    intros j m' Hij Hj. apply (Hlater (S j)); [lia|done].
Qed.

Lemma spread_dom (maps : list (gmap string string)) acc :
  dom (foldl (λ merged m, m ∪ merged) acc maps) = dom acc ∪ ⋃ (dom <$> maps).
Proof.
  revert acc. induction maps as [|m maps IH]; intros acc; simpl.
  - set_solver.
  - rewrite IH, dom_union_L. set_solver.
Qed.

Lemma mergeSynapseConfigs_spread addons dealMetadata acc :
  foldl (merge_config dealMetadata) acc addons
  = (foldl (λ merged m, m ∪ merged) (fst acc) (exported_dataSet dealMetadata <$> addons),
     foldl (λ merged m, m ∪ merged) (snd acc) (exported_piece dealMetadata <$> addons)).
Proof.
  revert acc. induction addons as [|addon addons IH]; intros [ds pm]; simpl; [done|].
  rewrite IH. unfold merge_config, exported_dataSet, exported_piece. simpl.
  destruct (IDealAddon.getSynapseConfig addon) as [f|]; simpl.
  - destruct (SynapseConfig.dataSetMetadata (f dealMetadata)),
             (SynapseConfig.pieceMetadata (f dealMetadata)); simpl;
      by rewrite ?(left_id_L ∅ (∪)).
  - by rewrite !(left_id_L ∅ (∪)).
Qed.

(** C8. After a successful [preprocessDeal], with [applied] the addons in
    the order they ran: in each of the two namespaces the keys of the
    merged configuration are exactly the union of the keys the applied
    addons export, and a key holds the value exported by the last applied
    addon that exports it. *)
Theorem merged_config_is_union_last_write_wins this config result :
  preprocessDeal this config = Ok result →
  let applied := addons_to_run this config in
  let metadata := DealPreprocessingResult.metadata result in
  DealPreprocessingResult.appliedAddons result = IDealAddon.name <$> applied
  ∧ dom (DealPreprocessingResult.dataSetMetadata result)
    = ⋃ (dom <$> (exported_dataSet metadata <$> applied))
  ∧ dom (DealPreprocessingResult.pieceMetadata result)
    = ⋃ (dom <$> (exported_piece metadata <$> applied))
  ∧ (∀ i addon k,
       applied !! i = Some addon →
       is_Some (exported_dataSet metadata addon !! k) →
       (∀ j later, i < j → applied !! j = Some later →
                   exported_dataSet metadata later !! k = None) →
       DealPreprocessingResult.dataSetMetadata result !! k
       = exported_dataSet metadata addon !! k)
  ∧ (∀ i addon k,
       applied !! i = Some addon →
       is_Some (exported_piece metadata addon !! k) →
       (∀ j later, i < j → applied !! j = Some later →
                   exported_piece metadata later !! k = None) →
       DealPreprocessingResult.pieceMetadata result !! k
       = exported_piece metadata addon !! k).
Proof.
  intros Hok applied metadata.
  apply preprocessDeal_Ok in Hok as [Happlied Hconfig].
  unfold DealPreprocessingResult.dataSetMetadata, DealPreprocessingResult.pieceMetadata.
  rewrite Hconfig. unfold mergeSynapseConfigs.
  rewrite mergeSynapseConfigs_spread. simpl.
  fold applied metadata. split; [done|].
  split; [rewrite spread_dom; set_solver|].
  split; [rewrite spread_dom; set_solver|].
  split.
  - intros i addon k Hi Hk Hlater.
    apply (spread_lookup_last _ _ i); [by rewrite list_lookup_fmap, Hi|done|].
    intros j m' Hij Hj. rewrite list_lookup_fmap in Hj.
    destruct (applied !! j) as [later|] eqn:Hj'; [|done].
    injection Hj as <-. by apply (Hlater j).
  - intros i addon k Hi Hk Hlater.
    apply (spread_lookup_last _ _ i); [by rewrite list_lookup_fmap, Hi|done|].
    intros j m' Hij Hj. rewrite list_lookup_fmap in Hj.
    destruct (applied !! j) as [later|] eqn:Hj'; [|done].
    injection Hj as <-. by apply (Hlater j).
Qed.
End Merge.

(** ** CAR conversion *)

Section Car.
Variable env : Env.t.
Hypothesis MAX_BLOCK_SIZE_pos : (0 < Env.MAX_BLOCK_SIZE env)%Z.

Lemma Math_ceil_div_pos (size : Z) :
  (1 ≤ size)%Z → (1 ≤ Math_ceil_div size (Env.MAX_BLOCK_SIZE env))%Z.
Proof.
  intros Hsize. unfold Math_ceil_div.
  apply Z.div_le_lower_bound; lia.
Qed.

Lemma Math_ceil_div_zero : Math_ceil_div 0 (Env.MAX_BLOCK_SIZE env) = 0%Z.
Proof. unfold Math_ceil_div. apply Z.div_small. lia. Qed.

Lemma convertToCar_nonempty dataFile :
  (1 ≤ DataFile.size dataFile)%Z →
  ∃ car,
    IpniAddonStrategy.convertToCar env dataFile = Ok car
    ∧ 1 ≤ CarDataFile.blockCount car
    ∧ Z.of_nat (CarDataFile.blockCount car)
      = Math_ceil_div (DataFile.size dataFile) (Env.MAX_BLOCK_SIZE env)
    ∧ length (CarDataFile.blockCIDs car) = CarDataFile.blockCount car
    ∧ CarDataFile.blockCIDs car !! 0 = Some (CarDataFile.rootCID car)
    ∧ CarDataFile.rootCID car
      = Env.cidOf env (Buffer_slice (DataFile.data dataFile) 0 (Env.MAX_BLOCK_SIZE env)).
Proof.
  intros Hsize. apply Math_ceil_div_pos in Hsize.
  unfold IpniAddonStrategy.convertToCar.
  remember (Math_ceil_div _ _) as numBlocks eqn:HnumBlocks. clear HnumBlocks.
  assert (0 < numBlocks)%Z as Hpos by lia.
  rewrite (seqZ_cons 0 numBlocks Hpos), fmap_cons. cbv beta iota zeta.
  eexists. split; [reflexivity|].
  cbn [CarDataFile.blockCount CarDataFile.blockCIDs CarDataFile.rootCID].
  rewrite fmap_cons, !length_cons, !length_fmap, length_seqZ.
  repeat split; try lia.
  unfold IpniAddonStrategy.make_block. cbn [fst].
  by rewrite Z.mul_0_l, Z.add_0_l, Z.mul_1_l.
Qed.

Lemma convertToCar_empty dataFile :
  DataFile.size dataFile = 0%Z →
  IpniAddonStrategy.convertToCar env dataFile
  = Err "Cannot read properties of undefined (reading 'cid')".
Proof.
  intros Hsize. unfold IpniAddonStrategy.convertToCar.
  by rewrite Hsize, Math_ceil_div_zero.
Qed.

(** C10. With a positive [MAX_BLOCK_SIZE]: a data file of size at least 1
    converts to a CAR with at least one block (as many as the size needs),
    whose root is the identifier of the first block; a data file of size 0
    yields no block, the conversion throws on reading the first block,
    [preprocessData] rethrows, and a pipeline that hands the IPNI addon
    such a file aborts, whatever addons would follow. *)
Theorem ipni_transform_defined_only_for_nonempty_payload :
  (∀ dataFile, (1 ≤ DataFile.size dataFile)%Z →
     ∃ car,
       IpniAddonStrategy.convertToCar env dataFile = Ok car
       ∧ 1 ≤ CarDataFile.blockCount car
       ∧ Z.of_nat (CarDataFile.blockCount car)
         = Math_ceil_div (DataFile.size dataFile) (Env.MAX_BLOCK_SIZE env)
       ∧ length (CarDataFile.blockCIDs car) = CarDataFile.blockCount car
       ∧ CarDataFile.blockCIDs car !! 0 = Some (CarDataFile.rootCID car)
       ∧ CarDataFile.rootCID car
         = Env.cidOf env (Buffer_slice (DataFile.data dataFile) 0
                                       (Env.MAX_BLOCK_SIZE env)))
  ∧ (∀ context applied rest,
       DataFile.size (AddonExecutionContext.currentData context) = 0%Z →
       IpniAddonStrategy.convertToCar env (AddonExecutionContext.currentData context)
       = Err "Cannot read properties of undefined (reading 'cid')"
       ∧ IpniAddonStrategy.preprocessData env context
         = Err "IPNI preprocessing failed: Cannot read properties of undefined (reading 'cid')"
       ∧ DealAddonsService.run_addons (IpniAddonStrategy.addon env :: rest)
                                      (context, applied)
         = Err "Add-on ipfs_pin preprocessing failed: IPNI preprocessing failed: Cannot read properties of undefined (reading 'cid')")
  ∧ (∀ config rest,
       DataFile.size (DealConfiguration.dataFile config) = 0%Z →
       is_ok (DealAddonsService.executePreprocessingPipeline
                (IpniAddonStrategy.addon env :: rest) config) = false).
Proof.
  split; [exact convertToCar_nonempty|].
  assert (∀ context applied rest,
       DataFile.size (AddonExecutionContext.currentData context) = 0%Z →
       IpniAddonStrategy.convertToCar env (AddonExecutionContext.currentData context)
       = Err "Cannot read properties of undefined (reading 'cid')"
       ∧ IpniAddonStrategy.preprocessData env context
         = Err "IPNI preprocessing failed: Cannot read properties of undefined (reading 'cid')"
       ∧ DealAddonsService.run_addons (IpniAddonStrategy.addon env :: rest)
                                      (context, applied)
         = Err "Add-on ipfs_pin preprocessing failed: IPNI preprocessing failed: Cannot read properties of undefined (reading 'cid')")
    as Habort.
  { intros context applied rest Hsize.
    pose proof (convertToCar_empty _ Hsize) as Hcar.
    assert (IpniAddonStrategy.preprocessData env context
            = Err "IPNI preprocessing failed: Cannot read properties of undefined (reading 'cid')")
      as Hpre by (unfold IpniAddonStrategy.preprocessData; by rewrite Hcar).
    repeat split; [done..|].
    cbn [DealAddonsService.run_addons].
    unfold DealAddonsService.run_addon. simpl. by rewrite Hpre. }
  split; [exact Habort|].
  intros config rest Hsize. unfold DealAddonsService.executePreprocessingPipeline.
  by rewrite (proj2 (proj2 (Habort
    (AddonExecutionContext.mk (DealConfiguration.dataFile config) ∅ config)
    [] rest Hsize))).
Qed.
End Car.

(** ** Reasoning about effectful code *)

Section StepsWithin.
Context (R : relation World.t) `{!PreOrder R}.

Lemma steps_ret {A} (a : A) : steps_within R (mret a).
Proof. intros w. simpl. reflexivity. Qed.

Lemma steps_throw {A} (message : string) : steps_within R (@throw A message).
Proof. intros w. simpl. reflexivity. Qed.

Lemma steps_lift {A} (r : Result A) : steps_within R (lift r).
Proof. intros w. simpl. reflexivity. Qed.

Lemma steps_get_deal : steps_within R get_deal.
Proof. intros w. simpl. reflexivity. Qed.

Lemma steps_get_field (field : string) : steps_within R (get_field field).
Proof. intros w. simpl. reflexivity. Qed.

Lemma steps_Date_now : steps_within R Date_now.
Proof. intros w. simpl. reflexivity. Qed.

Lemma steps_bind {A B} (m : M A) (k : A → M B) :
  steps_within R m → (∀ a, steps_within R (k a)) → steps_within R (m ≫= k).
Proof.
  intros Hm Hk w. specialize (Hm w). unfold mbind, M_bind.
  destruct (m w) as [[a|e] w']; simpl in *; [|done].
  etransitivity; [exact Hm|apply Hk].
Qed.

Lemma steps_try_catch {A} (body : M A) (handler : string → M A) :
  steps_within R body → (∀ e, steps_within R (handler e)) →
  steps_within R (try_catch body handler).
Proof.
  intros Hm Hk w. specialize (Hm w). unfold try_catch.
  destruct (body w) as [[a|e] w']; simpl in *; [done|].
  etransitivity; [exact Hm|apply Hk].
Qed.

Lemma steps_try_finally {A} (body : M A) (cleanup : M unit) :
  steps_within R body → steps_within R cleanup →
  steps_within R (try_finally body cleanup).
Proof.
  intros Hm Hk w. specialize (Hm w). unfold try_finally.
  destruct (body w) as [r w']. specialize (Hk w').
  destruct (cleanup w') as [[[]|e] w'']; simpl in *; by etransitivity.
Qed.

Lemma steps_getTime (field : string) : steps_within R (getTime field).
Proof.
  apply steps_bind; [apply steps_get_field|].
  intros [[]|]; apply steps_throw || apply steps_ret.
Qed.

Lemma steps_async {A} (body : M A) : steps_within R body → steps_within R (async body).
Proof. intros Hbody w. specialize (Hbody w). unfold async. by destruct (body w). Qed.

Lemma steps_call_hooks hooks :
  Forall (steps_within R) hooks → steps_within R (DealAddonsService.call_hooks hooks).
Proof.
  induction 1 as [|hook hooks Hhook _ IH]; cbn [DealAddonsService.call_hooks].
  - apply steps_ret.
  - apply steps_bind; [exact Hhook|intros promise].
    apply steps_bind; [exact IH|intros promises]. apply steps_ret.
Qed.
End StepsWithin.

Global Instance clock_le_preorder : PreOrder clock_le.
Proof. split; unfold clock_le; [intros w|intros w1 w2 w3]; lia. Qed.

Global Instance writes_only_preorder F : PreOrder (writes_only F).
Proof.
  split.
  - intros w. exists []. rewrite app_nil_r. set_solver.
  - intros w1 w2 w3 (e1 & Ht1 & Hs1 & Hc1 & Hd1) (e2 & Ht2 & Hs2 & Hc2 & Hd2).
    exists (e1 ++ e2). rewrite Ht2, Ht1, app_assoc. split; [done|].
    split; [|split].
    + intros t f v [?|?]%elem_of_app; eauto.
    + intros t d [?|?]%elem_of_app; [by eapply Hc1|by eapply Hc2].
    + intros f Hf. by rewrite Hd2, Hd1.
Qed.

Section Primitives.
Variable env : Env.t.

Lemma clock_emit e : steps_within clock_le (emit e).
Proof. intros w. unfold clock_le. simpl. lia. Qed.

Lemma clock_set_deal field v : steps_within clock_le (set_deal field v).
Proof. intros w. unfold clock_le. simpl. lia. Qed.

Lemma timer_delay_pos ms : (1 ≤ timer_delay ms)%Z.
Proof. unfold timer_delay. destruct (_ && _) eqn:H; lia. Qed.

Lemma clock_advance ms : (0 ≤ ms)%Z → steps_within clock_le (advance ms).
Proof. intros Hms w. unfold clock_le. simpl. lia. Qed.

Lemma clock_sleep ms : steps_within clock_le (sleep ms).
Proof.
  apply steps_bind; [apply _|apply clock_emit|intros _].
  apply clock_advance. pose proof (timer_delay_pos ms). lia.
Qed.

Lemma clock_outside {A} (f : nat → Result A) : steps_within clock_le (outside env f).
Proof. intros w. unfold clock_le. simpl. lia. Qed.

Lemma writes_emit F e :
  (∀ field v, e ≠ EvSet field v) → (∀ entity, e ≠ EvCreate entity) →
  steps_within (writes_only F) (emit e).
Proof.
  intros Hset Hcreate w. exists [(World.now w, e)]. simpl. split; [done|].
  split; [|split]; [| |done].
  - intros t f v [= _ ?]%list_elem_of_singleton. by destruct (Hset f v).
  - intros t d [= _ ?]%list_elem_of_singleton. by destruct (Hcreate d).
Qed.

Lemma writes_logger F level text : steps_within (writes_only F) (logger level text).
Proof. by apply writes_emit. Qed.

Lemma writes_advance F ms : steps_within (writes_only F) (advance ms).
Proof. intros w. exists []. simpl. rewrite app_nil_r. set_solver. Qed.

Lemma writes_sleep F ms : steps_within (writes_only F) (sleep ms).
Proof.
  apply steps_bind; [apply _|by apply writes_emit|intros _]. apply writes_advance.
Qed.

Lemma writes_outside F {A} (f : nat → Result A) :
  steps_within (writes_only F) (outside env f).
Proof. intros w. exists []. simpl. rewrite app_nil_r. set_solver. Qed.

Lemma writes_set_deal (F : string → Prop) field v :
  F field → steps_within (writes_only F) (set_deal field v).
Proof.
  intros HF w. exists [(World.now w, EvSet field v)]. simpl. split; [done|].
  split; [|split].
  - by intros t f v' [= _ -> _]%list_elem_of_singleton.
  - by intros t d [=]%list_elem_of_singleton.
  - intros f Hf. apply lookup_insert_ne. by intros ->.
Qed.

Lemma writes_dealRepository_save F :
  steps_within (writes_only F) (dealRepository_save env).
Proof.
  apply steps_bind; [apply _|apply steps_get_deal; apply _|intros deal].
  apply steps_try_catch; [apply _| |intros e].
  - apply steps_bind; [apply _|apply writes_outside|intros _]. by apply writes_emit.
  - apply steps_bind; [apply _|by apply writes_emit|intros _]. apply steps_throw, _.
Qed.

Lemma clock_dealRepository_save : steps_within clock_le (dealRepository_save env).
Proof.
  apply steps_bind; [apply _|apply steps_get_deal; apply _|intros deal].
  apply steps_try_catch; [apply _| |intros e].
  - apply steps_bind; [apply _|apply clock_outside|intros _]. apply clock_emit.
  - apply steps_bind; [apply _|apply clock_emit|intros _]. apply steps_throw, _.
Qed.
End Primitives.

Create HintDb steps discriminated.
#[export] Hint Resolve steps_ret steps_throw steps_lift steps_get_deal steps_get_field
  steps_Date_now steps_getTime clock_emit clock_set_deal clock_sleep clock_outside
  clock_dealRepository_save writes_logger writes_advance writes_sleep writes_outside
  writes_dealRepository_save clock_le_preorder writes_only_preorder : steps.

(** Takes a goal [steps_within R m] apart along the syntax of [m]. *)
Ltac steps :=
  repeat first
    [ solve [auto with steps]
    | apply steps_bind; [apply _| |intros ?]
    | apply steps_try_catch; [apply _| |intros ?]
    | apply steps_try_finally; [apply _| |]
    | apply writes_emit; [done|done]
    | apply writes_set_deal; solve [repeat constructor]
    | match goal with
      | |- steps_within _ (if ?b then _ else _) => destruct b
      | |- steps_within _ (match ?x with _ => _ end) => destruct x
      end ].

(** ** The monitor: what it writes, and the clock *)

Section MonitorFrame.
Variable env : Env.t.
Context (R : relation World.t) `{!PreOrder R}.
(** [R] is kept by the steps that write nothing to the Deal. *)
Hypothesis R_emit : ∀ e,
  (∀ field v, e ≠ EvSet field v) → (∀ entity, e ≠ EvCreate entity) →
  steps_within R (emit e).
Hypothesis R_advance : ∀ ms, (0 ≤ ms)%Z → steps_within R (advance ms).
Hypothesis R_outside : ∀ A (f : nat → Result A), steps_within R (outside env f).

Local Hint Resolve R_outside : steps.

Local Lemma R_logger level text : steps_within R (logger level text).
Proof. by apply R_emit. Qed.

Local Lemma R_sleep ms : steps_within R (sleep ms).
Proof.
  apply steps_bind; [apply _|by apply R_emit|intros _].
  apply R_advance. pose proof (timer_delay_pos ms). lia.
Qed.

Local Hint Resolve R_logger R_sleep : steps.

Ltac steps_R :=
  repeat first [ progress steps | apply R_emit; [done|done] ].

Lemma steps_queryIPNI cid timeoutMs :
  steps_within R (IpniAddonStrategy.queryIPNI env cid timeoutMs).
Proof. unfold IpniAddonStrategy.queryIPNI. steps_R. Qed.

Lemma steps_verifySingleCID cid expected :
  steps_within R (IpniAddonStrategy.verifySingleCID env cid expected).
Proof.
  unfold IpniAddonStrategy.verifySingleCID.
  apply steps_try_catch; [apply _| |intros ?; steps_R].
  apply steps_bind; [apply _|apply steps_queryIPNI|intros addrs]. steps_R.
Qed.

Lemma steps_verifyRootCID_loop todo retry maxRetries rootCID expected maxDurationMs startTime :
  steps_within R (IpniAddonStrategy.verifyRootCID_loop env todo retry maxRetries
                    rootCID expected maxDurationMs startTime).
Proof.
  revert retry. induction todo as [|todo IH]; intros retry; simpl; [steps_R|].
  apply steps_bind; [apply _|steps_R|intros now].
  destruct (_ >? _)%Z; [steps_R|].
  apply steps_bind; [apply _|apply steps_verifySingleCID|intros result].
  destruct (SingleCIDVerificationResult.verified result); [steps_R|].
  destruct (retry <? _); [|steps_R].
  apply steps_bind; [apply _|steps_R|intros _].
  apply steps_bind; [apply _|steps_R|intros _]. apply IH.
Qed.

Lemma steps_verifyBlockCIDs_loop blockCIDs expected maxDurationMs startTime verified failed :
  steps_within R (IpniAddonStrategy.verifyBlockCIDs_loop env blockCIDs expected
                    maxDurationMs startTime verified failed).
Proof.
  revert verified failed.
  induction blockCIDs as [|cid rest IH]; intros verified failed; simpl; [steps_R|].
  apply steps_bind; [apply _|steps_R|intros now].
  destruct (_ >? _)%Z; [steps_R|].
  apply steps_bind; [apply _|apply steps_verifySingleCID|intros result].
  destruct (SingleCIDVerificationResult.verified result); apply IH.
Qed.

Lemma steps_verifyIPNIAdvertisement rootCID blockCIDs expected maxDurationMs :
  steps_within R (IpniAddonStrategy.verifyIPNIAdvertisement env rootCID blockCIDs
                    expected maxDurationMs).
Proof.
  unfold IpniAddonStrategy.verifyIPNIAdvertisement,
    IpniAddonStrategy.verifyRootCID, IpniAddonStrategy.verifyBlockCIDs.
  apply steps_bind; [apply _|steps_R|intros startTime].
  apply steps_bind; [apply _| |intros rootCIDResult].
  { apply steps_bind; [apply _|steps_R|intros _]. apply steps_verifyRootCID_loop. }
  apply steps_bind; [apply _| |intros [n failed]].
  { destruct (RootCIDVerificationResult.verified rootCIDResult); [|steps_R].
    apply steps_bind; [apply _| |steps_R].
    apply steps_bind; [apply _|steps_R|intros _]. apply steps_verifyBlockCIDs_loop. }
  steps_R.
Qed.

Lemma steps_poll_once pieceCid startTime lastStatus checkCount :
  steps_within R (IpniAddonStrategy.poll_once env pieceCid startTime lastStatus checkCount).
Proof. unfold IpniAddonStrategy.poll_once. steps_R. Qed.

Lemma steps_poll_round pieceCid startTime lastStatus checkCount :
  steps_within R (IpniAddonStrategy.poll_round env pieceCid startTime lastStatus checkCount).
Proof.
  unfold IpniAddonStrategy.poll_round.
  apply steps_try_catch; [apply _|apply steps_poll_once|intros ?; steps_R].
Qed.

Lemma steps_monitorPieceStatus_loop rounds pieceCid maxDurationMs pollIntervalMs
    startTime lastStatus checkCount :
  steps_within R (IpniAddonStrategy.monitorPieceStatus_loop env rounds pieceCid
                    maxDurationMs pollIntervalMs startTime lastStatus checkCount).
Proof.
  revert lastStatus checkCount.
  induction rounds as [|rounds IH]; intros lastStatus checkCount;
    cbn [IpniAddonStrategy.monitorPieceStatus_loop].
  - unfold IpniAddonStrategy.timeout_exit. steps_R.
  - apply steps_bind; [apply _|steps_R|intros now].
    destruct (_ <? _)%Z; [|unfold IpniAddonStrategy.timeout_exit; steps_R].
    apply steps_bind; [apply _|apply steps_poll_round|intros [result|status]]; [steps_R|].
    apply steps_bind; [apply _|steps_R|intros _]. apply IH.
Qed.

Lemma steps_monitorAndVerifyIPNI pieceCid blockCIDs rootCID expected
    statusTimeoutMs ipniTimeoutMs pollIntervalMs :
  steps_within R (IpniAddonStrategy.monitorAndVerifyIPNI env pieceCid blockCIDs rootCID
                    expected statusTimeoutMs ipniTimeoutMs pollIntervalMs).
Proof.
  unfold IpniAddonStrategy.monitorAndVerifyIPNI, IpniAddonStrategy.monitorPieceStatus.
  apply steps_bind; [apply _| |intros monitoringResult].
  { apply steps_try_catch; [apply _| |intros ?; steps_R].
    apply steps_bind; [apply _|steps_R|intros startTime].
    apply steps_monitorPieceStatus_loop. }
  apply steps_bind; [apply _|steps_R|intros _].
  apply steps_bind; [apply _|apply steps_verifyIPNIAdvertisement|steps_R].
Qed.

(** [R] is also kept by the writes to the verification state. *)
Hypothesis R_set_deal : ∀ field v,
  field ∈ ipni_fields → steps_within R (set_deal field v).

Ltac steps_W :=
  repeat first [ progress steps_R | apply R_set_deal; solve [repeat constructor] ].

Lemma steps_dealRepository_save : steps_within R (dealRepository_save env).
Proof. unfold dealRepository_save. steps_W. Qed.

Local Hint Resolve steps_dealRepository_save : steps.

Lemma steps_time_since a b : steps_within R (IpniAddonStrategy.time_since a b).
Proof. unfold IpniAddonStrategy.time_since. steps_W. Qed.

Local Hint Resolve steps_time_since : steps.

Lemma steps_updateDealWithIpniMetrics result :
  steps_within R (IpniAddonStrategy.updateDealWithIpniMetrics env result).
Proof.
  unfold IpniAddonStrategy.updateDealWithIpniMetrics, IpniAddonStrategy.uploadEndTime_or.
  steps_W.
Qed.

Lemma steps_startIpniMonitoring : steps_within R (IpniAddonStrategy.startIpniMonitoring env).
Proof.
  unfold IpniAddonStrategy.startIpniMonitoring.
  apply steps_try_catch; [apply _| |intros ?; steps_W].
  apply steps_bind; [apply _|steps_W|intros storageProvider].
  apply steps_bind; [apply _|steps_W|intros serviceUrl].
  apply steps_bind; [apply _|steps_W|intros _].
  apply steps_bind; [apply _| |intros expected].
  { unfold IpniAddonStrategy.serviceURLToMultiaddr. steps_W. }
  apply steps_bind; [apply _|steps_W|intros pieceCid].
  apply steps_bind; [apply _|steps_W|intros metadata].
  apply steps_bind; [apply _| |intros [blockCIDs rootCID]].
  { unfold IpniAddonStrategy.ipni_metadata_of. steps_W. }
  apply steps_bind; [apply _|apply steps_monitorAndVerifyIPNI|intros result].
  apply steps_updateDealWithIpniMetrics.
Qed.

Lemma steps_detached_monitoring :
  steps_within R (IpniAddonStrategy.detached_monitoring env).
Proof.
  unfold IpniAddonStrategy.detached_monitoring.
  apply steps_try_catch; [apply _|apply steps_startIpniMonitoring|intros ?; steps_W].
Qed.

Lemma steps_onUploadComplete : steps_within R (IpniAddonStrategy.onUploadComplete env).
Proof. unfold IpniAddonStrategy.onUploadComplete. steps_W. Qed.
End MonitorFrame.

(** The monitor writes nothing but the verification state of the Deal. *)
Lemma monitor_writes_only_ipni_fields env :
  steps_within (writes_only (.∈ ipni_fields)) (IpniAddonStrategy.detached_monitoring env).
Proof.
  apply steps_detached_monitoring; try apply _.
  - intros e. apply writes_emit.
  - intros ms _. apply writes_advance.
  - intros A f. apply writes_outside.
  - intros field v. apply (writes_set_deal (.∈ ipni_fields)).
Qed.

Lemma onUploadComplete_writes_only_ipni_fields env :
  steps_within (writes_only (.∈ ipni_fields)) (IpniAddonStrategy.onUploadComplete env).
Proof.
  apply steps_onUploadComplete; try apply _.
  - intros e. apply writes_emit.
  - intros A f. apply writes_outside.
  - intros field v. apply (writes_set_deal (.∈ ipni_fields)).
Qed.

Lemma writes_only_preserved (F : string → Prop) {A} (m : M A) (field : string) (w : World.t) :
  steps_within (writes_only F) m → ¬ F field →
  World.deal (m w).2 !! field = World.deal w !! field.
Proof. intros Hm HF. destruct (Hm w) as (_ & _ & _ & _ & Hd). by apply Hd. Qed.

(** ** Deriving the verification status *)

Lemma run_bind {A B} (m : M A) (k : A → M B) (w : World.t) :
  (m ≫= k) w = match m w with
               | (Ok a, w') => k a w'
               | (Err e, w') => (Err e, w')
               end.
Proof. reflexivity. Qed.

Lemma updateDealWithIpniMetrics_status env result w :
  let finalStatus :=
    PieceMonitoringResult.finalStatus (MonitorAndVerifyResult.monitoringResult result) in
  let rootVerified :=
    IPNIVerificationResult.rootCIDVerified (MonitorAndVerifyResult.ipniResult result) in
  let derived :=
    if rootVerified then VERIFIED
    else if PieceStatus.retrieved finalStatus then SP_RECEIVED_RETRIEVE_REQUEST
    else if PieceStatus.advertised finalStatus then SP_ADVERTISED
    else if PieceStatus.indexed finalStatus then SP_INDEXED
    else IPNI_FAILED in
  World.deal (IpniAddonStrategy.updateDealWithIpniMetrics env result w).2 !! "ipniStatus"
  = Some (VIpni derived)
  ∧ derived = highest_stage (stages_reached rootVerified
                               (PieceStatus.retrieved finalStatus)
                               (PieceStatus.advertised finalStatus)
                               (PieceStatus.indexed finalStatus)).
Proof.
  intros finalStatus rootVerified derived. split.
  - unfold IpniAddonStrategy.updateDealWithIpniMetrics.
    rewrite run_bind. cbn [Date_now].
    rewrite run_bind. unfold IpniAddonStrategy.uploadEndTime_or at 1.
    rewrite run_bind. cbn [get_field mret M_ret].
    rewrite run_bind.
    fold finalStatus rootVerified.
    set (status_written := if rootVerified then _ else _).
    assert (∃ w1, status_written w = (Ok tt, w1)
                  ∧ World.deal w1 !! "ipniStatus" = Some (VIpni derived)) as (w1 & -> & <-).
    { subst status_written derived.
      destruct rootVerified, (PieceStatus.retrieved finalStatus),
        (PieceStatus.advertised finalStatus), (PieceStatus.indexed finalStatus);
        (eexists; split; [reflexivity|apply lookup_insert_eq]). }
    apply (writes_only_preserved (.∈ tail ipni_fields)).
    + apply steps_bind; [apply _|steps|intros ?].
      repeat (apply steps_bind; [apply _| |intros ?]);
        repeat first [ progress steps
                     | apply steps_time_since; try apply _
                     | apply (writes_set_deal (.∈ tail ipni_fields)); solve [repeat constructor] ].
    + unfold ipni_fields. simpl. set_solver.
  - subst derived.
    by destruct rootVerified, (PieceStatus.retrieved finalStatus),
      (PieceStatus.advertised finalStatus), (PieceStatus.indexed finalStatus).
Qed.

(** ** Phase 3: the lookups the monitor makes *)

(** Runs the binds at the head of a computation applied to a world. *)
Ltac mrun :=
  repeat first
    [ rewrite run_bind
    | progress unfold sleep, logger
    | progress cbn [Date_now logger emit sleep advance outside mret M_ret throw lift
                    get_field get_deal set_deal dealRepository_create
                    World.now World.calls World.deal World.trace fst snd] ].

Section Lookups.
Variable env : Env.t.

Lemma verifySingleCID_run cid expected w :
  ∃ result,
    IpniAddonStrategy.verifySingleCID env cid expected w
    = (Ok result,
       World.mk (World.now w + Z.of_nat (Env.latency env (World.calls w)))
                (S (World.calls w)) (World.deal w)
                (World.trace w ++ [(World.now w, EvQueryIPNI cid)])).
Proof.
  unfold IpniAddonStrategy.verifySingleCID, IpniAddonStrategy.queryIPNI, try_catch.
  mrun.
  destruct (Env.httpsGet env _ _ _ _) as [response|message]; mrun; [|by eexists].
  destruct (length _ =? 0); [by eexists|].
  destruct (negb _); by eexists.
Qed.

Lemma schedule_app events1 events2 :
  schedule (events1 ++ events2) = schedule events1 ++ schedule events2.
Proof. apply omap_app. Qed.

Lemma in_time_nil startTime maxDurationMs : in_time startTime maxDurationMs [].
Proof. by intros t cid ?%elem_of_nil. Qed.

Lemma in_time_other startTime maxDurationMs t e :
  (∀ cid, e ≠ EvQueryIPNI cid) → in_time startTime maxDurationMs [(t, e)].
Proof. intros He t' cid [= _ Hcid]%list_elem_of_singleton. by destruct (He cid). Qed.

Lemma in_time_app startTime maxDurationMs events1 events2 :
  in_time startTime maxDurationMs events1 → in_time startTime maxDurationMs events2 →
  in_time startTime maxDurationMs (events1 ++ events2).
Proof. intros H1 H2 t cid [?|?]%elem_of_app; eauto. Qed.

Lemma verifyRootCID_loop_run todo retry maxRetries rootCID expected maxDurationMs startTime w :
  maxRetries = todo + retry →
  ∃ result events w' n,
    IpniAddonStrategy.verifyRootCID_loop env todo retry maxRetries rootCID expected
                                         maxDurationMs startTime w
    = (Ok result, w')
    ∧ World.trace w' = World.trace w ++ events
    ∧ schedule events
      = take n (retry_schedule todo rootCID
                  IpniAddonStrategy.IPNI_VERIFICATION_RETRY_INTERVAL_MS)
    ∧ in_time startTime maxDurationMs events
    ∧ (RootCIDVerificationResult.verified result = true →
       last (schedule events) = Some (inl rootCID)).
Proof.
  revert retry w. induction todo as [|todo IH]; intros retry w ->;
    cbn [IpniAddonStrategy.verifyRootCID_loop].
  { eexists _, [], _, 0. mrun. rewrite app_nil_r.
    split_and!; try done. apply in_time_nil. }
  mrun. destruct (_ >? _)%Z eqn:Helapsed.
  { eexists _, [_], _, 0. mrun. split_and!; try done. by apply in_time_other. }
  destruct (verifySingleCID_run rootCID expected w) as [single Hsingle].
  mrun. rewrite Hsingle.
  destruct (SingleCIDVerificationResult.verified single).
  { eexists _, [_; _], _, 1. mrun.
    rewrite <- app_assoc. split_and!; try done.
    - by destruct todo.
    - intros t cid [[= -> _]|[=]%list_elem_of_singleton]%elem_of_cons. lia. }
  destruct (retry <? S todo + retry - 1) eqn:Hretry.
  - apply Nat.ltb_lt in Hretry. destruct todo as [|todo']; [lia|].
    mrun.
    match goal with
    | |- context [IpniAddonStrategy.verifyRootCID_loop env _ _ _ _ _ _ _ ?w1] =>
        destruct (IH (S retry) w1) as (result & events & w' & n & Hrun & Htrace & Hsched
                                       & Htime & Hverified); [lia|]
    end.
    rewrite Hrun. eexists result, ([_; _; _] ++ events), w', (S (S n)).
    split; [done|]. split; [rewrite Htrace; cbn [World.trace]; by rewrite <- !app_assoc|].
    rewrite schedule_app, Hsched. split; [done|].
    split.
    + apply in_time_app; [|done].
      intros t cid [[= -> _]|[[=]|[=]%list_elem_of_singleton]%elem_of_cons]%elem_of_cons.
      lia.
    + intros Hlast%Hverified. rewrite Hsched in Hlast. cbn [schedule omap app].
      cbn. destruct (take n _) as [|x l]; [done|]. by rewrite !last_cons_cons.
  - apply Nat.ltb_ge in Hretry. assert (todo = 0) as -> by lia.
    eexists _, [_], _, 1. mrun. split_and!; try done.
    intros t cid [= -> _]%list_elem_of_singleton. lia.
Qed.

Lemma verifyBlockCIDs_loop_run blockCIDs expected maxDurationMs startTime verified failed w :
  ∃ result events w' m,
    IpniAddonStrategy.verifyBlockCIDs_loop env blockCIDs expected maxDurationMs
                                           startTime verified failed w
    = (Ok result, w')
    ∧ World.trace w' = World.trace w ++ events
    ∧ schedule events = inl <$> take m blockCIDs
    ∧ in_time startTime maxDurationMs events
    ∧ BlockCIDsVerificationResult.verified result
      + length (BlockCIDsVerificationResult.failed result)
      = verified + length failed + m
    ∧ m ≤ length blockCIDs.
Proof.
  revert verified failed w.
  induction blockCIDs as [|cid rest IH]; intros verified failed w;
    cbn [IpniAddonStrategy.verifyBlockCIDs_loop].
  { eexists _, [], _, 0. mrun. rewrite app_nil_r.
    split_and!; first [done|apply in_time_nil|simpl; lia]. }
  mrun. destruct (_ >? _)%Z eqn:Helapsed.
  { eexists _, [_], _, 0. mrun.
    split_and!; first [done|by apply in_time_other|simpl; lia]. }
  destruct (verifySingleCID_run cid expected w) as [single Hsingle].
  mrun. rewrite Hsingle.
  assert (in_time startTime maxDurationMs [(World.now w, EvQueryIPNI cid)]) as Hquery.
  { intros t c [= -> _]%list_elem_of_singleton. lia. }
  destruct (SingleCIDVerificationResult.verified single);
    match goal with
    | |- context [IpniAddonStrategy.verifyBlockCIDs_loop env _ _ _ _ ?v ?f ?w1] =>
        destruct (IH v f w1) as (result & events & w' & m & Hrun & Htrace & Hsched
                                 & Htime & Hcount & Hm)
    end;
    rewrite Hrun; eexists result, ([_] ++ events), w', (S m);
    (split; [done|]);
    (split; [rewrite Htrace; cbn [World.trace]; by rewrite <- app_assoc|]);
    rewrite schedule_app, Hsched;
    (split; [done|]);
    (split; [by apply in_time_app|]);
    rewrite ?length_app in Hcount; simpl in *; lia.
Qed.

Lemma verifyIPNIAdvertisement_run rootCID blockCIDs expected maxDurationMs w :
  ∃ result events w' n m,
    IpniAddonStrategy.verifyIPNIAdvertisement env rootCID blockCIDs expected
                                              maxDurationMs w
    = (Ok result, w')
    ∧ World.trace w' = World.trace w ++ events
    ∧ schedule events
      = take n (retry_schedule 5 rootCID 10000) ++ (inl <$> take m blockCIDs)
    ∧ (IPNIVerificationResult.rootCIDVerified result = false → m = 0)
    ∧ (IPNIVerificationResult.rootCIDVerified result = true →
       last (take n (retry_schedule 5 rootCID 10000)) = Some (inl rootCID))
    ∧ in_time (World.now w) maxDurationMs events
    ∧ IPNIVerificationResult.total result = length blockCIDs + 1
    ∧ IPNIVerificationResult.verified result + IPNIVerificationResult.unverified result
      = IPNIVerificationResult.total result.
Proof.
  unfold IpniAddonStrategy.verifyIPNIAdvertisement, IpniAddonStrategy.verifyRootCID.
  mrun.
  match goal with
  | |- context [IpniAddonStrategy.verifyRootCID_loop env _ _ _ _ _ _ _ ?w1] =>
      destruct (verifyRootCID_loop_run 5 0 5 rootCID expected maxDurationMs
                  (World.now w) w1 eq_refl)
        as (root & events1 & w1' & n & Hrun1 & Htrace1 & Hsched1 & Htime1 & Hlast)
  end.
  rewrite Hrun1. cbn [World.trace] in Htrace1.
  change IpniAddonStrategy.IPNI_VERIFICATION_RETRY_INTERVAL_MS with 10000%Z in Hsched1.
  destruct (RootCIDVerificationResult.verified root) eqn:Hroot.
  - unfold IpniAddonStrategy.verifyBlockCIDs. mrun.
    match goal with
    | |- context [IpniAddonStrategy.verifyBlockCIDs_loop env _ _ _ _ _ _ ?w2] =>
        destruct (verifyBlockCIDs_loop_run blockCIDs expected maxDurationMs
                    (World.now w) 0 [] w2)
          as (blocks & events2 & w2' & m & Hrun2 & Htrace2 & Hsched2 & Htime2
              & Hcount & Hm)
    end.
    rewrite Hrun2. cbn [World.trace] in Htrace2. mrun.
    destruct (0 <? _); mrun;
      eexists _, (([_] ++ events1) ++ [_] ++ events2 ++ [_]), _, n, m;
      (split; [reflexivity|]); cbn [World.trace];
      (split; [rewrite Htrace2, Htrace1; by rewrite <- !app_assoc|]);
      rewrite !schedule_app, Hsched1, Hsched2.
    all: cbn [IPNIVerificationResult.rootCIDVerified].
    all: split; [by rewrite app_nil_r|].
    all: split; [done|]. 
    all: split; [by rewrite <- Hsched1; auto|].
    all: split; [repeat apply in_time_app; try done; by apply in_time_other|].
    all: cbn [IPNIVerificationResult.total IPNIVerificationResult.verified
              IPNIVerificationResult.unverified].
    all: simpl in Hcount; split; lia.
  - mrun.
    destruct (0 <? _); mrun;
      eexists _, (([_] ++ events1) ++ [_]), _, n, 0;
      (split; [reflexivity|]); cbn [World.trace];
      (split; [rewrite Htrace1; by rewrite <- !app_assoc|]);
      rewrite !schedule_app, Hsched1.
    all: cbn [IPNIVerificationResult.rootCIDVerified].
    all: split; [by rewrite !app_nil_r|].
    all: split; [done|]. 
    all: split; [done|].
    all: split; [repeat apply in_time_app; try done; by apply in_time_other|].
    all: cbn [IPNIVerificationResult.total IPNIVerificationResult.verified
              IPNIVerificationResult.unverified].
    all: split; lia.
Qed.

Lemma verifySingleCID_listed cid expected w :
  ∃ result,
    IpniAddonStrategy.verifySingleCID env cid expected w
    = (Ok result,
       World.mk (World.now w + Z.of_nat (Env.latency env (World.calls w)))
                (S (World.calls w)) (World.deal w)
                (World.trace w ++ [(World.now w, EvQueryIPNI cid)]))
    ∧ SingleCIDVerificationResult.verified result
      = listed env (World.calls w) cid expected.
Proof.
  unfold IpniAddonStrategy.verifySingleCID, IpniAddonStrategy.queryIPNI, try_catch, listed.
  mrun.
  destruct (Env.httpsGet env _ _ _ _) as [response|message]; mrun; [|by eexists].
  destruct (length _ =? 0) eqn:Hlength.
  { eexists. split; [done|]. apply Nat.eqb_eq, length_zero_iff_nil in Hlength.
    rewrite Hlength. cbn. rewrite bool_decide_eq_false_2; [done|]. apply not_elem_of_nil. }
  destruct (bool_decide _); by eexists.
Qed.

Lemma retry_schedule_length todo cid interval :
  length (retry_schedule todo cid interval) = 2 * todo - 1.
Proof.
  induction todo as [|[|todo] IH]; [done..|].
  change (retry_schedule (S (S todo)) cid interval)
    with (inl cid :: inr interval :: retry_schedule (S todo) cid interval).
  cbn [length]. rewrite IH. lia.
Qed.

(** The root lookups with their verdicts: a lookup followed by a timer did
    not find the provider, the loop ends verified exactly on a lookup that
    finds it, and it ends unverified only after the last attempt or out of
    time. *)
Lemma verifyRootCID_loop_verdicts todo retry maxRetries rootCID expected maxDurationMs
    startTime w :
  maxRetries = todo + retry →
  ∃ result events w' n,
    IpniAddonStrategy.verifyRootCID_loop env todo retry maxRetries rootCID expected
                                         maxDurationMs startTime w
    = (Ok result, w')
    ∧ World.trace w' = World.trace w ++ events
    ∧ schedule events
      = take n (retry_schedule todo rootCID
                  IpniAddonStrategy.IPNI_VERIFICATION_RETRY_INTERVAL_MS)
    ∧ in_time startTime maxDurationMs events
    ∧ n ≤ 2 * todo - 1
    ∧ World.calls w' = World.calls w + (n + 1) / 2
    ∧ (World.now w ≤ World.now w')%Z
    ∧ (∀ i, 2 * i + 1 < n → listed env (World.calls w + i) rootCID expected = false)
    ∧ (RootCIDVerificationResult.verified result = true ↔
       Nat.odd n = true ∧ listed env (World.calls w + n / 2) rootCID expected = true)
    ∧ (RootCIDVerificationResult.verified result = false →
       n = 2 * todo - 1 ∨ (maxDurationMs < World.now w' - startTime)%Z).
Proof.
  revert retry w. induction todo as [|todo IH]; intros retry w ->;
    cbn [IpniAddonStrategy.verifyRootCID_loop].
  { eexists _, [], _, 0. mrun. rewrite app_nil_r.
    split; [done|]. split; [done|]. split; [done|]. split; [apply in_time_nil|].
    split; [lia|]. split; [done|]. split; [lia|]. split; [intros i ?; lia|].
    split; [|by left]. cbn. split; [done|]. by intros [[=] _]. }
  mrun. destruct (_ >? _)%Z eqn:Helapsed.
  { eexists _, [_], _, 0. mrun.
    split; [done|]. split; [done|]. split; [done|]. split; [by apply in_time_other|].
    split; [lia|]. split; [done|]. split; [simpl; lia|]. split; [intros i ?; lia|].
    split; [cbn; split; [done|]; by intros [[=] _]|].
    intros _. right. simpl. lia. }
  destruct (verifySingleCID_listed rootCID expected w) as (single & Hsingle & Hlisted).
  mrun. rewrite Hsingle.
  assert (Hquery : in_time startTime maxDurationMs [(World.now w, EvQueryIPNI rootCID)]).
  { intros t cid [= -> _]%list_elem_of_singleton. lia. }
  destruct (SingleCIDVerificationResult.verified single) eqn:Hverified.
  { eexists _, [_; _], _, 1. mrun.
    rewrite <- app_assoc.
    split; [done|]. split; [done|]. split; [by destruct todo|].
    split.
    { intros t cid [[= -> _]|[=]%list_elem_of_singleton]%elem_of_cons. lia. }
    split; [lia|].
    split; [cbn [World.calls]; change ((1 + 1) / 2) with 1; lia|].
    split; [simpl; lia|]. split; [intros i ?; lia|].
    split; [|done].
    cbn [RootCIDVerificationResult.verified]. split; [intros _|done]. split; [done|].
    change (1 / 2) with 0. by rewrite Nat.add_0_r, <- Hlisted. }
  destruct (retry <? S todo + retry - 1) eqn:Hretry.
  - apply Nat.ltb_lt in Hretry. destruct todo as [|todo']; [lia|].
    mrun.
    match goal with
    | |- context [IpniAddonStrategy.verifyRootCID_loop env _ _ _ _ _ _ _ ?w1] =>
        destruct (IH (S retry) w1) as (result & events & w' & n & Hrun & Htrace & Hsched
                                       & Htime & Hn & Hcalls & Hclock & Hfailed
                                       & Hlast & Hstop); [lia|]
    end.
    cbn [World.calls World.now] in Hcalls, Hclock, Hfailed, Hlast.
    rewrite Hrun. eexists result, ([_; _; _] ++ events), w', (S (S n)).
    split; [done|]. split; [rewrite Htrace; cbn [World.trace]; by rewrite <- !app_assoc|].
    rewrite schedule_app, Hsched. split; [done|].
    split.
    { apply in_time_app; [|done].
      intros t cid [[= -> _]|[[=]|[=]%list_elem_of_singleton]%elem_of_cons]%elem_of_cons.
      lia. }
    assert (Hhalf : (S (S n) + 1) / 2 = S ((n + 1) / 2)).
    { replace (S (S n) + 1) with ((n + 1) + 1 * 2) by lia. rewrite Nat.div_add by done. lia. }
    assert (Hhalf' : S (S n) / 2 = S (n / 2)).
    { replace (S (S n)) with (n + 1 * 2) by lia. rewrite Nat.div_add by done. lia. }
    split; [lia|]. split; [rewrite Hcalls, Hhalf; lia|].
    split.
    { unfold timer_delay in Hclock.
      pose proof (Nat2Z.is_nonneg (Env.latency env (World.calls w))).
      change IpniAddonStrategy.IPNI_VERIFICATION_RETRY_INTERVAL_MS with 10000%Z in Hclock.
      simpl in Hclock. lia. }
    split.
    { intros [|i] Hi.
      - by rewrite Nat.add_0_r, <- Hlisted.
      - replace (World.calls w + S i) with (S (World.calls w) + i) by lia.
        apply Hfailed. lia. }
    split.
    { rewrite Hlast, Hhalf'. cbn [Nat.odd].
      by replace (World.calls w + S (n / 2)) with (S (World.calls w) + n / 2) by lia. }
    intros Hunverified. destruct (Hstop Hunverified) as [-> | Hlate]; [left; lia|by right].
  - apply Nat.ltb_ge in Hretry. assert (todo = 0) as -> by lia.
    eexists _, [_], _, 1. mrun.
    split; [done|]. split; [done|]. split; [done|]. split; [exact Hquery|].
    split; [lia|].
    split; [cbn [World.calls]; change ((1 + 1) / 2) with 1; lia|].
    split; [simpl; lia|]. split; [intros i ?; lia|].
    split; [|by left].
    cbn [RootCIDVerificationResult.verified]. split; [done|].
    change (1 / 2) with 0. rewrite Nat.add_0_r, <- Hlisted. by intros [_ [=]].
Qed.

(** The block lookups with their verdicts: one lookup each, counted as
    verified when it finds the provider, up to the end of the list unless
    time runs out. *)
Lemma verifyBlockCIDs_loop_verdicts blockCIDs expected maxDurationMs startTime verified
    failed w :
  ∃ result events w' m,
    IpniAddonStrategy.verifyBlockCIDs_loop env blockCIDs expected maxDurationMs
                                           startTime verified failed w
    = (Ok result, w')
    ∧ World.trace w' = World.trace w ++ events
    ∧ schedule events = inl <$> take m blockCIDs
    ∧ in_time startTime maxDurationMs events
    ∧ BlockCIDsVerificationResult.verified result
      + length (BlockCIDsVerificationResult.failed result)
      = verified + length failed + m
    ∧ m ≤ length blockCIDs
    ∧ (World.now w ≤ World.now w')%Z
    ∧ BlockCIDsVerificationResult.verified result
      = verified + listed_count env (World.calls w) (take m blockCIDs) expected
    ∧ (m = length blockCIDs ∨ (maxDurationMs < World.now w' - startTime)%Z).
Proof.
  revert verified failed w.
  induction blockCIDs as [|cid rest IH]; intros verified failed w;
    cbn [IpniAddonStrategy.verifyBlockCIDs_loop].
  { eexists _, [], _, 0. mrun. rewrite app_nil_r.
    split_and!; first [done|apply in_time_nil|simpl; lia|by left]. }
  mrun. destruct (_ >? _)%Z eqn:Helapsed.
  { eexists _, [_], _, 0. mrun.
    split_and!; first [done|by apply in_time_other|simpl; lia]. }
  destruct (verifySingleCID_listed cid expected w) as (single & Hsingle & Hlisted).
  mrun. rewrite Hsingle.
  assert (in_time startTime maxDurationMs [(World.now w, EvQueryIPNI cid)]) as Hquery.
  { intros t c [= -> _]%list_elem_of_singleton. lia. }
  pose proof (Nat2Z.is_nonneg (Env.latency env (World.calls w))) as Hlatency.
  destruct (SingleCIDVerificationResult.verified single);
    match goal with
    | |- context [IpniAddonStrategy.verifyBlockCIDs_loop env _ _ _ _ ?v ?f ?w1] =>
        destruct (IH v f w1) as (result & events & w' & m & Hrun & Htrace & Hsched
                                 & Htime & Hcount & Hm & Hclock & Hverified & Hstop)
    end;
    cbn [World.calls World.now] in Hclock, Hverified;
    rewrite Hrun; eexists result, ([_] ++ events), w', (S m);
    (split; [done|]);
    (split; [rewrite Htrace; cbn [World.trace]; by rewrite <- app_assoc|]);
    rewrite schedule_app, Hsched;
    (split; [done|]);
    (split; [by apply in_time_app|]);
    rewrite ?length_app in Hcount;
    (split; [simpl in *; lia|]);
    (split; [simpl; lia|]);
    (split; [lia|]);
    (split; [cbn [take listed_count]; rewrite <- Hlisted, Hverified; lia|]);
    (destruct Hstop as [-> | Hlate]; [by left|by right]).
Qed.

Lemma verifyIPNIAdvertisement_verdicts rootCID blockCIDs expected maxDurationMs w :
  ∃ result events w' n m,
    IpniAddonStrategy.verifyIPNIAdvertisement env rootCID blockCIDs expected
                                              maxDurationMs w
    = (Ok result, w')
    ∧ World.trace w' = World.trace w ++ events
    ∧ schedule events
      = take n (retry_schedule 5 rootCID 10000) ++ (inl <$> take m blockCIDs)
    ∧ (IPNIVerificationResult.rootCIDVerified result = false → m = 0)
    ∧ (IPNIVerificationResult.rootCIDVerified result = true →
       last (take n (retry_schedule 5 rootCID 10000)) = Some (inl rootCID))
    ∧ in_time (World.now w) maxDurationMs events
    ∧ IPNIVerificationResult.total result = length blockCIDs + 1
    ∧ IPNIVerificationResult.verified result + IPNIVerificationResult.unverified result
      = IPNIVerificationResult.total result
    ∧ n ≤ 9
    ∧ m ≤ length blockCIDs
    ∧ (∀ i, 2 * i + 1 < n → listed env (World.calls w + i) rootCID expected = false)
    ∧ (IPNIVerificationResult.rootCIDVerified result = true ↔
       Nat.odd n = true ∧ listed env (World.calls w + n / 2) rootCID expected = true)
    ∧ (IPNIVerificationResult.rootCIDVerified result = false →
       n = 9 ∨ (maxDurationMs < World.now w' - World.now w)%Z)
    ∧ (IPNIVerificationResult.rootCIDVerified result = true →
       m = length blockCIDs ∨ (maxDurationMs < World.now w' - World.now w)%Z)
    ∧ IPNIVerificationResult.verified result
      = (if IPNIVerificationResult.rootCIDVerified result then 1 else 0)
        + listed_count env (World.calls w + (n + 1) / 2) (take m blockCIDs) expected.
Proof.
  unfold IpniAddonStrategy.verifyIPNIAdvertisement, IpniAddonStrategy.verifyRootCID.
  mrun.
  match goal with
  | |- context [IpniAddonStrategy.verifyRootCID_loop env _ _ _ _ _ _ _ ?w1] =>
      destruct (verifyRootCID_loop_verdicts 5 0 5 rootCID expected maxDurationMs
                  (World.now w) w1 eq_refl)
        as (root & events1 & w1' & n & Hrun1 & Htrace1 & Hsched1 & Htime1 & Hn
            & Hcalls1 & Hclock1 & Hfailed1 & Hlast1 & Hstop1)
  end.
  rewrite Hrun1. cbn [World.trace World.calls World.now] in *.
  change IpniAddonStrategy.IPNI_VERIFICATION_RETRY_INTERVAL_MS with 10000%Z in Hsched1.
  assert (Hlastlookup : RootCIDVerificationResult.verified root = true →
            last (take n (retry_schedule 5 rootCID 10000)) = Some (inl rootCID)).
  { intros [Hodd _]%Hlast1. clear -Hodd Hn.
    do 10 (destruct n as [|n]; [try done|]). lia. }
  destruct (RootCIDVerificationResult.verified root) eqn:Hroot.
  - unfold IpniAddonStrategy.verifyBlockCIDs. mrun.
    match goal with
    | |- context [IpniAddonStrategy.verifyBlockCIDs_loop env _ _ _ _ _ _ ?w2] =>
        destruct (verifyBlockCIDs_loop_verdicts blockCIDs expected maxDurationMs
                    (World.now w) 0 [] w2)
          as (blocks & events2 & w2' & m & Hrun2 & Htrace2 & Hsched2 & Htime2
              & Hcount & Hm & Hclock2 & Hverified2 & Hstop2)
    end.
    rewrite Hrun2. cbn [World.trace World.calls World.now] in *. mrun.
    destruct (0 <? _); mrun;
      eexists _, (([_] ++ events1) ++ [_] ++ events2 ++ [_]), _, n, m;
      (split; [reflexivity|]); cbn [World.trace World.now];
      (split; [rewrite Htrace2, Htrace1; by rewrite <- !app_assoc|]);
      rewrite !schedule_app, Hsched1, Hsched2.
    all: cbn [IPNIVerificationResult.rootCIDVerified].
    all: split; [by rewrite app_nil_r|].
    all: split; [done|].
    all: split; [auto|].
    all: split; [repeat apply in_time_app; try done; by apply in_time_other|].
    all: cbn [IPNIVerificationResult.total IPNIVerificationResult.verified
              IPNIVerificationResult.unverified].
    all: simpl in Hcount; split; [lia|].
    all: split; [lia|].
    all: split; [simpl in Hn; lia|].
    all: split; [done|].
    all: split; [done|].
    all: split; [done|].
    all: split; [done|].
    all: split; [intros _; destruct Hstop2 as [-> | Hlate]; [by left|right; lia]|].
    all: rewrite Hverified2, Hcalls1; lia.
  - mrun.
    destruct (0 <? _); mrun;
      eexists _, (([_] ++ events1) ++ [_]), _, n, 0;
      (split; [reflexivity|]); cbn [World.trace World.now];
      (split; [rewrite Htrace1; by rewrite <- !app_assoc|]);
      rewrite !schedule_app, Hsched1.
    all: cbn [IPNIVerificationResult.rootCIDVerified].
    all: split; [by rewrite !app_nil_r|].
    all: split; [done|].
    all: split; [done|].
    all: split; [repeat apply in_time_app; try done; by apply in_time_other|].
    all: cbn [IPNIVerificationResult.total IPNIVerificationResult.verified
              IPNIVerificationResult.unverified].
    all: split; [lia|].
    all: split; [lia|].
    all: split; [simpl in Hn; lia|].
    all: split; [lia|].
    all: split; [done|].
    all: split; [done|].
    all: split; [intros _; destruct (Hstop1 eq_refl) as [-> | Hlate]; [by left|by right]|].
    all: split; [done|].
    all: by rewrite take_0.
Qed.

(** C3. The lookups of Phase 3, in the order they are made, with what
    decides them. First the root identifier, at most 5 times
    ([maxRetries]) with a timer of 10 seconds between one lookup and the
    next: a lookup that does not find the expected provider address (the
    request fails, or the address is not among those returned) is followed
    by the timer and the next lookup, until a lookup finds it, the fifth has
    failed, or more than [maxDurationMs] have passed since the phase began.
    The root identifier counts as verified exactly when the last lookup
    found the address. Then, only when the root identifier verified, the
    block identifiers in their order, each looked up once and without any
    timer, a block counting as verified when its one lookup finds the
    address; the blocks are all looked up unless time runs out. No lookup
    starts once more than [maxDurationMs] have passed, and the phase always
    returns a result. *)
Theorem phase3_lookup_schedule rootCID blockCIDs expected maxDurationMs w :
  ∃ result events w' n m,
    IpniAddonStrategy.verifyIPNIAdvertisement env rootCID blockCIDs expected
                                              maxDurationMs w
    = (Ok result, w')
    ∧ World.trace w' = World.trace w ++ events
    ∧ schedule events
      = take n (retry_schedule 5 rootCID 10000) ++ (inl <$> take m blockCIDs)
    ∧ (IPNIVerificationResult.rootCIDVerified result = false → m = 0)
    ∧ (IPNIVerificationResult.rootCIDVerified result = true →
       last (take n (retry_schedule 5 rootCID 10000)) = Some (inl rootCID))
    ∧ in_time (World.now w) maxDurationMs events
    ∧ IPNIVerificationResult.total result = length blockCIDs + 1
    ∧ IPNIVerificationResult.verified result + IPNIVerificationResult.unverified result
      = IPNIVerificationResult.total result
    ∧ n ≤ 9
    ∧ m ≤ length blockCIDs
    ∧ (∀ i, 2 * i + 1 < n → listed env (World.calls w + i) rootCID expected = false)
    ∧ (IPNIVerificationResult.rootCIDVerified result = true ↔
       Nat.odd n = true ∧ listed env (World.calls w + n / 2) rootCID expected = true)
    ∧ (IPNIVerificationResult.rootCIDVerified result = false →
       n = 9 ∨ (maxDurationMs < World.now w' - World.now w)%Z)
    ∧ (IPNIVerificationResult.rootCIDVerified result = true →
       m = length blockCIDs ∨ (maxDurationMs < World.now w' - World.now w)%Z)
    ∧ IPNIVerificationResult.verified result
      = (if IPNIVerificationResult.rootCIDVerified result then 1 else 0)
        + listed_count env (World.calls w + (n + 1) / 2) (take m blockCIDs) expected.
Proof. exact (verifyIPNIAdvertisement_verdicts rootCID blockCIDs expected maxDurationMs w). Qed.
End Lookups.

(** ** Phase 1: polling, and what is left of it after a timeout *)

Section Polling.
Variable env : Env.t.

Lemma clock_poll_round pieceCid startTime lastStatus checkCount w :
  (World.now w
   ≤ World.now (IpniAddonStrategy.poll_round env pieceCid startTime lastStatus checkCount
                  w).2)%Z.
Proof.
  apply (steps_poll_round env clock_le);
    [intros; apply clock_emit|apply clock_outside].
Qed.

(** The rounds [monitorPieceStatus] gives the loop never run out before
    the clock does: with at least as many rounds as milliseconds are left,
    more rounds change nothing. *)
Lemma monitorPieceStatus_loop_rounds rounds extra pieceCid maxDurationMs pollIntervalMs
    startTime lastStatus checkCount w :
  (maxDurationMs - (World.now w - startTime) ≤ Z.of_nat rounds)%Z →
  IpniAddonStrategy.monitorPieceStatus_loop env (rounds + extra) pieceCid maxDurationMs
    pollIntervalMs startTime lastStatus checkCount w
  = IpniAddonStrategy.monitorPieceStatus_loop env rounds pieceCid maxDurationMs
      pollIntervalMs startTime lastStatus checkCount w.
Proof.
  revert lastStatus checkCount w.
  induction rounds as [|rounds IH]; intros lastStatus checkCount w Hleft.
  - destruct extra as [|extra]; [done|].
    cbn [plus IpniAddonStrategy.monitorPieceStatus_loop]. mrun.
    destruct (Z.ltb_spec (World.now w - startTime) maxDurationMs); [lia|done].
  - cbn [plus IpniAddonStrategy.monitorPieceStatus_loop]. mrun.
    destruct (Z.ltb_spec (World.now w - startTime) maxDurationMs); [|done]. mrun.
    pose proof (clock_poll_round pieceCid startTime lastStatus (S checkCount) w) as Hclock.
    destruct (IpniAddonStrategy.poll_round _ _ _ _ _ w)
      as [[[result|status]|message] w1]; [done| |done].
    mrun. apply IH. cbn [World.now]. simpl in Hclock.
    pose proof (timer_delay_pos pollIntervalMs). lia.
Qed.

(** Polling ends in an error only by running out of time. *)
Lemma monitorPieceStatus_loop_Err rounds pieceCid maxDurationMs pollIntervalMs
    startTime lastStatus checkCount w message w' :
  IpniAddonStrategy.monitorPieceStatus_loop env rounds pieceCid maxDurationMs
    pollIntervalMs startTime lastStatus checkCount w = (Err message, w') →
  message = IpniAddonStrategy.timeout_error.
Proof.
  revert lastStatus checkCount w.
  induction rounds as [|rounds IH]; intros lastStatus checkCount w;
    cbn [IpniAddonStrategy.monitorPieceStatus_loop]; mrun.
  - unfold IpniAddonStrategy.timeout_exit.
    destruct (_ <? _)%Z; mrun; by intros [= <- _].
  - unfold IpniAddonStrategy.timeout_exit.
    destruct (_ <? _)%Z; mrun; [|by intros [= <- _]].
    destruct (IpniAddonStrategy.poll_round _ _ _ _ _ w)
      as [[[result|status]|e] w1] eqn:Hstep; mrun.
    + done.
    + apply IH.
    + exfalso. revert Hstep. unfold IpniAddonStrategy.poll_round, try_catch.
      destruct (IpniAddonStrategy.poll_once _ _ _ _ _ w) as [[?|?] ?]; [done|].
      destruct (_ =? _); mrun; done.
Qed.

Lemma monitorAndVerifyIPNI_after_timeout pieceCid blockCIDs rootCID expected
    statusTimeoutMs ipniTimeoutMs pollIntervalMs w message w1 :
  IpniAddonStrategy.monitorPieceStatus env pieceCid statusTimeoutMs pollIntervalMs w
  = (Err message, w1) →
  ∃ ipniResult w',
    IpniAddonStrategy.monitorAndVerifyIPNI env pieceCid blockCIDs rootCID expected
      statusTimeoutMs ipniTimeoutMs pollIntervalMs w
    = (Ok (MonitorAndVerifyResult.mk (placeholder statusTimeoutMs) ipniResult), w')
    ∧ IpniAddonStrategy.verifyIPNIAdvertisement env rootCID blockCIDs expected ipniTimeoutMs
        (World.mk (World.now w1) (World.calls w1) (World.deal w1)
           (World.trace w1
            ++ [(World.now w1,
                 EvLog WARN ("Piece status monitoring incomplete: " +:+ message))]))
      = (Ok ipniResult, w')
    ∧ ∀ w2,
        World.deal (IpniAddonStrategy.updateDealWithIpniMetrics env
                      (MonitorAndVerifyResult.mk (placeholder statusTimeoutMs) ipniResult)
                      w2).2 !! "ipniStatus"
        = Some (VIpni (if IPNIVerificationResult.rootCIDVerified ipniResult
                       then VERIFIED else IPNI_FAILED)).
Proof.
  intros Htimeout. unfold IpniAddonStrategy.monitorAndVerifyIPNI.
  rewrite run_bind. unfold try_catch at 1. rewrite Htimeout. mrun.
  unfold placeholder.
  cbn [PieceMonitoringResult.finalStatus PieceStatus.retrieved]. mrun.
  match goal with
  | |- context [IpniAddonStrategy.verifyIPNIAdvertisement env _ _ _ _ ?w2] =>
      destruct (verifyIPNIAdvertisement_run env rootCID blockCIDs expected ipniTimeoutMs w2)
        as (ipniResult & events & w' & n & m & Hrun & _)
  end.
  rewrite Hrun. mrun. exists ipniResult, w'. split; [done|]. split; [done|].
  intros w2.
  destruct (updateDealWithIpniMetrics_status env
              (MonitorAndVerifyResult.mk
                 (PieceMonitoringResult.mk false
                    (PieceStatus.mk "timeout" false false false None None None)
                    0 statusTimeoutMs) ipniResult) w2)
    as [Hstatus _].
  exact Hstatus.
Qed.

(** C1. When Phase 1 polling ends without a result (it then has thrown its
    timeout error, whatever the provider reported meanwhile), the monitor
    logs a warning and goes on to Phase 3 at once with a stand-in status
    whose indexed, advertised and retrieved flags are all false (0 checks,
    the polling timeout as duration): the statuses observed while polling
    are dropped, and the verification status derived from the outcome is
    VERIFIED if the root identifier verified and FAILED otherwise. *)
Theorem timeout_continues_with_placeholder_status pieceCid blockCIDs rootCID expected
    statusTimeoutMs ipniTimeoutMs pollIntervalMs w message w1 :
  IpniAddonStrategy.monitorPieceStatus env pieceCid statusTimeoutMs pollIntervalMs w
  = (Err message, w1) →
  message = IpniAddonStrategy.timeout_error
  ∧ PieceMonitoringResult.finalStatus (placeholder statusTimeoutMs)
    = PieceStatus.mk "timeout" false false false None None None
  ∧ ∃ ipniResult w',
      IpniAddonStrategy.monitorAndVerifyIPNI env pieceCid blockCIDs rootCID expected
        statusTimeoutMs ipniTimeoutMs pollIntervalMs w
      = (Ok (MonitorAndVerifyResult.mk (placeholder statusTimeoutMs) ipniResult), w')
      ∧ IpniAddonStrategy.verifyIPNIAdvertisement env rootCID blockCIDs expected
          ipniTimeoutMs
          (World.mk (World.now w1) (World.calls w1) (World.deal w1)
             (World.trace w1
              ++ [(World.now w1,
                   EvLog WARN ("Piece status monitoring incomplete: " +:+ message))]))
        = (Ok ipniResult, w')
      ∧ ∀ w2,
          World.deal (IpniAddonStrategy.updateDealWithIpniMetrics env
                        (MonitorAndVerifyResult.mk (placeholder statusTimeoutMs) ipniResult)
                        w2).2 !! "ipniStatus"
          = Some (VIpni (if IPNIVerificationResult.rootCIDVerified ipniResult
                         then VERIFIED else IPNI_FAILED)).
Proof.
  intros Htimeout. split; [|split; [reflexivity|]].
  - revert Htimeout. unfold IpniAddonStrategy.monitorPieceStatus. mrun.
    apply monitorPieceStatus_loop_Err.
  - exact (monitorAndVerifyIPNI_after_timeout pieceCid blockCIDs rootCID expected
             statusTimeoutMs ipniTimeoutMs pollIntervalMs w message w1 Htimeout).
Qed.
End Polling.

(** ** The status the monitoring leaves *)

Section MonitoringOutcome.
Variable env : Env.t.

Lemma bind_Ok {A B} (m : M A) (k : A → M B) w b w' :
  (m ≫= k) w = (Ok b, w') → ∃ a w1, m w = (Ok a, w1) ∧ k a w1 = (Ok b, w').
Proof.
  rewrite run_bind. destruct (m w) as [[a|e] w1]; [|done]. intros Hk. by exists a, w1.
Qed.

(** A polling round returns what the provider reported in it. *)
Lemma poll_once_reported pieceCid startTime lastStatus checkCount w result w' :
  IpniAddonStrategy.poll_once env pieceCid startTime lastStatus checkCount w
  = (Ok (inl result), w') →
  reported_by env pieceCid (PieceMonitoringResult.finalStatus result).
Proof.
  unfold IpniAddonStrategy.poll_once. mrun.
  destruct (Env.getPieceStatus env (World.calls w) pieceCid) as [sdkStatus|e] eqn:Hsdk;
    mrun; [|done].
  destruct (SdkPieceStatus.indexed sdkStatus && negb (PieceStatus.indexed lastStatus));
    destruct (SdkPieceStatus.advertised sdkStatus
              && negb (PieceStatus.advertised lastStatus)); mrun;
    cbn [PieceStatus.retrievedAt];
    (destruct (bool_decide (is_Some (SdkPieceStatus.retrievedAt sdkStatus))) eqn:Hat;
     cbn [andb]; [|mrun; done]);
    (destruct (negb (bool_decide (is_Some (PieceStatus.retrievedAt lastStatus))));
     mrun; [|done]);
    intros [= <- _]; exists (World.calls w), sdkStatus;
    apply bool_decide_eq_true in Hat; by split_and!.
Qed.

Lemma monitorPieceStatus_loop_reported rounds pieceCid maxDurationMs pollIntervalMs
    startTime lastStatus checkCount w result w' :
  IpniAddonStrategy.monitorPieceStatus_loop env rounds pieceCid maxDurationMs
    pollIntervalMs startTime lastStatus checkCount w = (Ok result, w') →
  reported_by env pieceCid (PieceMonitoringResult.finalStatus result).
Proof.
  revert lastStatus checkCount w.
  induction rounds as [|rounds IH]; intros lastStatus checkCount w;
    cbn [IpniAddonStrategy.monitorPieceStatus_loop]; mrun;
    unfold IpniAddonStrategy.timeout_exit.
  - destruct (_ <? _)%Z; mrun; done.
  - destruct (_ <? _)%Z; mrun; [|done].
    destruct (IpniAddonStrategy.poll_round _ _ _ _ _ w)
      as [[[found|status]|e] w1] eqn:Hstep; mrun.
    + intros [= <- _]. revert Hstep. unfold IpniAddonStrategy.poll_round, try_catch.
      destruct (IpniAddonStrategy.poll_once _ _ _ _ _ w) as [[step|e] w2] eqn:Honce.
      * intros [= -> _]. eapply poll_once_reported, Honce.
      * destruct (_ =? _); mrun; done.
    + apply IH.
    + done.
Qed.

(** Phase 1 as the monitor sees it: what polling returned, or the stand-in
    when polling threw. *)
Lemma monitorAndVerifyIPNI_Ok pieceCid blockCIDs rootCID expected
    statusTimeoutMs ipniTimeoutMs pollIntervalMs w result w' :
  IpniAddonStrategy.monitorAndVerifyIPNI env pieceCid blockCIDs rootCID expected
    statusTimeoutMs ipniTimeoutMs pollIntervalMs w = (Ok result, w') →
  match (IpniAddonStrategy.monitorPieceStatus env pieceCid statusTimeoutMs
           pollIntervalMs w).1 with
  | Ok monitoringResult =>
      MonitorAndVerifyResult.monitoringResult result = monitoringResult
      ∧ reported_by env pieceCid (PieceMonitoringResult.finalStatus monitoringResult)
  | Err _ => MonitorAndVerifyResult.monitoringResult result = placeholder statusTimeoutMs
  end.
Proof.
  unfold IpniAddonStrategy.monitorAndVerifyIPNI.
  rewrite run_bind. unfold try_catch at 1.
  destruct (IpniAddonStrategy.monitorPieceStatus env pieceCid statusTimeoutMs
              pollIntervalMs w) as [[monitoringResult|message] w1] eqn:Hpolling;
    cbn [fst].
  - intros Hrest. split.
    + apply bind_Ok in Hrest as ([] & w2 & _ & Hrest).
      apply bind_Ok in Hrest as (ipniResult & w3 & _ & Hrest).
      revert Hrest. cbn [mret M_ret]. by intros [= <- _].
    + revert Hpolling. unfold IpniAddonStrategy.monitorPieceStatus. mrun.
      apply monitorPieceStatus_loop_reported.
  - mrun. unfold placeholder. intros Hrest.
    apply bind_Ok in Hrest as (ipniResult & w3 & _ & Hrest).
    revert Hrest. cbn [mret M_ret]. by intros [= <- _].
Qed.

(** C2. When the monitoring of a Deal ends, the Deal holds a verification
    status, and which one is settled by how [startIpniMonitoring] ended.
    When it threw (the Deal lacks its provider, the provider's server
    cannot be reached, a time cannot be computed, or the save of the
    outcome was rejected) the status is FAILED, whatever was verified or
    reported. When it returned, Phases 1 and 3 ran from the start on the
    piece, the identifiers and the provider address of the Deal, the
    outcome was saved, and the status is the highest stage of that outcome:
    VERIFIED if the root identifier verified, else
    SP_RECEIVED_RETRIEVE_REQUEST, SP_ADVERTISED or SP_INDEXED by the flags
    of the status Phase 1 ended with, else FAILED. Those flags are the ones
    the provider reported at the status check that carried a retrieval time
    when polling returned; when polling timed out they are all false, and
    the status is VERIFIED or FAILED whatever the provider reported. *)
Theorem ipniStatus_after_monitoring w :
  let run := IpniAddonStrategy.startIpniMonitoring env w in
  let pieceCid := match World.deal w !! "pieceCid" with Some (VStr s) => s | _ => EmptyString end in
  ∃ status,
    World.deal run.2 !! "ipniStatus" = Some (VIpni status)
    ∧ match run.1 with
      | Err _ => status = IPNI_FAILED
      | Ok _ =>
          ∃ provider expected blockCIDs rootCID result w1,
            World.deal w !! "storageProvider" = Some (VProvider provider)
            ∧ IpniAddonStrategy.serviceURLToMultiaddr env
                (StorageProvider.serviceUrl provider) w = (Ok expected, w)
            ∧ IpniAddonStrategy.ipni_metadata_of (World.deal w !! "metadata") w
              = (Ok (blockCIDs, rootCID), w)
            ∧ IpniAddonStrategy.monitorAndVerifyIPNI env pieceCid blockCIDs rootCID
                expected IpniAddonStrategy.POLLING_TIMEOUT_MS
                IpniAddonStrategy.IPNI_LOOKUP_TIMEOUT_MS
                IpniAddonStrategy.POLLING_INTERVAL_MS w = (Ok result, w1)
            ∧ IpniAddonStrategy.updateDealWithIpniMetrics env result w1 = (Ok tt, run.2)
            ∧ let finalStatus :=
                PieceMonitoringResult.finalStatus
                  (MonitorAndVerifyResult.monitoringResult result) in
              let rootVerified :=
                IPNIVerificationResult.rootCIDVerified
                  (MonitorAndVerifyResult.ipniResult result) in
              status = (if rootVerified then VERIFIED
                        else if PieceStatus.retrieved finalStatus
                             then SP_RECEIVED_RETRIEVE_REQUEST
                        else if PieceStatus.advertised finalStatus then SP_ADVERTISED
                        else if PieceStatus.indexed finalStatus then SP_INDEXED
                        else IPNI_FAILED)
              ∧ status = highest_stage (stages_reached rootVerified
                                          (PieceStatus.retrieved finalStatus)
                                          (PieceStatus.advertised finalStatus)
                                          (PieceStatus.indexed finalStatus))
              ∧ match (IpniAddonStrategy.monitorPieceStatus env pieceCid
                         IpniAddonStrategy.POLLING_TIMEOUT_MS
                         IpniAddonStrategy.POLLING_INTERVAL_MS w).1 with
                | Ok monitoringResult =>
                    MonitorAndVerifyResult.monitoringResult result = monitoringResult
                    ∧ reported_by env pieceCid finalStatus
                | Err _ =>
                    MonitorAndVerifyResult.monitoringResult result
                    = placeholder IpniAddonStrategy.POLLING_TIMEOUT_MS
                    ∧ status = (if rootVerified then VERIFIED else IPNI_FAILED)
                end
      end.
Proof.
  intros run pieceCid. subst run.
  unfold IpniAddonStrategy.startIpniMonitoring, try_catch.
  match goal with
  | |- context [match ?body w with _ => _ end] =>
      destruct (body w) as [[[]|message] wb] eqn:Hbody
  end.
  2:{ exists IPNI_FAILED. unfold dealRepository_save, try_catch. mrun.
      destruct (Env.save env (World.calls wb)); mrun;
        (split; [apply lookup_insert_eq|done]). }
  cbn [fst snd].
  revert Hbody. mrun.
  destruct (World.deal w !! "storageProvider") as [[| | | | | | |provider| |]|] eqn:Hprovider;
    mrun; try done.
  destruct (Env.PDPServer env (StorageProvider.serviceUrl provider)) as [[]|];
    mrun; [|done].
  destruct (IpniAddonStrategy.serviceURLToMultiaddr env
              (StorageProvider.serviceUrl provider) w) as [[expected|e] wa] eqn:Haddr;
    [|done].
  assert (wa = w) as ->.
  { revert Haddr. unfold IpniAddonStrategy.serviceURLToMultiaddr. mrun.
    destruct (rethrow_with _ _); mrun; first [by intros [= _ <-]|done]. }
  mrun.
  destruct (IpniAddonStrategy.ipni_metadata_of (World.deal w !! "metadata") w)
    as [[[blockCIDs rootCID]|e] wa] eqn:Hmetadata; [|done].
  assert (wa = w) as ->.
  { revert Hmetadata. unfold IpniAddonStrategy.ipni_metadata_of.
    destruct (World.deal w !! "metadata") as [[]|]; mrun;
      try (first [by intros [= _ <-]|done]).
    destruct (_ !! IpniAddonStrategy.name) as [[]|]; mrun;
      first [by intros [= _ <-]|done]. }
  mrun. fold pieceCid.
  destruct (IpniAddonStrategy.monitorAndVerifyIPNI env pieceCid blockCIDs rootCID
              expected IpniAddonStrategy.POLLING_TIMEOUT_MS
              IpniAddonStrategy.IPNI_LOOKUP_TIMEOUT_MS
              IpniAddonStrategy.POLLING_INTERVAL_MS w) as [[result|e] w1] eqn:Hmonitor;
    [|done].
  intros Hupdate.
  destruct (updateDealWithIpniMetrics_status env result w1) as [Hstatus Hhighest].
  rewrite Hupdate in Hstatus. cbn [snd] in Hstatus.
  eexists. split; [exact Hstatus|].
  exists provider, expected, blockCIDs, rootCID, result, w1.
  split_and!; try done.
  pose proof (monitorAndVerifyIPNI_Ok _ _ _ _ _ _ _ _ _ _ Hmonitor) as Hphase1.
  destruct (IpniAddonStrategy.monitorPieceStatus env pieceCid _ _ w).1
    as [monitoringResult|e].
  - destruct Hphase1 as [-> Hreported]. by split.
  - rewrite Hphase1. by split.
Qed.

End MonitoringOutcome.

(** ** Single-deal creation: failures *)

Section CreateDealFailure.
Variable env : Env.t.
Variable this : DealService.t.

Lemma saves_app events1 events2 : saves (events1 ++ events2) = saves events1 ++ saves events2.
Proof. apply omap_app. Qed.

Lemma status_history_app events1 events2 :
  status_history (events1 ++ events2) = status_history events1 ++ status_history events2.
Proof. apply omap_app. Qed.

(** [saveDeal] makes one save attempt, never throws, and leaves the Deal
    as it is; a rejected save leaves a warning. *)
Lemma saveDeal_run w :
  ∃ w' cleanup resolved,
    DealService.saveDeal env w = (Ok tt, w')
    ∧ World.deal w' = World.deal w
    ∧ World.trace w' = World.trace w ++ cleanup
    ∧ saves cleanup = [(World.deal w, resolved)]
    ∧ status_history cleanup = []
    ∧ (resolved = false → ∃ t text, (t, EvLog WARN text) ∈ cleanup).
Proof.
  unfold DealService.saveDeal, dealRepository_save, try_catch. mrun.
  destruct (Env.save env (World.calls w)) as [rejection|]; mrun.
  - eexists _, [_; _], false.
    split_and!;
      first [ done
            | cbn [World.trace]; by rewrite <- app_assoc
            | intros _; eexists _, _; apply elem_of_cons; right; by left ].
  - eexists _, [_], true. by split_and!.
Qed.

(** What [createDeal] does once its [try] block has thrown. *)
Lemma createDeal_after_throw providerInfo dealInput w message w1 :
  let providerAddress := ProviderInfoEx.serviceProvider providerInfo in
  DealService.createDeal_try env this providerAddress dealInput
    (dealRepository_create (DealService.new_deal this providerAddress dealInput) w).2
  = (Err message, w1) →
  ∃ w' handled cleanup resolved,
    DealService.createDeal env this providerInfo dealInput w = (Err message, w')
    ∧ World.deal w' !! "status" = Some (VStatus FAILED)
    ∧ World.deal w' !! "errorMessage" = Some (VStr message)
    ∧ World.trace w' = World.trace w1 ++ handled ++ cleanup
    ∧ saves handled = []
    ∧ status_history handled = [VStatus FAILED]
    ∧ saves cleanup = [(World.deal w', resolved)]
    ∧ status_history cleanup = []
    ∧ (resolved = false → ∃ t text, (t, EvLog WARN text) ∈ cleanup).
Proof.
  intros providerAddress Htry. unfold DealService.createDeal. fold providerAddress.
  rewrite run_bind.
  destruct (dealRepository_create _ w) as [[[]|?] w0] eqn:Hcreate; [|done].
  simpl in Htry. unfold try_finally, try_catch. rewrite Htry.
  unfold DealService.createDeal_catch. mrun.
  match goal with
  | |- context [DealService.saveDeal env ?w2] =>
      destruct (saveDeal_run w2)
        as (w' & cleanup & resolved & -> & Hdeal & Htrace & Hsaves & Hhistory & Hwarn)
  end.
  cbn [World.deal World.trace] in Hdeal, Htrace, Hsaves.
  eexists w', [_; _; _], cleanup, resolved. rewrite Hdeal.
  split_and!; try done.
  - by rewrite lookup_insert_ne, lookup_insert_eq.
  - by rewrite lookup_insert_eq.
  - rewrite Htrace. by rewrite <- !app_assoc.
  - reflexivity.
  - reflexivity.
Qed.

Lemma events_of_app {A} (m : M A) w events :
  World.trace (m w).2 = World.trace w ++ events → events_of m w = events.
Proof. intros H. unfold events_of. by rewrite H, drop_app_length. Qed.

Lemma creation_throws_try providerAddress dealInput w0 wa message w1 :
  DealService.load_storageProvider env w0 = (Ok tt, wa) →
  DealService.create_storage env providerAddress dealInput wa = (Err message, w1) →
  DealService.createDeal_try env this providerAddress dealInput w0 = (Err message, w1)
  ∧ ∃ t v, World.trace w1 = World.trace w0 ++ [(t, EvSet "storageProvider" v)].
Proof.
  intros Hload Hcreate. unfold DealService.createDeal_try, DealService.before_upload.
  do 3 (mrun; rewrite ?Hload, ?Hcreate). split; [done|].
  revert Hload Hcreate.
  unfold DealService.load_storageProvider, DealService.create_storage. mrun.
  destruct (Env.findOne env _ _) as [storageProvider|]; mrun; [|done].
  intros [= <-]. cbn [World.calls]. intros [= _ <-]. by eexists _, _.
Qed.

Lemma upload_throws_try providerAddress dealInput w0 wc message w1 :
  DealService.before_upload env providerAddress dealInput w0 = (Ok tt, wc) →
  DealService.upload_data env this dealInput wc = (Err message, w1) →
  DealService.createDeal_try env this providerAddress dealInput w0 = (Err message, w1).
Proof.
  intros Hbefore Hupload. unfold DealService.createDeal_try.
  by do 3 (mrun; rewrite ?Hbefore, ?Hupload).
Qed.

(** C4. When storage-context creation or the upload throws in
    [createDeal]: the call rejects with the very message thrown; the Deal
    ends with status FAILED and that message as [errorMessage]; after the
    throw the [catch] block saves nothing and the [finally] block makes
    exactly one save attempt, of the Deal in that state; a rejected save
    leaves a warning in the log and changes nothing else. When it is the
    storage-context creation that throws, this is the only save attempt of
    the whole call. *)
Theorem createDeal_failure_recorded_saved_once_rethrown
    providerInfo dealInput w message w1 :
  let providerAddress := ProviderInfoEx.serviceProvider providerInfo in
  let w0 :=
    (dealRepository_create (DealService.new_deal this providerAddress dealInput) w).2 in
  let creation_throws :=
    ∃ wa, DealService.load_storageProvider env w0 = (Ok tt, wa)
          ∧ DealService.create_storage env providerAddress dealInput wa
            = (Err message, w1) in
  let upload_throws :=
    ∃ wc, DealService.before_upload env providerAddress dealInput w0 = (Ok tt, wc)
          ∧ DealService.upload_data env this dealInput wc = (Err message, w1) in
  creation_throws ∨ upload_throws →
  ∃ w' handled cleanup resolved,
    DealService.createDeal env this providerInfo dealInput w = (Err message, w')
    ∧ World.deal w' !! "status" = Some (VStatus FAILED)
    ∧ World.deal w' !! "errorMessage" = Some (VStr message)
    ∧ World.trace w' = World.trace w1 ++ handled ++ cleanup
    ∧ saves handled = []
    ∧ saves cleanup = [(World.deal w', resolved)]
    ∧ (resolved = false → ∃ t text, (t, EvLog WARN text) ∈ cleanup)
    ∧ (creation_throws →
       saves (events_of (DealService.createDeal env this providerInfo dealInput) w)
       = [(World.deal w', resolved)]).
Proof.
  intros providerAddress w0 creation_throws upload_throws Hthrows.
  assert (DealService.createDeal_try env this providerAddress dealInput w0
          = (Err message, w1)) as Htry.
  { destruct Hthrows as [(wa & Hload & Hcreate)|(wc & Hbefore & Hupload)].
    - by apply (creation_throws_try _ _ _ wa).
    - by apply (upload_throws_try _ _ _ wc). }
  destruct (createDeal_after_throw providerInfo dealInput w message w1 Htry)
    as (w' & handled & cleanup & resolved & Hrun & Hstatus & Herror & Htrace
        & Hhandled & _ & Hcleanup & _ & Hwarn).
  exists w', handled, cleanup, resolved. split_and!; try done.
  intros (wa & Hload & Hcreate).
  destruct (creation_throws_try providerAddress dealInput w0 wa message w1 Hload Hcreate)
    as (_ & t & v & Hw1).
  rewrite (events_of_app _ w
             ([(World.now w,
                EvCreate (DealService.new_deal this providerAddress dealInput));
               (t, EvSet "storageProvider" v)] ++ handled ++ cleanup)).
  - rewrite !saves_app, Hhandled, Hcleanup. done.
  - rewrite Hrun. cbn [snd]. rewrite Htrace, Hw1. subst w0.
    cbn [dealRepository_create snd World.trace]. by rewrite <- !app_assoc.
Qed.
End CreateDealFailure.

(** ** The primary status never regresses *)

Global Instance status_within_preorder S : PreOrder (status_within S).
Proof.
  split.
  - intros w. exists []. by rewrite app_nil_r.
  - intros w1 w2 w3 (e1 & Ht1 & H1) (e2 & Ht2 & H2). exists (e1 ++ e2).
    rewrite Ht2, Ht1, app_assoc. split; [done|].
    unfold status_history. rewrite omap_app. by apply Forall_app.
Qed.

Lemma status_within_mono (S S' : Value → Prop) {A} (m : M A) :
  (∀ v, S v → S' v) → steps_within (status_within S) m → steps_within (status_within S') m.
Proof.
  intros HS Hm w. destruct (Hm w) as (events & Htrace & Hall).
  exists events. split; [done|]. by eapply Forall_impl.
Qed.

Section StatusWithin.
Variable env : Env.t.
Variable S : Value → Prop.

Lemma status_emit e :
  (∀ field v, e ≠ EvSet field v) → (∀ entity, e ≠ EvCreate entity) →
  steps_within (status_within S) (emit e).
Proof.
  intros Hset Hcreate w. exists [(World.now w, e)]. split; [done|].
  destruct e; try by constructor.
  - by destruct (Hcreate entity).
  - by destruct (Hset field value).
Qed.

Lemma status_logger level text : steps_within (status_within S) (logger level text).
Proof. by apply status_emit. Qed.

Lemma status_advance ms : steps_within (status_within S) (advance ms).
Proof. intros w. exists []. simpl. by rewrite app_nil_r. Qed.

Lemma status_sleep ms : steps_within (status_within S) (sleep ms).
Proof.
  apply steps_bind; [apply _|by apply status_emit|intros _]. apply status_advance.
Qed.

Lemma status_outside {A} (f : nat → Result A) :
  steps_within (status_within S) (outside env f).
Proof. intros w. exists []. simpl. by rewrite app_nil_r. Qed.

Lemma status_set_other field v :
  field ≠ "status" → steps_within (status_within S) (set_deal field v).
Proof.
  intros Hfield w. exists [(World.now w, EvSet field v)]. split; [done|].
  unfold status_history. simpl. by destruct (decide (field = "status")).
Qed.

Lemma status_set_status v :
  S v → steps_within (status_within S) (set_deal "status" v).
Proof.
  intros Hv w. exists [(World.now w, EvSet "status" v)]. split; [done|].
  by repeat constructor.
Qed.

Lemma status_dealRepository_save :
  steps_within (status_within S) (dealRepository_save env).
Proof.
  apply steps_bind; [apply _|apply steps_get_deal; apply _|intros deal].
  apply steps_try_catch; [apply _| |intros e].
  - apply steps_bind; [apply _|apply status_outside|intros _]. by apply status_emit.
  - apply steps_bind; [apply _|by apply status_emit|intros _]. apply steps_throw, _.
Qed.
End StatusWithin.

Lemma terminal_DEAL_CREATED : terminal (VStatus DEAL_CREATED).
Proof. by left. Qed.

Lemma terminal_FAILED : terminal (VStatus FAILED).
Proof. by right. Qed.

Lemma open_status_PENDING : open_status (VStatus PENDING).
Proof. unfold open_status. set_solver. Qed.

Lemma open_status_UPLOADED : open_status (VStatus UPLOADED).
Proof. unfold open_status. set_solver. Qed.

Lemma open_status_PIECE_ADDED : open_status (VStatus PIECE_ADDED).
Proof. unfold open_status. set_solver. Qed.

Lemma open_status_not_terminal v : open_status v → ¬ terminal v.
Proof. unfold open_status. intros Hopen [->| ->]; set_solver. Qed.

#[export] Hint Resolve status_logger status_advance status_sleep status_outside
  status_dealRepository_save status_within_preorder
  terminal_DEAL_CREATED terminal_FAILED open_status_PENDING open_status_UPLOADED
  open_status_PIECE_ADDED : steps.

(** Takes a goal [steps_within (status_within S) m] apart. *)
Ltac steps_status :=
  repeat first
    [ progress steps
    | apply status_emit; [done|done]
    | apply status_set_other; done
    | apply status_set_status; solve [auto with steps] ].

(** What only writes the verification state writes nothing to [status]. *)
Lemma writes_only_ipni_quiet w w' : writes_only (.∈ ipni_fields) w w' → quiet w w'.
Proof.
  intros (events & Htrace & Hset & Hcreate & _). exists events. split; [done|].
  clear Htrace. induction events as [|[t e] events IH]; [constructor|].
  assert (status_history [(t, e)] = []) as Hhead.
  { destruct e; try done.
    - destruct (Hcreate t entity). by left.
    - unfold status_history. simpl. destruct (decide (field = "status")) as [->|]; [|done].
      assert ("status" ∈ ipni_fields) as Hin by (apply (Hset t _ value); by left).
      unfold ipni_fields in Hin. set_solver. }
  change ((t, e) :: events) with ([(t, e)] ++ events).
  unfold status_history in *. rewrite omap_app, Hhead. apply IH.
  - intros t' f v Hin. apply (Hset t' f v). by right.
  - intros t' d Hin. apply (Hcreate t' d). by right.
Qed.

Lemma detached_monitoring_quiet env :
  steps_within quiet (IpniAddonStrategy.detached_monitoring env).
Proof. intros w. apply writes_only_ipni_quiet, monitor_writes_only_ipni_fields. Qed.

Lemma onUploadComplete_quiet env :
  steps_within quiet (async (IpniAddonStrategy.onUploadComplete env)).
Proof.
  apply steps_async. intros w.
  apply writes_only_ipni_quiet, onUploadComplete_writes_only_ipni_fields.
Qed.


Lemma forward_after_opening {A B} (m : M A) (k : A → M B) :
  steps_within (status_within open_status) m →
  (∀ a, steps_within forward (k a)) →
  steps_within forward (m ≫= k).
Proof.
  intros Hm Hk w. rewrite run_bind. destruct (Hm w) as (e1 & Ht1 & H1).
  destruct (m w) as [[a|e] w1]; simpl in *.
  - destruct (Hk a w1) as (e2 & opening & closing & Ht2 & Hh & Ho & Hc).
    exists (e1 ++ e2), (status_history e1 ++ opening), closing.
    rewrite Ht2, Ht1, app_assoc. split; [done|].
    unfold status_history in *. rewrite omap_app, Hh, app_assoc.
    split; [done|]. split; [by apply Forall_app|done].
  - exists e1, (status_history e1), []. by rewrite app_nil_r.
Qed.

Lemma forward_of_closing {A} (m : M A) :
  steps_within (status_within terminal) m → steps_within forward m.
Proof.
  intros Hm w. destruct (Hm w) as (events & Htrace & Hall).
  by exists events, [], (status_history events).
Qed.

Lemma forward_then_closing (w1 w2 w3 : World.t) :
  forward w1 w2 → status_within terminal w2 w3 → forward w1 w3.
Proof.
  intros (e1 & opening & closing & Ht1 & Hh & Ho & Hc) (e2 & Ht2 & H2).
  exists (e1 ++ e2), opening, (closing ++ status_history e2).
  rewrite Ht2, Ht1, app_assoc. split; [done|].
  unfold status_history in *. rewrite omap_app, Hh, app_assoc.
  split; [done|]. split; [done|by apply Forall_app].
Qed.

Lemma forward_try_catch {A} (body : M A) (handler : string → M A) :
  steps_within forward body →
  (∀ e, steps_within (status_within terminal) (handler e)) →
  steps_within forward (try_catch body handler).
Proof.
  intros Hbody Hhandler w. unfold try_catch. specialize (Hbody w).
  destruct (body w) as [[a|e] w1]; simpl in *; [done|].
  eapply forward_then_closing; [exact Hbody|apply Hhandler].
Qed.

Lemma forward_try_finally {A} (body : M A) (cleanup : M unit) :
  steps_within forward body → steps_within quiet cleanup →
  steps_within forward (try_finally body cleanup).
Proof.
  intros Hbody Hcleanup w. unfold try_finally. specialize (Hbody w).
  destruct (body w) as [r w1]. specialize (Hcleanup w1).
  assert (forward w (cleanup w1).2) as Hgoal.
  { eapply forward_then_closing; [exact Hbody|].
    destruct Hcleanup as (events & Htrace & Hall). exists events. split; [done|].
    eapply Forall_impl; [exact Hall|done]. }
  by destruct (cleanup w1) as [[[]|e] w2].
Qed.

Section Orchestrator.
Variable env : Env.t.
Variable this : DealService.t.
Hypothesis Hhooks : hooks_keep_status (DealService.dealAddonsService this).

Lemma get_elem_of addons addonName addon :
  DealAddonsService.get addons addonName = Some addon → addon ∈ addons.
Proof. intros [Hin _]%find_some. by apply list_elem_of_In. Qed.

Lemma registered_hooks_quiet (select : IDealAddon.t → option (M (Result unit)))
    appliedAddons :
  (∀ addon hook, select addon = Some hook →
     IDealAddon.onUploadComplete addon = Some hook
     ∨ IDealAddon.postProcess addon = Some hook) →
  Forall (steps_within quiet)
    (omap (λ addonName,
             DealAddonsService.get
               (DealAddonsService.addons (DealService.dealAddonsService this)) addonName
             ≫= select) appliedAddons).
Proof.
  intros Hselect. apply Forall_forall. intros hook (addonName & _ & Hhook)%list_elem_of_omap.
  destruct (DealAddonsService.get _ addonName) as [addon|] eqn:Hget; [|done].
  simpl in Hhook. apply (Hhooks addon); [by eapply get_elem_of|by apply Hselect].
Qed.

Lemma addons_handleUploadComplete_status S appliedAddons :
  steps_within (status_within S)
    (DealAddonsService.handleUploadComplete (DealService.dealAddonsService this)
                                            appliedAddons).
Proof.
  apply (status_within_mono (λ _, False)); [done|].
  unfold DealAddonsService.handleUploadComplete.
  apply steps_bind; [apply _|steps_status|intros _].
  apply steps_bind; [apply _| |intros promises; steps_status].
  apply steps_call_hooks; [apply _|]. apply registered_hooks_quiet. auto.
Qed.

Lemma postProcessDeal_status S appliedAddons :
  steps_within (status_within S)
    (DealAddonsService.postProcessDeal (DealService.dealAddonsService this) appliedAddons).
Proof.
  apply (status_within_mono (λ _, False)); [done|].
  unfold DealAddonsService.postProcessDeal.
  apply steps_bind; [apply _|steps_status|intros _].
  apply steps_bind; [apply _| |intros promises; steps_status].
  apply steps_call_hooks; [apply _|]. apply registered_hooks_quiet. auto.
Qed.

Local Hint Resolve addons_handleUploadComplete_status postProcessDeal_status : steps.

Local Abbreviation opening := (status_within open_status).
Local Abbreviation closing := (status_within terminal).

Lemma handleUploadComplete_opening pieceCid appliedAddons :
  steps_within opening (DealService.handleUploadComplete this pieceCid appliedAddons).
Proof. unfold DealService.handleUploadComplete. steps_status. Qed.

Lemma handleRootAdded_opening hash :
  steps_within opening (DealService.handleRootAdded hash).
Proof. unfold DealService.handleRootAdded. steps_status. Qed.

Lemma upload_data_opening dealInput :
  steps_within opening (DealService.upload_data env this dealInput).
Proof.
  unfold DealService.upload_data, DealService.storage_upload.
  apply steps_bind; [apply _|intros w; apply status_outside|intros behaviour].
  apply steps_bind; [apply _| |intros _; steps_status].
  induction (behaviour.1) as [|[pieceCid|hash] callbacks IH];
    cbn [DealService.fire_callbacks]; [steps_status| |].
  - apply steps_bind; [apply _|apply handleUploadComplete_opening|intros _; apply IH].
  - apply steps_bind; [apply _|apply handleRootAdded_opening|intros _; apply IH].
Qed.

Lemma before_upload_opening providerAddress dealInput :
  steps_within opening (DealService.before_upload env providerAddress dealInput).
Proof.
  unfold DealService.before_upload, DealService.load_storageProvider,
    DealService.create_storage.
  steps_status.
Qed.

Lemma after_upload_closing providerAddress dealInput uploadResult :
  steps_within closing (DealService.after_upload this providerAddress dealInput uploadResult).
Proof.
  unfold DealService.after_upload, DealService.updateDealWithUploadResult. steps_status.
Qed.

Lemma saveDeal_quiet : steps_within quiet (DealService.saveDeal env).
Proof. unfold DealService.saveDeal, quiet. steps_status. Qed.

Lemma createDeal_forward providerInfo dealInput :
  steps_within forward (DealService.createDeal env this providerInfo dealInput).
Proof.
  unfold DealService.createDeal. apply forward_after_opening.
  { intros w. eexists [_]. split; [reflexivity|].
    unfold status_history, DealService.new_deal. simpl.
    rewrite !lookup_insert_ne by done. rewrite lookup_insert_eq.
    repeat constructor. }
  intros _. apply forward_try_finally; [|apply saveDeal_quiet].
  apply forward_try_catch.
  - unfold DealService.createDeal_try.
    apply forward_after_opening; [apply before_upload_opening|intros _].
    apply forward_after_opening; [apply upload_data_opening|intros uploadResult].
    apply forward_of_closing, after_upload_closing.
  - intros message. unfold DealService.createDeal_catch. steps_status.
Qed.
End Orchestrator.


(** ** Under the backend's contract the status climbs *)

Lemma climbs_then lo mid hi w1 w2 w3 :
  (lo ≤ mid)%Z → (mid ≤ hi)%Z →
  climbs lo mid w1 w2 → climbs mid hi w2 w3 → climbs lo hi w1 w3.
Proof.
  intros Hlo Hhi (e1 & Ht1 & Hs1 & Hr1) (e2 & Ht2 & Hs2 & Hr2).
  exists (e1 ++ e2). rewrite Ht2, Ht1, app_assoc. split; [done|].
  unfold status_history in *. rewrite omap_app.
  rewrite Forall_forall in Hr1. rewrite Forall_forall in Hr2. split.
  - apply StronglySorted_app_2; [|done..].
    intros a b Ha Hb. apply Hr1 in Ha. apply Hr2 in Hb. lia.
  - apply Forall_app. split; apply Forall_forall; intros v Hv.
    + apply Hr1 in Hv. lia.
    + apply Hr2 in Hv. lia.
Qed.

Lemma quiet_climbs lo w w' : quiet w w' → climbs lo lo w w'.
Proof.
  intros (events & Htrace & Hnone). exists events. split; [done|].
  destruct (status_history events) as [|v l]; [by split; constructor|by inversion Hnone].
Qed.

Lemma climbs_mono lo lo' hi hi' w w' :
  (lo' ≤ lo)%Z → (hi ≤ hi')%Z → climbs lo hi w w' → climbs lo' hi' w w'.
Proof.
  intros Hlo Hhi (events & Htrace & Hsorted & Hrange). exists events.
  split; [done|]. split; [done|].
  eapply Forall_impl; [exact Hrange|]. intros v Hv. simpl in Hv. lia.
Qed.

Lemma climbs_bind lo mid hi {A B} (m : M A) (k : A → M B) :
  (lo ≤ mid)%Z → (mid ≤ hi)%Z →
  steps_within (climbs lo mid) m → (∀ a, steps_within (climbs mid hi) (k a)) →
  steps_within (climbs lo hi) (m ≫= k).
Proof.
  intros Hlo Hhi Hm Hk w. rewrite run_bind. specialize (Hm w).
  destruct (m w) as [[a|e] w1]; simpl in *.
  - by eapply climbs_then; [| |exact Hm|apply Hk].
  - by eapply climbs_mono; [| |exact Hm].
Qed.

Lemma climbs_quiet_bind lo hi {A B} (m : M A) (k : A → M B) :
  (lo ≤ hi)%Z →
  steps_within quiet m → (∀ a, steps_within (climbs lo hi) (k a)) →
  steps_within (climbs lo hi) (m ≫= k).
Proof.
  intros Hle Hm Hk. apply (climbs_bind lo lo hi); [lia|done| |done].
  intros w. apply quiet_climbs, Hm.
Qed.

Lemma climbs_set_status lo hi v :
  (lo < status_rank v ≤ hi)%Z → steps_within (climbs lo hi) (set_deal "status" v).
Proof.
  intros Hv w. exists [(World.now w, EvSet "status" v)]. split; [done|].
  change (status_history [(World.now w, EvSet "status" v)]) with [v].
  split; [|by apply Forall_singleton].
  apply SSorted_cons; [apply SSorted_nil|apply Forall_nil_2].
Qed.

Lemma climbs_try_catch lo mid hi {A} (body : M A) (handler : string → M A) :
  (lo ≤ mid)%Z → (mid ≤ hi)%Z →
  steps_within (climbs lo mid) body → (∀ e, steps_within (climbs mid hi) (handler e)) →
  steps_within (climbs lo hi) (try_catch body handler).
Proof.
  intros Hlo Hhi Hbody Hhandler w. unfold try_catch. specialize (Hbody w).
  destruct (body w) as [[a|e] w1]; simpl in *.
  - by eapply climbs_mono; [| |exact Hbody].
  - by eapply climbs_then; [| |exact Hbody|apply Hhandler].
Qed.

Lemma climbs_try_finally lo hi {A} (body : M A) (cleanup : M unit) :
  steps_within (climbs lo hi) body → steps_within quiet cleanup →
  steps_within (climbs lo hi) (try_finally body cleanup).
Proof.
  intros Hbody Hcleanup w. unfold try_finally. specialize (Hbody w).
  destruct (body w) as [r w1]. specialize (Hcleanup w1). simpl in Hbody.
  assert (climbs lo hi w (cleanup w1).2) as Hgoal.
  { destruct Hbody as (e1 & Ht1 & Hs1 & Hr1), Hcleanup as (e2 & Ht2 & Hnone).
    exists (e1 ++ e2). rewrite Ht2, Ht1, app_assoc. split; [done|].
    unfold status_history in *. rewrite omap_app.
    destruct (omap _ e2) as [|v l]; [|by inversion Hnone].
    by rewrite app_nil_r. }
  by destruct (cleanup w1) as [[[]|e] w2].
Qed.

Section Climbing.
Variable env : Env.t.
Variable this : DealService.t.
Hypothesis Hhooks : hooks_keep_status (DealService.dealAddonsService this).
Hypothesis Hcontract : ∀ n data metadata,
  in_contract (Env.upload env n data metadata).1 = true.

Local Hint Resolve addons_handleUploadComplete_status postProcessDeal_status : steps.

(** Goes through the statements in front of the write to [status]. *)
Ltac skip_quiet :=
  repeat (apply climbs_quiet_bind; [lia|solve [unfold quiet; steps_status]|intros ?]).

Lemma handleUploadComplete_climbs pieceCid appliedAddons :
  steps_within (climbs 0 1) (DealService.handleUploadComplete this pieceCid appliedAddons).
Proof.
  unfold DealService.handleUploadComplete. skip_quiet.
  apply (climbs_bind 0 1 1); [lia|lia|by apply climbs_set_status|intros _].
  intros w. apply quiet_climbs. by apply addons_handleUploadComplete_status.
Qed.

Lemma handleRootAdded_climbs hash :
  steps_within (climbs 1 2) (DealService.handleRootAdded hash).
Proof.
  unfold DealService.handleRootAdded. skip_quiet.
  apply (climbs_bind 1 2 2); [lia|lia|by apply climbs_set_status|intros _].
  intros w. apply quiet_climbs. revert w. unfold quiet. steps_status.
Qed.

Lemma fire_callbacks_climbs callbacks appliedAddons :
  in_contract callbacks = true →
  steps_within (climbs 0 2)
    (DealService.fire_callbacks callbacks
       (λ pieceCid, DealService.handleUploadComplete this pieceCid appliedAddons)
       (λ hash, DealService.handleRootAdded hash)).
Proof.
  assert (∀ lo, steps_within (climbs lo lo) (mret tt : M unit)) as Hret.
  { intros lo w. apply quiet_climbs. reflexivity. }
  assert (∀ pieceCid, steps_within (climbs 0 2)
            (DealService.handleUploadComplete this pieceCid appliedAddons ;; mret tt))
    as Hcomplete.
  { intros pieceCid. apply (climbs_bind 0 1 2); [lia|lia| |intros _].
    - apply handleUploadComplete_climbs.
    - intros w. eapply climbs_mono; [| |apply (Hret 1%Z)]; lia. }
  assert (∀ lo hash, (lo ≤ 1)%Z →
            steps_within (climbs lo 2) (DealService.handleRootAdded hash ;; mret tt))
    as Hadded.
  { intros lo hash Hlo. apply (climbs_bind lo 2 2); [lia|lia| |intros _; apply Hret].
    intros w. eapply climbs_mono; [| |apply handleRootAdded_climbs]; lia. }
  destruct callbacks as [|first [|second [|third rest]]];
    cbn [DealService.fire_callbacks in_contract].
  - intros _ w. eapply climbs_mono; [| |apply (Hret 0%Z)]; lia.
  - intros _. destruct first; [apply Hcomplete|by apply Hadded].
  - destruct first, second; try done. intros _.
    apply (climbs_bind 0 1 2); [lia|lia|apply handleUploadComplete_climbs|intros _].
    by apply Hadded.
  - by destruct first, second.
Qed.

Lemma upload_data_climbs dealInput :
  steps_within (climbs 0 2) (DealService.upload_data env this dealInput).
Proof.
  intros w. unfold DealService.upload_data, DealService.storage_upload. mrun.
  match goal with
  | |- context [DealService.fire_callbacks ?callbacks ?f ?g ?w1] =>
      pose proof (fire_callbacks_climbs callbacks
                    (DealPreprocessingResult.appliedAddons dealInput)
                    (Hcontract _ _ _) w1) as Hfire;
      destruct (DealService.fire_callbacks callbacks f g w1) as [[[]|e] w2]
  end; mrun; simpl in Hfire.
  - destruct Hfire as (events & Htrace & Hfire). by exists events.
  - destruct Hfire as (events & Htrace & Hfire). by exists events.
Qed.

Lemma before_upload_quiet providerAddress dealInput :
  steps_within quiet (DealService.before_upload env providerAddress dealInput).
Proof.
  unfold DealService.before_upload, DealService.load_storageProvider,
    DealService.create_storage, quiet.
  steps_status.
Qed.

Lemma after_upload_climbs providerAddress dealInput uploadResult :
  steps_within (climbs 2 3)
    (DealService.after_upload this providerAddress dealInput uploadResult).
Proof.
  unfold DealService.after_upload, DealService.updateDealWithUploadResult.
  apply (climbs_bind 2 3 3); [lia|lia| |intros _].
  - skip_quiet.
    apply (climbs_bind 2 3 3); [lia|lia|by apply climbs_set_status|intros _].
    intros w. apply quiet_climbs. revert w. unfold quiet. steps_status.
  - intros w. apply quiet_climbs. revert w. unfold quiet. steps_status.
Qed.

Lemma createDeal_climbs providerInfo dealInput :
  steps_within (climbs (-1) 4) (DealService.createDeal env this providerInfo dealInput).
Proof.
  unfold DealService.createDeal.
  apply (climbs_bind (-1) 0 4); [lia|lia| |intros _].
  { intros w. eexists [_]. split; [reflexivity|].
    unfold status_history, DealService.new_deal. simpl.
    rewrite !lookup_insert_ne by done. rewrite lookup_insert_eq.
    split; [|by apply Forall_singleton].
    apply SSorted_cons; [apply SSorted_nil|apply Forall_nil_2]. }
  apply climbs_try_finally; [|by apply saveDeal_quiet].
  apply (climbs_try_catch 0 3 4); [lia|lia| |intros message].
  - unfold DealService.createDeal_try.
    apply climbs_quiet_bind; [lia|apply before_upload_quiet|intros _].
    apply (climbs_bind 0 2 3); [lia|lia|apply upload_data_climbs|intros uploadResult].
    apply after_upload_climbs.
  - unfold DealService.createDeal_catch. skip_quiet.
    apply (climbs_bind 3 4 4); [lia|lia|by apply climbs_set_status|intros _].
    intros w. apply quiet_climbs. revert w. unfold quiet. steps_status.
Qed.
End Climbing.

Lemma interleaving_omap {A B} (f : A → option B) (l1 l2 l : list A) :
  interleaving l1 l2 l → omap f l2 = [] → omap f l = omap f l1.
Proof.
  induction 1 as [|x l1 l2 l _ IH|x l1 l2 l _ IH]; intros Hquiet; csimpl in *.
  - done.
  - destruct (f x); by rewrite IH.
  - destruct (f x); [done|]. by apply IH.
Qed.

Lemma events_of_trace {A} (m : M A) w events :
  World.trace (m w).2 = World.trace w ++ events → events_of m w = events.
Proof. intros H. unfold events_of. by rewrite H, drop_app_length. Qed.

(** C9. Take the events of one call of [createDeal], for any behaviour of
    the environment, and the events of the detached monitoring it may have
    started, interleaved in any way, and read the primary status off them:
    the status a Deal is created with and then every value written to
    [status]. A terminal value (DEAL_CREATED or FAILED) is only ever followed
    by terminal values, so no earlier status comes back; the values before the
    first terminal one are PENDING, UPLOADED and PIECE_ADDED; and the
    monitoring writes nothing to [status]. When the backend keeps to its
    contract on the callbacks (each at most once, upload-complete first) the
    values rise strictly along PENDING, UPLOADED, PIECE_ADDED, DEAL_CREATED,
    FAILED. The hooks of the registered addons are taken to leave [status]
    alone, as the IPNI hook does. *)
Theorem status_never_regresses env this providerInfo dealInput w monitor_world merged :
  hooks_keep_status (DealService.dealAddonsService this) →
  interleaving
    (events_of (DealService.createDeal env this providerInfo dealInput) w)
    (events_of (IpniAddonStrategy.detached_monitoring env) monitor_world)
    merged →
  status_history (events_of (IpniAddonStrategy.detached_monitoring env) monitor_world) = []
  ∧ (∀ i j earlier later,
       i < j →
       status_history merged !! i = Some earlier →
       status_history merged !! j = Some later →
       terminal earlier → terminal later)
  ∧ (∀ i value,
       status_history merged !! i = Some value →
       value ∈ [VStatus PENDING; VStatus UPLOADED; VStatus PIECE_ADDED;
                VStatus DEAL_CREATED; VStatus FAILED])
  ∧ ((∀ n data metadata, in_contract (Env.upload env n data metadata).1 = true) →
     StronglySorted (λ a b, (status_rank a < status_rank b)%Z) (status_history merged)).
Proof.
  intros Hhooks Hmerged.
  destruct (detached_monitoring_quiet env monitor_world) as (monitor & Hmonitor & Hquiet).
  apply events_of_trace in Hmonitor. rewrite Hmonitor in *.
  assert (status_history monitor = []) as Hnone.
  { destruct (status_history monitor) as [|v l]; [done|]. by inversion Hquiet. }
  split; [done|].
  unfold status_history at 1 2 3 4. rewrite (interleaving_omap _ _ _ _ Hmerged Hnone).
  fold (status_history (events_of (DealService.createDeal env this providerInfo dealInput) w)).
  split_and!; [| |intros Hcontract];
    [..|destruct (createDeal_climbs env this Hhooks Hcontract providerInfo dealInput w)
          as (events & Htrace%events_of_trace & Hsorted & _); by rewrite Htrace].
  all: destruct (createDeal_forward env this Hhooks providerInfo dealInput w)
    as (events & opening & closing & Htrace & Hhistory & Hopening & Hclosing).
  all: apply events_of_trace in Htrace; rewrite Htrace, Hhistory.
  all: rewrite Forall_forall in Hopening; rewrite Forall_forall in Hclosing.
  - intros i j earlier later Hij Hi Hj Hterminal.
    apply lookup_app_Some in Hi as [Hi|[Hlen Hi]].
    { destruct (open_status_not_terminal earlier); [|done].
      apply Hopening. by eapply list_elem_of_lookup_2. }
    apply lookup_app_Some in Hj as [Hj|[_ Hj]].
    { apply lookup_lt_Some in Hj. lia. }
    apply Hclosing. by eapply list_elem_of_lookup_2.
  - intros i value [Hin|Hin]%list_elem_of_lookup_2%elem_of_app.
    + apply Hopening in Hin. unfold open_status in Hin. set_solver.
    + apply Hclosing in Hin as [->| ->]; set_solver.
Qed.

(** ** The batch *)

Section Batch.
Variable env : Env.t.
Variable this : DealService.t.

Lemma Promise_allSettled_run {A} (promises : list (M A)) w :
  ∃ outcomes w',
    Promise_allSettled promises w = (Ok outcomes, w')
    ∧ Forall2 outcome_of promises outcomes.
Proof.
  revert w. induction promises as [|promise rest IH]; intros w;
    cbn [Promise_allSettled].
  - by eexists [], _.
  - destruct (promise w) as [outcome w1] eqn:Hpromise.
    destruct (IH w1) as (outcomes & w' & Hrest & Hall).
    rewrite run_bind, Hrest. eexists (outcome :: outcomes), w'. split; [done|].
    constructor; [|done]. exists w. by rewrite Hpromise.
Qed.

Lemma process_groups_step groups provider rest dealInput maxConcurrency results :
  let remaining := provider :: rest in
  DealService.process_groups env this (S groups) remaining dealInput maxConcurrency results
  = (batchResults ← Promise_allSettled
       ((λ provider, DealService.createDeal env this provider dealInput)
          <$> take maxConcurrency remaining);
     DealService.process_groups env this groups (drop maxConcurrency remaining)
       dealInput maxConcurrency
       (results ++ zip_with DealService.batch_entry
                            (take maxConcurrency remaining) batchResults)).
Proof. reflexivity. Qed.

Lemma process_groups_run groups remaining dealInput maxConcurrency results w :
  0 < maxConcurrency → length remaining ≤ groups →
  ∃ outcomes w',
    DealService.process_groups env this groups remaining dealInput maxConcurrency results w
    = (Ok (results ++ zip_with (DealService.batch_entry) remaining outcomes), w')
    ∧ Forall2 (λ provider, outcome_of (DealService.createDeal env this provider dealInput))
              remaining outcomes.
Proof.
  intros Hpositive. revert remaining results w.
  induction groups as [|groups IH]; intros remaining results w Hlength.
  { destruct remaining; [|simpl in Hlength; lia].
    eexists [], _. cbn. by rewrite app_nil_r. }
  destruct remaining as [|provider rest].
  { eexists [], _. cbn. by rewrite app_nil_r. }
  rewrite process_groups_step. cbv zeta.
  remember (provider :: rest) as remaining eqn:Hremaining.
  destruct (Promise_allSettled_run
              ((λ provider, DealService.createDeal env this provider dealInput)
                 <$> take maxConcurrency remaining) w)
    as (outcomes1 & w1 & Hsettled & Hall1).
  rewrite run_bind, Hsettled.
  destruct (IH (drop maxConcurrency remaining)
               (results ++ zip_with DealService.batch_entry
                                    (take maxConcurrency remaining) outcomes1) w1)
    as (outcomes2 & w' & Hrest & Hall2).
  { rewrite length_drop. rewrite Hremaining in *. simpl in *. lia. }
  rewrite Hrest. exists (outcomes1 ++ outcomes2), w'.
  rewrite Forall2_fmap_l in Hall1.
  split.
  - rewrite <- app_assoc. do 2 f_equal.
    rewrite <- (take_drop maxConcurrency remaining) at 3.
    rewrite zip_with_app; [done|]. exact (Forall2_length _ _ _ Hall1).
  - rewrite <- (take_drop maxConcurrency remaining). by apply Forall2_app.
Qed.

Lemma successful_deals providers (outcomes : list (Result (gmap string Value))) :
  length providers = length outcomes →
  omap BatchEntry.deal
       (List.filter BatchEntry.success (zip_with DealService.batch_entry providers outcomes))
  = omap fulfilled outcomes.
Proof.
  revert outcomes. induction providers as [|provider providers IH];
    intros [|[deal|message] outcomes] [=]; csimpl; [done|..]; by rewrite IH.
Qed.

Lemma createDealsForAllProviders_run dataFile preprocessed w :
  DealService.fetchDataFile this = Ok dataFile →
  DealAddonsService.preprocessDeal (DealService.dealAddonsService this)
    (DealConfiguration.mk
       (if DealService.enableCDNTesting this then DealService.randomCDN this else false)
       (if DealService.enableIpniTesting this then DealService.randomIpni this else false)
       dataFile)
  = Ok preprocessed →
  ∃ outcomes w',
    DealService.createDealsForAllProviders env this w = (Ok (omap fulfilled outcomes), w')
    ∧ Forall2 (λ provider, outcome_of (DealService.createDeal env this provider preprocessed))
              (DealService.getTestingProviders this) outcomes.
Proof.
  intros Hfetch Hpreprocess. unfold DealService.createDealsForAllProviders.
  mrun. rewrite Hfetch. mrun. rewrite Hpreprocess. mrun.
  unfold DealService.processProvidersInParallel.
  match goal with
  | |- context [DealService.process_groups env this ?g ?r ?d ?c ?res ?w1] =>
      destruct (process_groups_run g r d c res w1) as (outcomes & w' & Hrun & Hall);
        [lia|done|]
  end.
  rewrite Hrun. mrun. eexists outcomes, _. split; [|done].
  rewrite app_nil_l, successful_deals; [done|]. exact (Forall2_length _ _ _ Hall).
Qed.

(** C5. When the data file is fetched and preprocessed, the batch entry
    point returns normally, whatever the single-deal calls do: there is one
    outcome per provider, in the order of the providers, each of them what
    [createDeal] settles to for that provider, and the list returned holds
    exactly the Deals of the fulfilled outcomes, in that order; a rejected
    call contributes no element. *)
Theorem batch_returns_exactly_the_successful_deals dataFile preprocessed w :
  DealService.fetchDataFile this = Ok dataFile →
  DealAddonsService.preprocessDeal (DealService.dealAddonsService this)
    (DealConfiguration.mk
       (if DealService.enableCDNTesting this then DealService.randomCDN this else false)
       (if DealService.enableIpniTesting this then DealService.randomIpni this else false)
       dataFile)
  = Ok preprocessed →
  ∃ outcomes w',
    DealService.createDealsForAllProviders env this w = (Ok (omap fulfilled outcomes), w')
    ∧ Forall2 (λ provider, outcome_of (DealService.createDeal env this provider preprocessed))
              (DealService.getTestingProviders this) outcomes
    ∧ length (omap fulfilled outcomes)
      = length (List.filter is_ok outcomes)
    ∧ ∀ deal, deal ∈ omap fulfilled outcomes ↔ Ok deal ∈ outcomes.
Proof.
  intros Hfetch Hpreprocess.
  destruct (createDealsForAllProviders_run dataFile preprocessed w Hfetch Hpreprocess)
    as (outcomes & w' & Hrun & Hall).
  exists outcomes, w'. split_and!; [done..| |].
  - clear. induction outcomes as [|[deal|message] outcomes IH]; csimpl; [done|..];
      by rewrite IH.
  - intros deal. rewrite list_elem_of_omap. split.
    + intros ([d|m] & Hin & [= ->]). done.
    + intros Hin. by exists (Ok deal).
Qed.
End Batch.

(** * The properties on the sample inputs *)

Lemma sample_addons :
  DealAddonsService.addons Sample.addons
  = [Sample.direct; CdnAddonStrategy.addon; IpniAddonStrategy.addon Sample.env].
Proof. reflexivity. Qed.

Lemma sample_preprocessed :
  DealAddonsService.preprocessDeal Sample.addons (Sample.config true true)
  = Ok Sample.preprocessed.
Proof. vm_compute. reflexivity. Qed.

Example sample_applied_addons :
  DealPreprocessingResult.appliedAddons Sample.preprocessed = ["ipfs_pin"; "cdn"].
Proof. vm_compute. reflexivity. Qed.

(** The scenario of the specification: CDN alone. *)
Example scenario_cdn_only :
  DealPreprocessingResult.appliedAddons
    (Sample.returned Sample.preprocessed
       (DealAddonsService.preprocessDeal Sample.addons (Sample.config true false)))
  = ["cdn"].
Proof. vm_compute. reflexivity. Qed.

Lemma applied_addons_sorted_by_priority_witness :
  ∃ sorted : list IDealAddon.t,
    DealPreprocessingResult.appliedAddons Sample.preprocessed = IDealAddon.name <$> sorted
    ∧ sorted ≡ₚ DealAddonsService.getApplicableAddons Sample.addons (Sample.config true true)
    ∧ StronglySorted (λ a b, (IDealAddon.priority a ≤ IDealAddon.priority b)%Z) sorted
    ∧ ∀ p : Z,
        List.filter (λ a, (IDealAddon.priority a =? p)%Z) sorted
        = List.filter (λ a, (IDealAddon.priority a =? p)%Z
                            && IDealAddon.isApplicable a (Sample.config true true))
                      (DealAddonsService.addons Sample.addons).
Proof.
  apply (applied_addons_sorted_by_priority Sample.addons (Sample.config true true)
           Sample.preprocessed).
  - discriminate.
  - vm_compute. reflexivity.
Defined.

Lemma fallback_is_exactly_direct_witness :
  DealAddonsService.addons_to_run Sample.addons (Sample.config false false)
  = [Sample.direct]
  ∧ ∃ result,
      DealAddonsService.preprocessDeal Sample.addons (Sample.config false false) = Ok result
      ∧ DealPreprocessingResult.appliedAddons result = ["direct_sp"].
Proof.
  destruct (fallback_is_exactly_direct Sample.addons (Sample.config false false))
    as (Hrun & Hresult & _).
  - intros addon Hin. rewrite sample_addons in Hin.
    repeat (apply elem_of_cons in Hin as [->|Hin]; [reflexivity|]).
    by apply elem_of_nil in Hin.
  - split; [exact Hrun|].
    destruct (DealAddonsService.preprocessDeal Sample.addons (Sample.config false false))
      as [result|message] eqn:Hpreprocessed; [|vm_compute in Hpreprocessed; discriminate].
    exists result. split; [reflexivity|].
    destruct (Hresult result eq_refl) as [Happlied _]. exact Happlied.
Defined.

Lemma merged_config_is_union_last_write_wins_witness :
  let applied := DealAddonsService.addons_to_run Sample.addons (Sample.config true true) in
  let metadata := DealPreprocessingResult.metadata Sample.preprocessed in
  dom (DealPreprocessingResult.dataSetMetadata Sample.preprocessed)
  = ⋃ (dom <$> (DealAddonsService.exported_dataSet metadata <$> applied))
  ∧ dom (DealPreprocessingResult.pieceMetadata Sample.preprocessed)
    = ⋃ (dom <$> (DealAddonsService.exported_piece metadata <$> applied)).
Proof.
  destruct (merged_config_is_union_last_write_wins Sample.addons (Sample.config true true)
              Sample.preprocessed) as (_ & HdataSet & Hpiece & _).
  - vm_compute. reflexivity.
  - split; [exact HdataSet | exact Hpiece].
Defined.

Example sample_merged_config :
  DealPreprocessingResult.dataSetMetadata Sample.preprocessed
  = {[ "withCDN" := EmptyString; "withIPFSIndexing" := EmptyString ]}
  ∧ DealPreprocessingResult.pieceMetadata Sample.preprocessed
    = {[ "ipfsRootCID" := "bafkhell" ]}.
Proof. split; apply map_eq; intros k; vm_compute; reflexivity. Qed.

Lemma ipni_transform_defined_only_for_nonempty_payload_witness :
  ∃ car,
    IpniAddonStrategy.convertToCar Sample.env Sample.dataFile = Ok car
    ∧ CarDataFile.blockCount car = 2
    ∧ CarDataFile.rootCID car = "bafkhell".
Proof.
  destruct (ipni_transform_defined_only_for_nonempty_payload Sample.env) as [Hnonempty _];
    [reflexivity|].
  destruct (Hnonempty Sample.dataFile) as (car & Hcar & _); [simpl; lia|].
  exists car. rewrite Hcar. vm_compute in Hcar. injection Hcar as <-.
  by split_and!.
Defined.

(** ** A polling timeout on the sample provider *)

Lemma timeout_continues_with_placeholder_status_witness :
  IpniAddonStrategy.timeout_error = IpniAddonStrategy.timeout_error
  ∧ PieceMonitoringResult.finalStatus (placeholder 3)
    = PieceStatus.mk "timeout" false false false None None None
  ∧ ∃ ipniResult w',
      IpniAddonStrategy.monitorAndVerifyIPNI Sample.env_unlisted "bafk-piece"
        ["bafkhell"; "bafko"] "bafkhell" Sample.provider 3 20 1 Sample.world
      = (Ok (MonitorAndVerifyResult.mk (placeholder 3) ipniResult), w')
      ∧ IpniAddonStrategy.verifyIPNIAdvertisement Sample.env_unlisted "bafkhell"
          ["bafkhell"; "bafko"] Sample.provider 20
          (let w1 := (IpniAddonStrategy.monitorPieceStatus Sample.env_unlisted "bafk-piece"
                        3 1 Sample.world).2 in
           World.mk (World.now w1) (World.calls w1) (World.deal w1)
             (World.trace w1
              ++ [(World.now w1,
                   EvLog WARN ("Piece status monitoring incomplete: "
                               +:+ IpniAddonStrategy.timeout_error))]))
        = (Ok ipniResult, w')
      ∧ ∀ w2,
          World.deal (IpniAddonStrategy.updateDealWithIpniMetrics Sample.env_unlisted
                        (MonitorAndVerifyResult.mk (placeholder 3) ipniResult)
                        w2).2 !! "ipniStatus"
          = Some (VIpni (if IPNIVerificationResult.rootCIDVerified ipniResult
                         then VERIFIED else IPNI_FAILED)).
Proof.
  apply (timeout_continues_with_placeholder_status Sample.env_unlisted "bafk-piece"
           ["bafkhell"; "bafko"] "bafkhell" Sample.provider 3 20 1 Sample.world
           IpniAddonStrategy.timeout_error
           (IpniAddonStrategy.monitorPieceStatus Sample.env_unlisted "bafk-piece"
              3 1 Sample.world).2).
  vm_compute. reflexivity.
Defined.

(** The sample provider reports the piece indexed and advertised at every
    poll, and never retrieved. Polling observes that twice and then times
    out; the monitor goes on with all three flags false, and since the index
    does not list the provider the status written is FAILED, where the
    stages the provider reported would give SP_ADVERTISED. *)
Lemma timeout_forgets_observed_flags :
  let env := Sample.env_unlisted in
  let run :=
    IpniAddonStrategy.monitorAndVerifyIPNI env "bafk-piece" ["bafkhell"; "bafko"]
      "bafkhell" Sample.provider 3 20 1 Sample.world in
  let observed := PieceStatus.mk "advertised" true true false None (Some 1%Z) (Some 1%Z) in
  (IpniAddonStrategy.poll_round env "bafk-piece" 0 IpniAddonStrategy.initial_status 1
     Sample.world).1 = Ok (inr observed)
  ∧ length (List.filter (λ timed, match timed.2 with
                                   | EvGetPieceStatus _ => true
                                   | _ => false
                                   end)
                        (World.trace run.2)) = 2
  ∧ ∃ result,
      run.1 = Ok result
      ∧ PieceMonitoringResult.finalStatus (MonitorAndVerifyResult.monitoringResult result)
        = PieceStatus.mk "timeout" false false false None None None
      ∧ IPNIVerificationResult.rootCIDVerified (MonitorAndVerifyResult.ipniResult result)
        = false
      ∧ World.deal (IpniAddonStrategy.updateDealWithIpniMetrics env result run.2).2
          !! "ipniStatus" = Some (VIpni IPNI_FAILED)
      ∧ highest_stage (stages_reached false (PieceStatus.retrieved observed)
                         (PieceStatus.advertised observed) (PieceStatus.indexed observed))
        = SP_ADVERTISED
      ∧ IPNI_FAILED ≠ SP_ADVERTISED.
Proof.
  cbv zeta. split; [vm_compute; reflexivity|]. split; [vm_compute; reflexivity|].
  eexists. split; [vm_compute; reflexivity|].
  split_and!; [reflexivity|reflexivity|vm_compute; reflexivity|reflexivity|discriminate].
Qed.

(** Two endings of the monitoring of the sample Deal whose status is below
    the highest stage reached. Behind the index that never lists the
    provider, the provider reports the piece indexed and advertised;
    polling times out and the Deal ends FAILED, where the stages reported
    give SP_ADVERTISED. With the provider that reports
    the piece retrieved, the root identifier verifies, the outcome written
    is VERIFIED, the save of it is rejected, and the Deal ends FAILED. *)
Lemma monitoring_ends_below_highest_stage :
  let ended (env : Env.t) :=
    World.deal (IpniAddonStrategy.startIpniMonitoring env Sample.world_uploaded).2
      !! "ipniStatus" in
  let monitored (env : Env.t) :=
    IpniAddonStrategy.monitorAndVerifyIPNI env "bafk-piece" ["bafkhell"; "bafko"]
      "bafkhell" Sample.provider IpniAddonStrategy.POLLING_TIMEOUT_MS
      IpniAddonStrategy.IPNI_LOOKUP_TIMEOUT_MS IpniAddonStrategy.POLLING_INTERVAL_MS
      Sample.world_uploaded in
  (Env.getPieceStatus Sample.env_unlisted 0 "bafk-piece"
   = Ok (SdkPieceStatus.mk "advertised" true true false None)
   ∧ ended Sample.env_unlisted = Some (VIpni IPNI_FAILED)
   ∧ highest_stage (stages_reached false false true true) = SP_ADVERTISED
   ∧ IPNI_FAILED ≠ SP_ADVERTISED)
  ∧ (∃ result w1,
       monitored Sample.env_unsaved = (Ok result, w1)
       ∧ IPNIVerificationResult.rootCIDVerified (MonitorAndVerifyResult.ipniResult result)
         = true
       ∧ World.deal (IpniAddonStrategy.updateDealWithIpniMetrics Sample.env_unsaved
                       result w1).2 !! "ipniStatus" = Some (VIpni VERIFIED)
       ∧ ended Sample.env_unsaved = Some (VIpni IPNI_FAILED)
       ∧ IPNI_FAILED ≠ VERIFIED).
Proof.
  cbv zeta. split.
  - split; [reflexivity|].
    split; [vm_compute; reflexivity|]. split; [reflexivity|discriminate].
  - eexists _, _. split; [vm_compute; reflexivity|].
    split; [reflexivity|]. split; [vm_compute; reflexivity|].
    split; [vm_compute; reflexivity|discriminate].
Qed.

(** ** One deal that fails, and a batch with it *)

Lemma createDeal_failure_recorded_saved_once_rethrown_witness :
  ∃ w' handled cleanup resolved,
    DealService.createDeal Sample.env Sample.service (ProviderInfoEx.mk "0xFail")
      Sample.preprocessed Sample.world = (Err "Storage creation failed", w')
    ∧ World.deal w' !! "status" = Some (VStatus FAILED)
    ∧ World.deal w' !! "errorMessage" = Some (VStr "Storage creation failed")
    ∧ saves handled = []
    ∧ saves cleanup = [(World.deal w', resolved)]
    ∧ saves (events_of (DealService.createDeal Sample.env Sample.service
                          (ProviderInfoEx.mk "0xFail") Sample.preprocessed) Sample.world)
      = [(World.deal w', resolved)].
Proof.
  pose (w0 := (dealRepository_create
                 (DealService.new_deal Sample.service "0xFail" Sample.preprocessed)
                 Sample.world).2).
  pose (wa := (DealService.load_storageProvider Sample.env w0).2).
  pose (w1 := (DealService.create_storage Sample.env "0xFail" Sample.preprocessed wa).2).
  assert (∃ wa', DealService.load_storageProvider Sample.env w0 = (Ok tt, wa')
                 ∧ DealService.create_storage Sample.env "0xFail" Sample.preprocessed wa'
                   = (Err "Storage creation failed", w1)) as Hcreation.
  { exists wa. split; vm_compute; reflexivity. }
  destruct (createDeal_failure_recorded_saved_once_rethrown Sample.env Sample.service
              (ProviderInfoEx.mk "0xFail") Sample.preprocessed Sample.world
              "Storage creation failed" w1 (or_introl Hcreation))
    as (w' & handled & cleanup & resolved & Hrun & Hstatus & Hmessage & _ & Hhandled
        & Hcleanup & _ & Honly).
  exists w', handled, cleanup, resolved.
  split_and!; [exact Hrun|exact Hstatus|exact Hmessage|exact Hhandled|exact Hcleanup|].
  exact (Honly Hcreation).
Defined.

Lemma batch_returns_exactly_the_successful_deals_witness :
  ∃ outcomes w',
    DealService.createDealsForAllProviders Sample.env Sample.service Sample.world
    = (Ok (omap fulfilled outcomes), w')
    ∧ Forall2 (λ provider,
                 outcome_of (DealService.createDeal Sample.env Sample.service provider
                               Sample.preprocessed))
              (DealService.getTestingProviders Sample.service) outcomes
    ∧ length (omap fulfilled outcomes) = length (List.filter is_ok outcomes)
    ∧ ∀ deal, deal ∈ omap fulfilled outcomes ↔ Ok deal ∈ outcomes.
Proof.
  apply (batch_returns_exactly_the_successful_deals Sample.env Sample.service
           Sample.dataFile Sample.preprocessed Sample.world).
  - reflexivity.
  - vm_compute. reflexivity.
Defined.

(** The scenario of the specification: two providers, one of which rejects;
    the batch returns the one Deal of the other. *)
Example scenario_batch_partial_failure :
  (λ deal, (deal !! "spAddress", deal !! "status"))
  <$> Sample.returned []
        (DealService.createDealsForAllProviders Sample.env Sample.service Sample.world).1
  = [(Some (VStr "0xSuccess"), Some (VStatus DEAL_CREATED))].
Proof. vm_compute. reflexivity. Qed.

(** ** The status history of the sample deal *)

Lemma interleaving_app {A} (l1 l2 : list A) : interleaving l1 l2 (l1 ++ l2).
Proof.
  induction l1 as [|x l1 IH]; simpl.
  - induction l2 as [|y l2 IH]; constructor; exact IH.
  - constructor. exact IH.
Qed.

Lemma sample_hooks_keep_status : hooks_keep_status Sample.addons.
Proof.
  intros addon hook Hin Hhook. rewrite sample_addons in Hin.
  apply elem_of_cons in Hin as [->|Hin]; [by destruct Hhook|].
  apply elem_of_cons in Hin as [->|Hin]; [by destruct Hhook|].
  apply elem_of_cons in Hin as [->|Hin]; [|by apply elem_of_nil in Hin].
  destruct Hhook as [[= <-]|[=]]. apply onUploadComplete_quiet.
Qed.

Lemma status_never_regresses_witness :
  let merged :=
    events_of (DealService.createDeal Sample.env Sample.service
                 (ProviderInfoEx.mk "0xSuccess") Sample.preprocessed) Sample.world
    ++ events_of (IpniAddonStrategy.detached_monitoring Sample.env) Sample.world in
  status_history (events_of (IpniAddonStrategy.detached_monitoring Sample.env) Sample.world)
  = []
  ∧ (∀ i j earlier later,
       i < j →
       status_history merged !! i = Some earlier →
       status_history merged !! j = Some later →
       terminal earlier → terminal later)
  ∧ (∀ i value,
       status_history merged !! i = Some value →
       value ∈ [VStatus PENDING; VStatus UPLOADED; VStatus PIECE_ADDED;
                VStatus DEAL_CREATED; VStatus FAILED])
  ∧ ((∀ n data metadata, in_contract (Env.upload Sample.env n data metadata).1 = true) →
     StronglySorted (λ a b, (status_rank a < status_rank b)%Z) (status_history merged)).
Proof.
  apply (status_never_regresses Sample.env Sample.service (ProviderInfoEx.mk "0xSuccess")
           Sample.preprocessed Sample.world Sample.world).
  - exact sample_hooks_keep_status.
  - apply interleaving_app.
Defined.

(** The statuses the sample deal goes through. *)
Example sample_status_history :
  status_history
    (events_of (DealService.createDeal Sample.env Sample.service
                  (ProviderInfoEx.mk "0xSuccess") Sample.preprocessed) Sample.world)
  = [VStatus PENDING; VStatus UPLOADED; VStatus PIECE_ADDED; VStatus DEAL_CREATED].
Proof. vm_compute. reflexivity. Qed.

(** ** The lookups of Phase 3 on the sample index *)

(** No lookup ever lists the provider: five lookups of the root, a timer
    between each two, and no block is looked up. *)
Example scenario_root_never_listed :
  schedule (World.trace
              (IpniAddonStrategy.verifyIPNIAdvertisement Sample.env_unlisted "bafkhell"
                 ["bafkhell"; "bafko"] Sample.provider 3600000 Sample.world).2)
  = [inl "bafkhell"; inr 10000%Z; inl "bafkhell"; inr 10000%Z; inl "bafkhell";
     inr 10000%Z; inl "bafkhell"; inr 10000%Z; inl "bafkhell"].
Proof. vm_compute. reflexivity. Qed.

(** The scenario of the specification: the third lookup of the root lists
    the provider, after two that failed; the blocks are then looked up once
    each and the status derived is VERIFIED. *)
Example scenario_root_listed_at_third_lookup :
  let run :=
    IpniAddonStrategy.verifyIPNIAdvertisement Sample.env "bafkhell" ["bafkhell"; "bafko"]
      Sample.provider 3600000 Sample.world in
  schedule (World.trace run.2)
  = [inl "bafkhell"; inr 10000%Z; inl "bafkhell"; inr 10000%Z; inl "bafkhell";
     inl "bafkhell"; inl "bafko"]
  ∧ ∃ ipniResult,
      run.1 = Ok ipniResult
      ∧ IPNIVerificationResult.rootCIDVerified ipniResult = true
      ∧ 1 ≤ IPNIVerificationResult.verified ipniResult
      ∧ World.deal (IpniAddonStrategy.updateDealWithIpniMetrics Sample.env
                      (MonitorAndVerifyResult.mk (placeholder 3) ipniResult) run.2).2
          !! "ipniStatus" = Some (VIpni VERIFIED).
Proof.
  cbv zeta. split; [vm_compute; reflexivity|].
  eexists. split; [vm_compute; reflexivity|].
  split_and!; [reflexivity|simpl; lia|vm_compute; reflexivity].
Qed.

(** * Further properties *)

(** ** The registry of addons *)

Section Registry.
Import DealAddonsService.

Lemma has_elem_of addons addonName :
  has addons addonName = true ↔ addonName ∈ IDealAddon.name <$> addons.
Proof.
  unfold has. rewrite existsb_exists, list_elem_of_fmap. split.
  - intros (a & Hin & Heq). exists a. apply String.eqb_eq in Heq.
    split; [done|]. by apply list_elem_of_In.
  - intros (a & -> & Hin). exists a. split; [by apply list_elem_of_In|].
    apply String.eqb_refl.
Qed.

Lemma registerAddon_names addons addon :
  IDealAddon.name <$> registerAddon addons addon
  = if has addons (IDealAddon.name addon)
    then IDealAddon.name <$> addons
    else (IDealAddon.name <$> addons) ++ [IDealAddon.name addon].
Proof. unfold registerAddon. destruct (has _ _); [done|]. by rewrite fmap_app. Qed.

Lemma registerAddon_NoDup addons addon :
  NoDup (IDealAddon.name <$> addons) →
  NoDup (IDealAddon.name <$> registerAddon addons addon).
Proof.
  intros Hnodup. rewrite registerAddon_names.
  destruct (has addons (IDealAddon.name addon)) eqn:Hhas; [done|].
  apply NoDup_app. split; [done|]. split; [|apply NoDup_singleton].
  intros name Hin Heq%list_elem_of_singleton. subst name.
  apply has_elem_of in Hin. congruence.
Qed.

Lemma get_Some addons addonName addon :
  get addons addonName = Some addon →
  addon ∈ addons ∧ IDealAddon.name addon = addonName.
Proof.
  unfold get. intros [Hin Heq]%find_some.
  split; [by apply list_elem_of_In|by apply String.eqb_eq].
Qed.

Lemma get_registered addons addon :
  NoDup (IDealAddon.name <$> addons) → addon ∈ addons →
  get addons (IDealAddon.name addon) = Some addon.
Proof.
  unfold get. induction addons as [|a addons IH]; intros Hnodup Hin; simpl.
  - by apply elem_of_nil in Hin.
  - rewrite fmap_cons in Hnodup. apply NoDup_cons in Hnodup as [Hfresh Hnodup].
    destruct (String.eqb_spec (IDealAddon.name a) (IDealAddon.name addon)) as [Heq|Hne].
    + apply elem_of_cons in Hin as [->|Hin]; [done|].
      exfalso. apply Hfresh. rewrite Heq. apply list_elem_of_fmap. by exists addon.
    + apply elem_of_cons in Hin as [->|Hin]; [done|]. by apply IH.
Qed.

Lemma get_None addons addonName :
  get addons addonName = None ↔ has addons addonName = false.
Proof.
  unfold get, has. induction addons as [|a addons IH]; simpl; [done|].
  destruct (String.eqb _ _); simpl; [split; discriminate|exact IH].
Qed.

(** X1. The registry the constructor builds never holds two addons of the
    same name: of the three strategies injected, in the order Direct, CDN,
    IPNI, one is registered exactly when no strategy before it has its
    name. Looking a registered addon up by its name gives that addon back,
    a lookup that succeeds gives a registered addon of that name, and
    [isAddonRegistered] holds of exactly the names [getRegisteredAddons]
    lists and of exactly the names whose lookup succeeds. *)
Theorem registry_names_unique directAddon cdnAddon ipniAddon :
  let this := new directAddon cdnAddon ipniAddon in
  NoDup (RegisteredAddon.name <$> getRegisteredAddons this)
  ∧ addons this
    = [directAddon]
      ++ (if String.eqb (IDealAddon.name cdnAddon) (IDealAddon.name directAddon)
          then [] else [cdnAddon])
      ++ (if String.eqb (IDealAddon.name ipniAddon) (IDealAddon.name directAddon)
             || String.eqb (IDealAddon.name ipniAddon) (IDealAddon.name cdnAddon)
          then [] else [ipniAddon])
  ∧ (∀ addon, addon ∈ addons this →
       get (addons this) (IDealAddon.name addon) = Some addon)
  ∧ (∀ addonName addon, get (addons this) addonName = Some addon →
       addon ∈ addons this ∧ IDealAddon.name addon = addonName)
  ∧ (∀ addonName,
       isAddonRegistered this addonName = true
       ↔ addonName ∈ RegisteredAddon.name <$> getRegisteredAddons this)
  ∧ (∀ addonName,
       isAddonRegistered this addonName = true ↔ is_Some (get (addons this) addonName)).
Proof.
  intros this.
  assert (RegisteredAddon.name <$> getRegisteredAddons this
          = IDealAddon.name <$> addons this) as Hnames.
  { unfold getRegisteredAddons. rewrite <- list_fmap_compose. done. }
  assert (NoDup (IDealAddon.name <$> addons this)) as Hnodup.
  { subst this. unfold new, registerAddons. cbn [addons].
    do 3 apply registerAddon_NoDup. apply NoDup_nil_2. }
  split_and!.
  - by rewrite Hnames.
  - subst this. unfold new, registerAddons, registerAddon, has. cbn [addons]. simpl.
    repeat match goal with
           | |- context [String.eqb ?a ?b] => destruct (String.eqb_spec a b); simpl
           end; congruence.
  - intros addon Hin. by apply get_registered.
  - intros addonName addon. apply get_Some.
  - intros addonName. rewrite Hnames. apply has_elem_of.
  - intros addonName. unfold isAddonRegistered.
    destruct (get (addons this) addonName) eqn:Hget.
    + split; [by eauto|]. intros _.
      destruct (has (addons this) addonName) eqn:Hhas; [done|].
      apply get_None in Hhas. congruence.
    + apply get_None in Hget. rewrite Hget. split; [done|]. by intros [? ?].
Qed.
End Registry.

(** ** The pipeline: what it stores, and how it fails *)

Section PipelineMore.
Import DealAddonsService.

Lemma run_addon_Ok addon context applied state :
  run_addon addon (context, applied) = Ok state →
  ∃ result,
    IDealAddon.preprocessData addon context = Ok result
    ∧ state
      = (AddonExecutionContext.mk
           (DataFile.mk (PreprocessingResult.data result) (PreprocessingResult.size result)
                        (DataFile.name (AddonExecutionContext.currentData context)))
           (<[IDealAddon.name addon := PreprocessingResult.metadata result]>
              (AddonExecutionContext.accumulatedMetadata context))
           (AddonExecutionContext.configuration context),
         applied ++ [IDealAddon.name addon]).
Proof.
  unfold run_addon, rethrow_with, mbind, Result_bind, result_bind.
  destruct (IDealAddon.preprocessData addon context) as [result|]; [|done].
  destruct (match IDealAddon.validate addon with
            | Some validate => validate result
            | None => Ok true
            end); [|done].
  intros [= <-]. by exists result.
Qed.

Lemma run_addon_Err addon context applied message :
  run_addon addon (context, applied) = Err message ↔
  ∃ reason,
    addon_fails addon context reason
    ∧ message
      = ("Add-on " +:+ IDealAddon.name addon +:+ " preprocessing failed: ") +:+ reason.
Proof.
  unfold run_addon, rethrow_with, mbind, Result_bind, result_bind, addon_fails.
  destruct (IDealAddon.preprocessData addon context) as [result|reason] eqn:Hpre.
  - destruct (IDealAddon.validate addon) as [validate|] eqn:Hval.
    + destruct (validate result) as [ok|reason] eqn:Hres.
      * split; [done|].
        intros (reason & [?|(r & v & Hr & Hv & ?)] & _); [done|].
        injection Hr as <-. injection Hv as <-. congruence.
      * split.
        -- intros Heq. injection Heq as <-. exists reason. split; [|reflexivity].
           right. exists result, validate. done.
        -- intros (reason' & [?|(r & v & Hr & Hv & ?)] & ->); [done|].
           injection Hr as <-. injection Hv as <-. congruence.
    + split; [done|]. intros (reason & [?|(r & v & _ & ? & _)] & _); congruence.
  - split.
    + intros Heq. injection Heq as <-. exists reason. split; [by left|reflexivity].
    + intros (reason' & [?|(r & v & ? & _)] & ->); congruence.
Qed.

Lemma run_addons_app addons1 addons2 state :
  run_addons (addons1 ++ addons2) state
  = run_addons addons1 state ≫= run_addons addons2.
Proof.
  revert state. induction addons1 as [|addon addons1 IH]; intros state; [done|].
  cbn [app run_addons]. unfold mbind, Result_bind, result_bind.
  destruct (run_addon addon state); [apply IH|done].
Qed.

Lemma run_addons_Err addons state message :
  run_addons addons state = Err message ↔
  ∃ before failing after context applied,
    addons = before ++ failing :: after
    ∧ run_addons before state = Ok (context, applied)
    ∧ run_addon failing (context, applied) = Err message.
Proof.
  split.
  - revert state. induction addons as [|addon addons IH]; intros state; [done|].
    cbn [run_addons]. unfold mbind, Result_bind, result_bind.
    destruct (run_addon addon state) as [state'|e] eqn:Hstep.
    + intros (before & failing & after & context & applied & -> & Hrun & Hfail)%IH.
      exists (addon :: before), failing, after, context, applied.
      split; [done|]. split; [|done].
      cbn [run_addons]. unfold mbind, Result_bind, result_bind. by rewrite Hstep.
    + intros [= <-]. destruct state as [context applied].
      by exists [], addon, addons, context, applied.
  - intros (before & failing & after & context & applied & -> & Hrun & Hfail).
    rewrite run_addons_app, Hrun. cbn [run_addons].
    unfold mbind, Result_bind, result_bind. by rewrite Hfail.
Qed.

Lemma run_addons_stores addons context applied context' applied' :
  run_addons addons (context, applied) = Ok (context', applied') →
  dom (AddonExecutionContext.accumulatedMetadata context')
  = dom (AddonExecutionContext.accumulatedMetadata context)
    ∪ list_to_set (IDealAddon.name <$> addons)
  ∧ DataFile.name (AddonExecutionContext.currentData context')
    = DataFile.name (AddonExecutionContext.currentData context)
  ∧ AddonExecutionContext.configuration context'
    = AddonExecutionContext.configuration context.
Proof.
  revert context applied.
  induction addons as [|addon addons IH]; intros context applied; cbn [run_addons].
  - intros [= <- _]. split; [|done]. set_solver.
  - intros ([c a] & Hstep & Hrest)%result_bind_Ok.
    apply run_addon_Ok in Hstep as (result & _ & [= -> ->]).
    apply IH in Hrest as (Hdom & Hname & Hconfig). simpl in *.
    rewrite Hdom, Hname, Hconfig, dom_insert_L. split; [|done]. set_solver.
Qed.

Lemma run_addons_last addons last context applied context' applied' :
  run_addons (addons ++ [last]) (context, applied) = Ok (context', applied') →
  ∃ input result,
    IDealAddon.preprocessData last input = Ok result
    ∧ DataFile.data (AddonExecutionContext.currentData context')
      = PreprocessingResult.data result
    ∧ DataFile.size (AddonExecutionContext.currentData context')
      = PreprocessingResult.size result
    ∧ AddonExecutionContext.accumulatedMetadata context' !! IDealAddon.name last
      = Some (PreprocessingResult.metadata result).
Proof.
  rewrite run_addons_app.
  intros ([input a] & Hrun & Hlast)%result_bind_Ok. cbn [run_addons] in Hlast.
  apply result_bind_Ok in Hlast as (state & Hstep & [= ->]).
  apply run_addon_Ok in Hstep as (result & Hpre & [= -> ->]).
  exists input, result. simpl. by rewrite lookup_insert_eq.
Qed.

(** X2. After a successful [preprocessDeal]: the aggregated metadata holds
    an entry for each applied addon under its name and for nothing else; the
    file keeps its name; and the payload handed on is what the last addon
    run returned, whose metadata is the entry under its name. *)
Theorem pipeline_stores_metadata_by_addon_name this config result :
  preprocessDeal this config = Ok result →
  dom (DealPreprocessingResult.metadata result)
  =@{gset string} list_to_set (DealPreprocessingResult.appliedAddons result)
  ∧ DataFile.name (DealPreprocessingResult.processedData result)
    = DataFile.name (DealConfiguration.dataFile config)
  ∧ ∃ last input output,
      List.last (addons_to_run this config) last = last
      ∧ last ∈ addons_to_run this config
      ∧ IDealAddon.preprocessData last input = Ok output
      ∧ DataFile.data (DealPreprocessingResult.processedData result)
        = PreprocessingResult.data output
      ∧ DataFile.size (DealPreprocessingResult.processedData result)
        = PreprocessingResult.size output
      ∧ DealPreprocessingResult.metadata result !! IDealAddon.name last
        = Some (PreprocessingResult.metadata output).
Proof.
  intros Hok. pose proof (preprocessDeal_Ok this config result Hok) as [Happlied _].
  revert Hok.
  unfold preprocessDeal, rethrow_with, executePreprocessingPipeline,
    mbind, Result_bind, result_bind.
  destruct (run_addons _ _) as [[context applied]|] eqn:Hrun; [|done].
  intros [= <-]. simpl in *.
  pose proof (run_addons_stores _ _ _ _ _ Hrun) as (Hdom & _ & _). simpl in Hdom.
  split; [|split; [done|]].
  - rewrite Hdom, dom_empty_L, Happlied. set_solver.
  - destruct (addons_to_run this config) as [|first rest] eqn:Hto_run using rev_ind.
    + (* at least one addon always runs *)
      exfalso. revert Hto_run. unfold addons_to_run, sortAddonsByPriority.
      destruct (getApplicableAddons this config) as [|a l]; simpl.
      * done.
      * intros Hnil. apply (f_equal length) in Hnil. revert Hnil.
        generalize (Array_sort_Permutation IDealAddon.priority (a :: l)).
        intros Hperm%Permutation_length. simpl in *. unfold compare_by in *.
        intros Hzero. rewrite Hzero in Hperm. done.
    + clear IHrest.
      apply run_addons_last in Hrun as (input & output & Hpre & Hdata & Hsize & Hmeta).
      exists first, input, output. rewrite last_last.
      split_and!; try done. set_solver.
Qed.

(** X3. [preprocessDeal] throws exactly when one of the addons it runs
    fails after those before it went through, and its message names that
    addon: it is the failure's own message behind the prefixes
    [Deal preprocessing failed: ] and [Add-on <name> preprocessing failed: ]. *)
Theorem pipeline_failure_names_the_failing_addon this config message :
  preprocessDeal this config = Err message ↔
  ∃ before failing after context applied reason,
    addons_to_run this config = before ++ failing :: after
    ∧ run_addons before
        (AddonExecutionContext.mk (DealConfiguration.dataFile config) ∅ config, [])
      = Ok (context, applied)
    ∧ addon_fails failing context reason
    ∧ message
      = "Deal preprocessing failed: "
        +:+ ("Add-on " +:+ IDealAddon.name failing +:+ " preprocessing failed: ")
        +:+ reason.
Proof.
  unfold preprocessDeal, rethrow_with, executePreprocessingPipeline.
  unfold mbind at 1, Result_bind at 1, result_bind at 1.
  unfold mbind at 1, Result_bind at 1, result_bind at 1.
  destruct (run_addons (addons_to_run this config) _) as [[context applied]|e] eqn:Hrun.
  - split; [done|].
    intros (before & failing & after & c & a & reason & Hsplit & Hbefore & Hfails & _).
    assert (run_addons (addons_to_run this config)
              (AddonExecutionContext.mk (DealConfiguration.dataFile config) ∅ config, [])
            = Err (("Add-on " +:+ IDealAddon.name failing +:+ " preprocessing failed: ")
                   +:+ reason)) as Herr.
    { apply run_addons_Err. exists before, failing, after, c, a.
      split; [done|]. split; [done|]. apply run_addon_Err. by exists reason. }
    congruence.
  - apply run_addons_Err in Hrun
      as (before & failing & after & c & a & Hsplit & Hbefore & Hfail).
    apply run_addon_Err in Hfail as (reason & Hfails & ->).
    split.
    + intros [= <-]. by exists before, failing, after, c, a, reason.
    + intros (before' & failing' & after' & c' & a' & reason' & Hsplit' & Hbefore'
              & Hfails' & ->).
      assert (run_addons (addons_to_run this config)
                (AddonExecutionContext.mk (DealConfiguration.dataFile config) ∅ config, [])
              = Err (("Add-on " +:+ IDealAddon.name failing' +:+ " preprocessing failed: ")
                     +:+ reason')) as Herr'.
      { apply run_addons_Err. exists before', failing', after', c', a'.
        split; [done|]. split; [done|]. apply run_addon_Err. by exists reason'. }
      assert (run_addons (addons_to_run this config)
                (AddonExecutionContext.mk (DealConfiguration.dataFile config) ∅ config, [])
              = Err (("Add-on " +:+ IDealAddon.name failing +:+ " preprocessing failed: ")
                     +:+ reason)) as Herr.
      { apply run_addons_Err. exists before, failing, after, c, a.
        split; [done|]. split; [done|]. apply run_addon_Err. by exists reason. }
      rewrite Herr in Herr'. congruence.
Qed.

(** X4. With the CDN strategy the only applicable addon, [preprocessDeal]
    hands the data file on as it is, stores the CDN metadata under [cdn]
    and exports the one dataset key [withCDN]; for a file of size 0 it
    throws, the CDN strategy's [validate] rejecting empty data. *)
Theorem cdn_alone_passes_the_payload_through this config :
  getApplicableAddons this config = [CdnAddonStrategy.addon] →
  preprocessDeal this config
  = if (DataFile.size (DealConfiguration.dataFile config) =? 0)%Z
    then Err "Deal preprocessing failed: Add-on cdn preprocessing failed: CDN validation failed: data is empty"
    else Ok (DealPreprocessingResult.mk
               (DealConfiguration.dataFile config)
               {[ "cdn" := CdnMetadata true "fil-beam" ]}
               ({[ "withCDN" := EmptyString ]}, ∅)
               ["cdn"]).
Proof.
  intros Happlicable.
  unfold preprocessDeal, addons_to_run. rewrite Happlicable.
  destruct config as [enableCDN enableIpni [data size name]].
  cbn. unfold CdnAddonStrategy.validate. cbn.
  destruct (size =? 0)%Z; [done|]. cbn.
  reflexivity.
Qed.

Lemma run_addon_passes addon context applied result validate passed :
  IDealAddon.preprocessData addon context = Ok result →
  IDealAddon.validate addon = Some validate →
  validate result = Ok passed →
  run_addon addon (context, applied)
  = Ok (AddonExecutionContext.mk
          (DataFile.mk (PreprocessingResult.data result) (PreprocessingResult.size result)
                       (DataFile.name (AddonExecutionContext.currentData context)))
          (<[IDealAddon.name addon := PreprocessingResult.metadata result]>
             (AddonExecutionContext.accumulatedMetadata context))
          (AddonExecutionContext.configuration context),
        applied ++ [IDealAddon.name addon]).
Proof.
  intros Hpre Hval Hpass.
  unfold run_addon, rethrow_with, mbind, Result_bind, result_bind.
  by rewrite Hpre, Hval, Hpass.
Qed.

Lemma convertToCar_carData env dataFile car :
  IpniAddonStrategy.convertToCar env dataFile = Ok car →
  (∃ roots blocks, CarDataFile.carData car = Env.CarWriter env roots blocks)
  ∧ CarDataFile.carSize car = Z.of_nat (length (CarDataFile.carData car)).
Proof.
  unfold IpniAddonStrategy.convertToCar.
  destruct (IpniAddonStrategy.make_block env _ <$> _) as [|block0 blocks]; [done|].
  intros [= <-]. simpl. split; [|done]. by eexists _, _.
Qed.

(** X5. With the IPNI strategy the only applicable addon, a positive
    [MAX_BLOCK_SIZE], identifiers that are not the empty string and CAR
    archives that are not empty: for a data file of size at least 1 what
    [preprocessData] returns passes the strategy's own [validate], and
    [preprocessDeal] hands on the CAR bytes under the file's name, stores
    the IPNI metadata under [ipfs_pin], and exports the dataset key
    [withIPFSIndexing] and the piece key [ipfsRootCID] with the root
    identifier. *)
Theorem ipni_alone_hands_on_the_car env this config :
  (0 < Env.MAX_BLOCK_SIZE env)%Z →
  (∀ bytes, Env.cidOf env bytes ≠ EmptyString) →
  (∀ roots blocks, Env.CarWriter env roots blocks ≠ []) →
  getApplicableAddons this config = [IpniAddonStrategy.addon env] →
  (1 ≤ DataFile.size (DealConfiguration.dataFile config))%Z →
  ∃ car output,
    IpniAddonStrategy.convertToCar env (DealConfiguration.dataFile config) = Ok car
    ∧ IpniAddonStrategy.preprocessData env
        (AddonExecutionContext.mk (DealConfiguration.dataFile config) ∅ config)
      = Ok output
    ∧ IpniAddonStrategy.validate output = Ok true
    ∧ preprocessDeal this config
      = Ok (DealPreprocessingResult.mk
              (DataFile.mk (CarDataFile.carData car) (CarDataFile.carSize car)
                           (DataFile.name (DealConfiguration.dataFile config)))
              {[ "ipfs_pin" :=
                   IpniMeta (IpniMetadata.mk true
                               (CarDataFile.rootCID car) (CarDataFile.blockCIDs car)
                               (CarDataFile.blockCount car) (CarDataFile.carSize car)
                               (DataFile.size (DealConfiguration.dataFile config))) ]}
              ({[ "withIPFSIndexing" := EmptyString ]},
               {[ "ipfsRootCID" := CarDataFile.rootCID car ]})
              ["ipfs_pin"]).
Proof.
  intros Hmax Hcid Hwriter Happlicable Hsize.
  destruct (convertToCar_nonempty env Hmax _ Hsize)
    as (car & Hcar & Hcount & _ & Hlength & _ & Hroot).
  pose proof (convertToCar_carData env _ car Hcar) as [(roots & blocks & Hdata) HcarSize].
  assert (IpniAddonStrategy.validate
            (PreprocessingResult.mk (CarDataFile.carData car)
               (IpniMeta (IpniMetadata.mk true
                            (CarDataFile.rootCID car) (CarDataFile.blockCIDs car)
                            (CarDataFile.blockCount car) (CarDataFile.carSize car)
                            (DataFile.size (DealConfiguration.dataFile config))))
               (Some (DataFile.data (DealConfiguration.dataFile config)))
               (CarDataFile.carSize car)) = Ok true) as Hvalid.
  { unfold IpniAddonStrategy.validate. cbn.
    destruct (String.eqb_spec (CarDataFile.rootCID car) EmptyString) as [Hempty|_].
    { exfalso. rewrite Hroot in Hempty. by apply Hcid in Hempty. }
    rewrite Hlength.
    destruct (Nat.eqb_spec (CarDataFile.blockCount car) 0) as [?|_]; [lia|].
    rewrite Nat.eqb_refl. cbn.
    destruct (Z.eqb_spec (CarDataFile.carSize car) 0) as [Hzero|_]; [|done].
    exfalso. rewrite HcarSize in Hzero.
    destruct (CarDataFile.carData car) eqn:Hbytes; [|simpl in Hzero; lia].
    by apply (Hwriter roots blocks). }
  assert (IpniAddonStrategy.preprocessData env
            (AddonExecutionContext.mk (DealConfiguration.dataFile config) ∅ config)
          = Ok (PreprocessingResult.mk (CarDataFile.carData car)
                  (IpniMeta (IpniMetadata.mk true
                               (CarDataFile.rootCID car) (CarDataFile.blockCIDs car)
                               (CarDataFile.blockCount car) (CarDataFile.carSize car)
                               (DataFile.size (DealConfiguration.dataFile config))))
                  (Some (DataFile.data (DealConfiguration.dataFile config)))
                  (CarDataFile.carSize car))) as Hpre.
  { unfold IpniAddonStrategy.preprocessData, rethrow_with, mbind, Result_bind, result_bind.
    cbn [AddonExecutionContext.currentData]. by rewrite Hcar. }
  exists car. eexists. split; [done|]. split; [exact Hpre|]. split; [exact Hvalid|].
  unfold preprocessDeal, addons_to_run, executePreprocessingPipeline.
  rewrite Happlicable.
  change (sortAddonsByPriority _) with [IpniAddonStrategy.addon env].
  cbn [length Nat.eqb run_addons].
  rewrite (run_addon_passes (IpniAddonStrategy.addon env) _ [] _ _ _ Hpre eq_refl Hvalid).
  cbn -[IpniAddonStrategy.getSynapseConfig].
  unfold mergeSynapseConfigs, merge_config, IpniAddonStrategy.getSynapseConfig.
  cbn -[String.eqb]. rewrite lookup_insert_eq. cbn [IpniMetadata.rootCID].
  destruct (String.eqb_spec (CarDataFile.rootCID car) EmptyString) as [Hempty|_].
  { exfalso. rewrite Hroot in Hempty. by apply Hcid in Hempty. }
  cbn [SynapseConfig.dataSetMetadata SynapseConfig.pieceMetadata].
  by rewrite !(right_id_L ∅ (∪)).
Qed.
End PipelineMore.

(** ** The blocks of a CAR *)

Section CarBlocks.
Variable env : Env.t.
Hypothesis MAX_BLOCK_SIZE_pos : (0 < Env.MAX_BLOCK_SIZE env)%Z.






End CarBlocks.

(** ** Hooks *)

Section Hooks.
Import DealAddonsService.

(** Hooks that return a promise whenever they are called are all called,
    each once and in their order. *)
Lemma call_hooks_returns hooks w :
  Forall (λ hook : M (Result unit), ∀ w, is_ok (hook w).1 = true) hooks →
  ∃ promises,
    call_hooks hooks w = (Ok promises, run_each hooks w)
    ∧ length promises = length hooks.
Proof.
  intros Hhooks. revert w. induction Hhooks as [|hook hooks Hhook _ IH]; intros w.
  - by exists [].
  - cbn [call_hooks run_each foldl]. rewrite run_bind.
    specialize (Hhook w). destruct (hook w) as [[promise|e] w1]; [|done].
    destruct (IH w1) as (promises & Hrest & Hlength). rewrite run_bind, Hrest.
    exists (promise :: promises). split; [done|]. simpl. by rewrite Hlength.
Qed.

(** The calls end at the first hook that throws. *)
Lemma call_hooks_throws hooks w message w' :
  call_hooks hooks w = (Err message, w') →
  ∃ hook w1, hook ∈ hooks ∧ hook w1 = (Err message, w').
Proof.
  revert w. induction hooks as [|hook hooks IH]; intros w; [done|].
  cbn [call_hooks]. rewrite run_bind.
  destruct (hook w) as [[promise|e] w1] eqn:Hhook.
  - rewrite run_bind.
    destruct (call_hooks hooks w1) as [[promises|e] w2] eqn:Hrest; [done|].
    intros [= -> ->]. destruct (IH w1 Hrest) as (thrower & w3 & Hin & Hthrown).
    exists thrower, w3. split; [by right|done].
  - intros [= -> ->]. exists hook, w. split; [by left|done].
Qed.

Lemma Promise_all_Err promises message :
  Promise_all promises = Err message → Err message ∈ promises.
Proof.
  induction promises as [|[[]|e] promises IH]; cbn [Promise_all]; [done| |].
  - intros Hrest. right. by apply IH.
  - intros [= ->]. by left.
Qed.

Lemma registered_hooks_return this (select : IDealAddon.t → option (M (Result unit)))
    appliedAddons :
  hooks_return_promises this →
  (∀ addon hook, select addon = Some hook →
     IDealAddon.onUploadComplete addon = Some hook
     ∨ IDealAddon.postProcess addon = Some hook) →
  Forall (λ hook : M (Result unit), ∀ w, is_ok (hook w).1 = true)
    (omap (λ addonName, get (addons this) addonName ≫= select) appliedAddons).
Proof.
  intros Hhooks Hselect. apply Forall_forall.
  intros hook (addonName & _ & Hhook)%list_elem_of_omap.
  destruct (get _ addonName) as [addon|] eqn:Hget; [|done].
  simpl in Hhook. apply (Hhooks addon); [by eapply get_elem_of|by apply Hselect].
Qed.

Lemma hooks_settle (intro completed failed : string) hooks w :
  let started := (logger DEBUG intro w).2 in
  let run :=
    (logger DEBUG intro;;
     promises ← call_hooks hooks;
     try_catch (lift (Promise_all promises);; logger DEBUG completed)
               (λ message, logger WARN (failed +:+ message))) w in
  (Forall (λ hook : M (Result unit), ∀ w, is_ok (hook w).1 = true) hooks →
   ∃ promises,
     (call_hooks hooks started).1 = Ok promises
     ∧ length promises = length hooks
     ∧ run.1 = Ok tt
     ∧ match Promise_all promises with
       | Ok _ => run.2 = (logger DEBUG completed (run_each hooks started)).2
       | Err _ =>
           ∃ message w1,
             Err message ∈ promises
             ∧ run.2 = (logger WARN (failed +:+ message) w1).2
       end)
  ∧ (∀ message, run.1 = Err message →
       ∃ hook w1, hook ∈ hooks ∧ hook w1 = (Err message, run.2)).
Proof.
  intros started run. subst run.
  rewrite run_bind. change (logger DEBUG intro w) with (Ok tt, started).
  cbv beta iota. rewrite run_bind. split.
  - intros Hhooks.
    destruct (call_hooks_returns hooks started Hhooks) as (promises & Hcalls & Hlength).
    rewrite Hcalls. exists promises. split; [done|]. split; [done|].
    unfold try_catch. rewrite run_bind. cbn [lift fst snd].
    destruct (Promise_all promises) as [[]|message] eqn:Hall.
    + by destruct (logger DEBUG completed _) as [[[]|] ?] eqn:Hlog.
    + split; [done|]. exists message, (run_each hooks started).
      split; [by apply Promise_all_Err|done].
  - intros message.
    destruct (call_hooks hooks started) as [[promises|e] w1] eqn:Hcalls.
    + unfold try_catch. rewrite run_bind. cbn [lift].
      destruct (Promise_all promises) as [[]|rejection]; [|done].
      by destruct (logger DEBUG completed _) as [[[]|] ?] eqn:Hlog.
    + cbn [fst snd]. intros [= ->]. by eapply call_hooks_throws.
Qed.

End Hooks.

(** ** One lookup in the index *)

Section OneLookup.
Variable env : Env.t.

Lemma extractProviderAddrs_spec ipniResponse addr :
  addr ∈ IpniAddonStrategy.extractProviderAddrs ipniResponse ↔
  ∃ multihashResult providerResult,
    multihashResult ∈ default [] (IpniResponse.MultihashResults ipniResponse)
    ∧ providerResult ∈ default [] (IpniResponse.ProviderResults multihashResult)
    ∧ addr ∈ default [] (IpniResponse.Addrs providerResult).
Proof.
  unfold IpniAddonStrategy.extractProviderAddrs.
  rewrite list_elem_of_join. split.
  - intros (addrs & Haddr & (multihashResult & -> & Hin)%list_elem_of_fmap).
    apply list_elem_of_join in Haddr
      as (addrs & Haddr & (providerResult & -> & Hin')%list_elem_of_fmap).
    by exists multihashResult, providerResult.
  - intros (multihashResult & providerResult & Hin & Hin' & Haddr).
    eexists. split; [|apply list_elem_of_fmap; by exists multihashResult].
    apply list_elem_of_join. eexists. split; [exact Haddr|].
    apply list_elem_of_fmap. by exists providerResult.
Qed.

(** X8. [verifySingleCID] never throws and makes exactly one request. It
    reports the identifier verified exactly when the request resolved and
    the expected address is among the addresses of the response, that is
    under [Addrs] of one of the [ProviderResults] of one of the
    [MultihashResults], a missing list counting as empty; otherwise it gives
    a reason: [not found] when the response holds no address at all,
    [wrong multiaddr] when it holds addresses but not the expected one, and
    the error's message when the request was rejected. *)
Theorem verifySingleCID_verdict cid expected w :
  let lookup :=
    Env.httpsGet env (World.calls w) "filecoinpin.contact" ("/cid/" +:+ cid) 5000 in
  ∃ result,
    IpniAddonStrategy.verifySingleCID env cid expected w
    = (Ok result,
       World.mk (World.now w + Z.of_nat (Env.latency env (World.calls w)))
                (S (World.calls w)) (World.deal w)
                (World.trace w ++ [(World.now w, EvQueryIPNI cid)]))
    ∧ (SingleCIDVerificationResult.verified result = true ↔
       ∃ response multihashResult providerResult,
         lookup = Ok response
         ∧ multihashResult ∈ default [] (IpniResponse.MultihashResults response)
         ∧ providerResult ∈ default [] (IpniResponse.ProviderResults multihashResult)
         ∧ expected ∈ default [] (IpniResponse.Addrs providerResult))
    ∧ (SingleCIDVerificationResult.verified result = false →
       SingleCIDVerificationResult.reason result
       = Some match lookup with
              | Err message => message
              | Ok response =>
                  if length (IpniAddonStrategy.extractProviderAddrs response) =? 0
                  then "not found" else "wrong multiaddr"
              end).
Proof.
  intros lookup.
  unfold IpniAddonStrategy.verifySingleCID, IpniAddonStrategy.queryIPNI, try_catch.
  mrun. fold lookup.
  destruct lookup as [response|message] eqn:Hlookup; mrun.
  - destruct (length _ =? 0) eqn:Hlength.
    + eexists. split; [done|]. split; [|done]. split; [done|].
      intros (r & mh & pr & [= <-] & Hmh & Hpr & Haddr).
      assert (expected ∈ IpniAddonStrategy.extractProviderAddrs response) as Hin
        by (apply extractProviderAddrs_spec; eauto).
      apply Nat.eqb_eq in Hlength.
      destruct (IpniAddonStrategy.extractProviderAddrs response); [|done].
      by apply elem_of_nil in Hin.
    + destruct (bool_decide (expected ∈ _)) eqn:Hexpected; cbn [negb].
      * eexists. split; [done|]. split; [|done]. split; [|done]. intros _.
        apply bool_decide_eq_true in Hexpected.
        apply extractProviderAddrs_spec in Hexpected as (mh & pr & ?).
        by exists response, mh, pr.
      * eexists. split; [done|]. split; [|done]. split; [done|].
        intros (r & mh & pr & [= <-] & Hmh & Hpr & Haddr).
        apply bool_decide_eq_false in Hexpected. exfalso. apply Hexpected.
        apply extractProviderAddrs_spec. eauto.
  - eexists. split; [done|]. split; [|done]. split; [done|].
    by intros (r & mh & pr & [=] & _).
Qed.
End OneLookup.

(** ** The identifiers that failed *)

Section FailedCIDs.
Variable env : Env.t.

Lemma verifyRootCID_loop_failed todo retry maxRetries rootCID expected maxDurationMs
    startTime w :
  ∃ result w',
    IpniAddonStrategy.verifyRootCID_loop env todo retry maxRetries rootCID expected
                                         maxDurationMs startTime w
    = (Ok result, w')
    ∧ (RootCIDVerificationResult.verified result = true
       ∧ RootCIDVerificationResult.failed result = None
       ∨ RootCIDVerificationResult.verified result = false
         ∧ ∃ reason addrs,
             RootCIDVerificationResult.failed result
             = Some (FailedCID.mk rootCID reason addrs)).
Proof.
  revert retry w. induction todo as [|todo IH]; intros retry w;
    cbn [IpniAddonStrategy.verifyRootCID_loop].
  { eexists _, _. mrun. split; [done|]. right. split; [done|]. by eexists _, _. }
  mrun. destruct (_ >? _)%Z.
  { eexists _, _. mrun. split; [done|]. right. split; [done|]. by eexists _, _. }
  destruct (verifySingleCID_run env rootCID expected w) as [single Hsingle].
  mrun. rewrite Hsingle.
  destruct (SingleCIDVerificationResult.verified single).
  { eexists _, _. mrun. split; [done|]. by left. }
  destruct (retry <? maxRetries - 1).
  - mrun. apply IH.
  - eexists _, _. mrun. split; [done|]. right. split; [done|]. by eexists _, _.
Qed.

Lemma verifyBlockCIDs_loop_failed blockCIDs expected maxDurationMs startTime verified
    failed w :
  ∃ result w' more reached,
    IpniAddonStrategy.verifyBlockCIDs_loop env blockCIDs expected maxDurationMs
                                           startTime verified failed w
    = (Ok result, w')
    ∧ BlockCIDsVerificationResult.failed result = failed ++ more
    ∧ BlockCIDsVerificationResult.verified result + length more = verified + reached
    ∧ reached ≤ length blockCIDs
    ∧ FailedCID.cid <$> more `sublist_of` take reached blockCIDs.
Proof.
  revert verified failed w.
  induction blockCIDs as [|cid rest IH]; intros verified failed w;
    cbn [IpniAddonStrategy.verifyBlockCIDs_loop].
  { eexists _, _, [], 0. mrun. rewrite app_nil_r.
    split_and!; try done; simpl; lia. }
  mrun. destruct (_ >? _)%Z.
  { eexists _, _, [], 0. mrun. rewrite app_nil_r.
    split_and!; try done; simpl; lia. }
  destruct (verifySingleCID_run env cid expected w) as [single Hsingle].
  mrun. rewrite Hsingle.
  destruct (SingleCIDVerificationResult.verified single);
    match goal with
    | |- context [IpniAddonStrategy.verifyBlockCIDs_loop env _ _ _ _ ?v ?f ?w1] =>
        destruct (IH v f w1) as (result & w' & more & reached & Hrun & Hfailed
                                 & Hcount & Hreached & Hsub)
    end; rewrite Hrun.
  - exists result, w', more, (S reached). split_and!; [done|done|lia|simpl; lia|].
    cbn [take]. by apply sublist_cons.
  - eexists result, w', (_ :: more), (S reached).
    split_and!; [done|by rewrite Hfailed, <- app_assoc|simpl; lia|simpl; lia|].
    cbn [take fmap list_fmap FailedCID.cid]. by apply sublist_skip.
Qed.

(** X9. What [verifyIPNIAdvertisement] reports adds up. When the root
    identifier did not verify, nothing counts as verified and the failed
    list names the root identifier alone, however many blocks there are.
    When it did, the failed list names block identifiers only, in the order
    of the blocks and each at most as often as it occurs among them, and the
    verified count and the failed list together account for the root and
    for the blocks the loop reached before it stopped. In both cases the
    failed list is no longer than the unverified count, so that a result
    with nothing unverified has no failed identifier. *)
Theorem failed_cids_accounted rootCID blockCIDs expected maxDurationMs w :
  ∃ result,
    (IpniAddonStrategy.verifyIPNIAdvertisement env rootCID blockCIDs expected
       maxDurationMs w).1 = Ok result
    ∧ let failed := FailedCID.cid <$> IPNIVerificationResult.failedCIDs result in
      (if IPNIVerificationResult.rootCIDVerified result then
         ∃ reached,
           reached ≤ length blockCIDs
           ∧ IPNIVerificationResult.verified result + length failed = 1 + reached
           ∧ failed `sublist_of` take reached blockCIDs
       else IPNIVerificationResult.verified result = 0 ∧ failed = [rootCID])
      ∧ length failed ≤ IPNIVerificationResult.unverified result
      ∧ (IPNIVerificationResult.unverified result = 0 → failed = []).
Proof.
  unfold IpniAddonStrategy.verifyIPNIAdvertisement, IpniAddonStrategy.verifyRootCID.
  mrun.
  match goal with
  | |- context [IpniAddonStrategy.verifyRootCID_loop env ?t ?r ?m _ _ _ _ ?w1] =>
      destruct (verifyRootCID_loop_failed t r m rootCID expected maxDurationMs
                  (World.now w) w1)
        as (root & w1' & Hrun1 & [[Hroot Hnone] | (Hroot & reason & addrs & Hsome)])
  end; rewrite Hrun1, Hroot.
  - rewrite Hnone. unfold IpniAddonStrategy.verifyBlockCIDs. mrun.
    match goal with
    | |- context [IpniAddonStrategy.verifyBlockCIDs_loop env _ _ _ _ _ _ ?w2] =>
        destruct (verifyBlockCIDs_loop_failed blockCIDs expected maxDurationMs
                    (World.now w) 0 [] w2)
          as (blocks & w2' & more & reached & Hrun2 & Hfailed & Hcount & Hreached & Hsub)
    end.
    rewrite Hrun2. mrun. rewrite Hfailed. cbn [from_option app].
    destruct (0 <? _); mrun; eexists; (split; [reflexivity|]);
      cbn [IPNIVerificationResult.failedCIDs IPNIVerificationResult.rootCIDVerified
           IPNIVerificationResult.verified IPNIVerificationResult.unverified];
      rewrite length_fmap; simpl in Hcount.
    all: split; [exists reached; split_and!; [done|lia|done]|].
    all: split; [lia|].
    all: intros Hzero; assert (length more = 0) as Hempty by lia.
    all: by destruct more.
  - rewrite Hsome. mrun. cbn [from_option].
    destruct (0 <? _); mrun; eexists; (split; [reflexivity|]);
      cbn [IPNIVerificationResult.failedCIDs IPNIVerificationResult.rootCIDVerified
           IPNIVerificationResult.verified IPNIVerificationResult.unverified].
    all: split; [done|]. all: simpl; split; lia.
Qed.
End FailedCIDs.

(** ** Phase 1: how often the provider is asked *)

Section PollingBound.
Variable env : Env.t.

Lemma status_checks_app events1 events2 :
  status_checks (events1 ++ events2) = status_checks events1 + status_checks events2.
Proof. unfold status_checks. by rewrite List.filter_app, length_app. Qed.

(** One round asks once, never throws and never sets the clock back; when
    it returns a result, the piece was retrieved. *)
Lemma poll_round_run pieceCid startTime lastStatus checkCount w :
  ∃ step events w',
    IpniAddonStrategy.poll_round env pieceCid startTime lastStatus checkCount w
    = (Ok step, w')
    ∧ World.trace w' = World.trace w ++ events
    ∧ status_checks events = 1
    ∧ (World.now w ≤ World.now w')%Z
    ∧ match step with
      | inl result =>
          PieceMonitoringResult.success result = true
          ∧ PieceMonitoringResult.checks result = checkCount
          ∧ is_Some (PieceStatus.retrievedAt (PieceMonitoringResult.finalStatus result))
      | inr _ => True
      end.
Proof.
  unfold IpniAddonStrategy.poll_round, IpniAddonStrategy.poll_once, try_catch.
  mrun.
  destruct (Env.getPieceStatus env (World.calls w) pieceCid) as [sdkStatus|message]; mrun.
  - destruct (SdkPieceStatus.indexed sdkStatus && _); mrun;
      destruct (SdkPieceStatus.advertised sdkStatus && _); mrun;
      cbn [PieceStatus.retrievedAt];
      destruct (bool_decide (is_Some (SdkPieceStatus.retrievedAt sdkStatus))) eqn:Hretrieved;
      destruct (negb _); cbn [andb]; mrun;
      (eexists _, _, _; split; [reflexivity|];
       split; [by rewrite <- ?app_assoc|]; split; [reflexivity|];
       split; [cbn [World.now]; lia|]; try done;
       try (apply bool_decide_eq_true in Hretrieved; by split_and!)).
  - destruct (checkCount mod 20 =? 0); mrun;
      (eexists _, _, _; split; [reflexivity|];
       split; [by rewrite <- ?app_assoc|]; split; [reflexivity|]; split; [cbn [World.now]; lia|done]).
Qed.

Lemma monitorPieceStatus_loop_polls rounds pieceCid maxDurationMs pollIntervalMs
    startTime lastStatus checkCount w :
  (Z.of_nat checkCount * timer_delay pollIntervalMs ≤ World.now w - startTime)%Z →
  (maxDurationMs - (World.now w - startTime) ≤ Z.of_nat rounds)%Z →
  ∃ outcome events w',
    IpniAddonStrategy.monitorPieceStatus_loop env rounds pieceCid maxDurationMs
      pollIntervalMs startTime lastStatus checkCount w = (outcome, w')
    ∧ World.trace w' = World.trace w ++ events
    ∧ (status_checks events = 0
       ∨ (Z.of_nat (checkCount + status_checks events - 1) * timer_delay pollIntervalMs
          < maxDurationMs)%Z)
    ∧ match outcome with
      | Ok result =>
          PieceMonitoringResult.success result = true
          ∧ PieceMonitoringResult.checks result = checkCount + status_checks events
          ∧ 1 ≤ status_checks events
          ∧ is_Some (PieceStatus.retrievedAt (PieceMonitoringResult.finalStatus result))
      | Err message =>
          message = IpniAddonStrategy.timeout_error
          ∧ (maxDurationMs ≤ World.now w' - startTime)%Z
      end.
Proof.
  revert lastStatus checkCount w.
  induction rounds as [|rounds IH]; intros lastStatus checkCount w Helapsed Hfuel;
    cbn [IpniAddonStrategy.monitorPieceStatus_loop]; mrun.
  - destruct (Z.ltb_spec (World.now w - startTime) maxDurationMs); [lia|].
    unfold IpniAddonStrategy.timeout_exit. mrun.
    eexists _, _, _. split; [reflexivity|]. split; [reflexivity|].
    split; [by left|]. split; [done|]. simpl. lia.
  - destruct (Z.ltb_spec (World.now w - startTime) maxDurationMs) as [Hleft|Hover].
    + destruct (poll_round_run pieceCid startTime lastStatus (S checkCount) w)
        as (step & events1 & w1 & Hstep & Htrace1 & Hchecks1 & Hclock1 & Hresult).
      mrun. rewrite Hstep. destruct step as [result|status]; mrun.
      * exists (Ok result), events1, w1. split; [done|]. split; [done|].
        rewrite Hchecks1. split; [right|].
        -- replace (checkCount + 1 - 1) with checkCount by lia. lia.
        -- destruct Hresult as (? & ? & ?). split_and!; [done|lia|lia|done].
      * pose proof (timer_delay_pos pollIntervalMs) as Hdelay.
        edestruct (IH status (S checkCount)
                     (World.mk (World.now w1 + timer_delay pollIntervalMs)
                        (World.calls w1) (World.deal w1)
                        (World.trace w1 ++ [(World.now w1, EvSleep pollIntervalMs)])))
          as (outcome & events2 & w2 & Hrun & Htrace2 & Hbound & Houtcome).
        { cbn [World.now]. lia. }
        { cbn [World.now]. lia. }
        exists outcome, (events1 ++ (World.now w1, EvSleep pollIntervalMs) :: events2), w2.
        split; [exact Hrun|].
        split.
        { rewrite Htrace2. cbn [World.trace]. rewrite Htrace1.
          by rewrite <- !app_assoc. }
        assert (status_checks (events1 ++ (World.now w1, EvSleep pollIntervalMs) :: events2)
                = 1 + status_checks events2) as ->.
        { rewrite status_checks_app, Hchecks1. done. }
        split.
        { right. destruct Hbound as [Hzero|Hbound].
          - rewrite Hzero. replace (checkCount + (1 + 0) - 1) with checkCount by lia. lia.
          - replace (checkCount + (1 + status_checks events2) - 1)
              with (S checkCount + status_checks events2 - 1) by lia. exact Hbound. }
        destruct outcome as [result|message]; [|exact Houtcome].
        destruct Houtcome as (? & ? & ? & ?). split_and!; [done|lia|lia|done].
    + unfold IpniAddonStrategy.timeout_exit. mrun.
      eexists _, _, _. split; [reflexivity|]. split; [reflexivity|].
      split; [by left|]. split; [done|]. simpl. lia.
Qed.

(** X10. [monitorPieceStatus] asks the provider at most once per timer: a
    status check is started only while less than [maxDurationMs] have
    passed, and the timer between two checks runs for [pollIntervalMs]
    (1 ms when that is below 1 or above 2147483647), so the number of checks
    less one, times that delay, stays below [maxDurationMs]. When it returns
    a result, the result is a success that counts the checks made, there
    was at least one, and the status it carries is the one the provider
    reported at a check that came with a retrieval time: the retrieval time
    is set, and the flags, [retrieved] too, are as the provider reported
    them. When it throws, it is the timeout error and [maxDurationMs] have
    passed. *)
Theorem monitorPieceStatus_checks_bounded pieceCid maxDurationMs pollIntervalMs w :
  let run := IpniAddonStrategy.monitorPieceStatus env pieceCid maxDurationMs pollIntervalMs w in
  let checks :=
    status_checks
      (events_of (IpniAddonStrategy.monitorPieceStatus env pieceCid maxDurationMs
                    pollIntervalMs) w) in
  (checks = 0
   ∨ (Z.of_nat (checks - 1) * timer_delay pollIntervalMs < maxDurationMs)%Z)
  ∧ match run.1 with
    | Ok result =>
        PieceMonitoringResult.success result = true
        ∧ PieceMonitoringResult.checks result = checks
        ∧ 1 ≤ checks
        ∧ is_Some (PieceStatus.retrievedAt (PieceMonitoringResult.finalStatus result))
        ∧ reported_by env pieceCid (PieceMonitoringResult.finalStatus result)
    | Err message =>
        message = IpniAddonStrategy.timeout_error
        ∧ (maxDurationMs ≤ World.now run.2 - World.now w)%Z
    end.
Proof.
  intros run checks.
  destruct (monitorPieceStatus_loop_polls (Z.to_nat maxDurationMs) pieceCid maxDurationMs
              pollIntervalMs (World.now w) IpniAddonStrategy.initial_status 0 w)
    as (outcome & events & w' & Hrun & Htrace & Hbound & Houtcome); [lia|lia|].
  assert (run = (outcome, w')) as Hrun'.
  { subst run. unfold IpniAddonStrategy.monitorPieceStatus. mrun. exact Hrun. }
  assert (checks = status_checks events) as ->.
  { subst checks. f_equal. apply events_of_trace. fold run. by rewrite Hrun'. }
  rewrite Hrun'. cbn [fst snd]. split; [exact Hbound|].
  destruct outcome as [result|message]; [|exact Houtcome].
  destruct Houtcome as (Hsuccess & Hchecks & Hone & Hretrieved).
  split_and!; [exact Hsuccess|exact Hchecks|exact Hone|exact Hretrieved|].
  eapply monitorPieceStatus_loop_reported, Hrun.
Qed.
End PollingBound.

(** ** The detached monitor from start to end *)

Section MonitorEnds.
Variable env : Env.t.

(** The [try] block of [startIpniMonitoring]. *)
Local Abbreviation monitoring :=
  (storageProvider ← get_field "storageProvider";
   serviceUrl ←
     match storageProvider with
     | Some (VProvider p) => mret (StorageProvider.serviceUrl p)
     | _ => throw "Cannot read properties of null (reading 'serviceUrl')"
     end;
   lift (Env.PDPServer env serviceUrl);;
   expectedMultiaddr ← IpniAddonStrategy.serviceURLToMultiaddr env serviceUrl;
   pieceCid ← get_field "pieceCid";
   metadata ← get_field "metadata";
   '(blockCIDs, rootCID) ← IpniAddonStrategy.ipni_metadata_of metadata;
   result ← IpniAddonStrategy.monitorAndVerifyIPNI env
     (match pieceCid with Some (VStr s) => s | _ => EmptyString end)
     blockCIDs rootCID expectedMultiaddr
     IpniAddonStrategy.POLLING_TIMEOUT_MS IpniAddonStrategy.IPNI_LOOKUP_TIMEOUT_MS
     IpniAddonStrategy.POLLING_INTERVAL_MS;
   IpniAddonStrategy.updateDealWithIpniMetrics env result).

Lemma trace_grows (F : string → Prop) {A} (m : M A) w :
  steps_within (writes_only F) m → ∃ events, World.trace (m w).2 = World.trace w ++ events.
Proof. intros Hm. destruct (Hm w) as (events & Htrace & _). by exists events. Qed.

Lemma saved_last_bind (F : string → Prop) {A B} (m : M A) (k : A → M B) :
  steps_within (writes_only F) m → (∀ a, saved_last (k a)) → saved_last (m ≫= k).
Proof.
  intros Hm Hk w b w' (a & w1 & Hrun & Hrest)%bind_Ok.
  destruct (trace_grows F m w Hm) as (events1 & Htrace1). rewrite Hrun in Htrace1.
  destruct (Hk a w1 b w' Hrest) as (events2 & t & Htrace2).
  exists (events1 ++ events2), t. rewrite Htrace2. simpl in Htrace1. rewrite Htrace1.
  by rewrite <- !app_assoc.
Qed.

Lemma writes_monitorAndVerifyIPNI F pieceCid blockCIDs rootCID expected
    statusTimeoutMs ipniTimeoutMs pollIntervalMs :
  steps_within (writes_only F)
    (IpniAddonStrategy.monitorAndVerifyIPNI env pieceCid blockCIDs rootCID expected
       statusTimeoutMs ipniTimeoutMs pollIntervalMs).
Proof.
  apply steps_monitorAndVerifyIPNI; try apply _.
  - intros e. apply writes_emit.
  - intros ms _. apply writes_advance.
  - intros A f. apply writes_outside.
Qed.

Lemma saved_last_save_or_rethrow (handler : string → M unit) :
  (∀ e w, (handler e w).1 ≠ Ok tt) →
  saved_last (try_catch (dealRepository_save env) handler).
Proof.
  intros Hthrows w [] w'. unfold dealRepository_save, try_catch. mrun.
  destruct (Env.save env (World.calls w)) as [rejection|]; mrun.
  - intros Hhandler. exfalso. eapply Hthrows. by rewrite Hhandler.
  - intros [= <-]. exists [], (World.now w + Z.of_nat (Env.latency env (World.calls w)))%Z.
    done.
Qed.

Lemma updateDealWithIpniMetrics_saved_last result :
  saved_last (IpniAddonStrategy.updateDealWithIpniMetrics env result).
Proof.
  unfold IpniAddonStrategy.updateDealWithIpniMetrics.
  repeat (apply (saved_last_bind (.∈ ipni_fields));
          [unfold IpniAddonStrategy.uploadEndTime_or;
           repeat first [ progress steps
                        | apply steps_time_since; try apply _
                        | apply (writes_set_deal (.∈ ipni_fields)); solve [repeat constructor] ]
          |intros ?]).
  apply saved_last_save_or_rethrow. intros e w. by mrun.
Qed.

Lemma monitoring_saved_last : saved_last monitoring.
Proof.
  apply (saved_last_bind (.∈ ipni_fields)); [steps|intros storageProvider].
  apply (saved_last_bind (.∈ ipni_fields)); [steps|intros serviceUrl].
  apply (saved_last_bind (.∈ ipni_fields)); [steps|intros _].
  apply (saved_last_bind (.∈ ipni_fields));
    [unfold IpniAddonStrategy.serviceURLToMultiaddr; steps|intros expected].
  apply (saved_last_bind (.∈ ipni_fields)); [steps|intros pieceCid].
  apply (saved_last_bind (.∈ ipni_fields)); [steps|intros metadata].
  apply (saved_last_bind (.∈ ipni_fields));
    [unfold IpniAddonStrategy.ipni_metadata_of; steps|intros [blockCIDs rootCID]].
  apply (saved_last_bind (.∈ ipni_fields));
    [apply writes_monitorAndVerifyIPNI|intros r].
  apply updateDealWithIpniMetrics_saved_last.
Qed.

Lemma monitoring_writes : steps_within (writes_only (.∈ ipni_fields)) monitoring.
Proof.
  apply steps_bind; [apply _|steps|intros storageProvider].
  apply steps_bind; [apply _|steps|intros serviceUrl].
  apply steps_bind; [apply _|steps|intros _].
  apply steps_bind;
    [apply _|unfold IpniAddonStrategy.serviceURLToMultiaddr; steps|intros expected].
  apply steps_bind; [apply _|steps|intros pieceCid].
  apply steps_bind; [apply _|steps|intros metadata].
  apply steps_bind;
    [apply _|unfold IpniAddonStrategy.ipni_metadata_of; steps|intros [blockCIDs rootCID]].
  apply steps_bind; [apply _|apply writes_monitorAndVerifyIPNI|intros result].
  apply steps_updateDealWithIpniMetrics; try apply _.
  - intros e. apply writes_emit.
  - intros A f. apply writes_outside.
  - intros field v. apply (writes_set_deal (.∈ ipni_fields)).
Qed.

(** What [startIpniMonitoring] leaves when it returns. *)
Lemma startIpniMonitoring_Ok w w1 :
  IpniAddonStrategy.startIpniMonitoring env w = (Ok tt, w1) →
  ∃ status events t,
    World.deal w1 !! "ipniStatus" = Some (VIpni status)
    ∧ decided status
    ∧ World.trace w1 = World.trace w ++ events ++ [(t, EvSave (World.deal w1) true)].
Proof.
  unfold IpniAddonStrategy.startIpniMonitoring, try_catch.
  destruct (monitoring w) as [[[]|message] wb] eqn:Hbody.
  2:{ unfold dealRepository_save, try_catch. mrun.
      destruct (Env.save env (World.calls wb)); by mrun. }
  intros [= <-].
  assert (∃ result w0,
            IpniAddonStrategy.updateDealWithIpniMetrics env result w0 = (Ok tt, wb))
    as (result & w0 & Hupdate).
  { apply bind_Ok in Hbody as (storageProvider & wa & _ & Hbody).
    apply bind_Ok in Hbody as (serviceUrl & wa1 & _ & Hbody).
    apply bind_Ok in Hbody as ([] & wa1' & _ & Hbody).
    apply bind_Ok in Hbody as (expected & wa2 & _ & Hbody).
    apply bind_Ok in Hbody as (pieceCid & wa3 & _ & Hbody).
    apply bind_Ok in Hbody as (metadata & wa4 & _ & Hbody).
    apply bind_Ok in Hbody as ([blockCIDs rootCID] & wa5 & _ & Hbody).
    apply bind_Ok in Hbody as (result & w0 & _ & Hbody). by exists result, w0. }
  pose proof (updateDealWithIpniMetrics_status env result w0) as [Hstatus _].
  rewrite Hupdate in Hstatus. cbn [snd] in Hstatus.
  destruct (monitoring_saved_last w tt wb Hbody) as (events & t & Htrace).
  eexists _, events, t. split; [exact Hstatus|]. split; [|exact Htrace].
  unfold decided.
  repeat match goal with |- context [if ?b then _ else _] => destruct b end; set_solver.
Qed.

(** What it leaves when it throws. *)
Lemma startIpniMonitoring_Err w message w1 :
  IpniAddonStrategy.startIpniMonitoring env w = (Err message, w1) →
  ∃ events resolved t t',
    World.deal w1 !! "ipniStatus" = Some (VIpni IPNI_FAILED)
    ∧ World.trace w1
      = World.trace w ++ events
        ++ [(t, EvSave (World.deal w1) resolved);
            (t', EvLog (if resolved then WARN else ERROR)
                   (if resolved then "IPNI failed: " +:+ message
                    else "Failed to save IPNI failure status: "
                         +:+ default EmptyString (Env.save env (World.calls w1 - 1))))].
Proof.
  unfold IpniAddonStrategy.startIpniMonitoring, try_catch.
  destruct (trace_grows (.∈ ipni_fields) monitoring w monitoring_writes)
    as (events & Htrace).
  destruct (monitoring w) as [[[]|e] wb] eqn:Hbody; [done|].
  cbn [snd] in Htrace. unfold dealRepository_save, try_catch. mrun.
  destruct (Env.save env (World.calls wb)) as [rejection|] eqn:Hsave; mrun;
    intros [= <- <-]; cbn [World.deal World.trace World.calls].
  - exists (events ++ [(World.now wb, EvSet "ipniStatus" (VIpni IPNI_FAILED))]), false.
    eexists _, _. split; [apply lookup_insert_eq|].
    rewrite Htrace, <- !app_assoc. cbn [app].
    replace (S (World.calls wb) - 1) with (World.calls wb) by lia.
    by rewrite Hsave.
  - exists (events ++ [(World.now wb, EvSet "ipniStatus" (VIpni IPNI_FAILED))]), true.
    eexists _, _. split; [apply lookup_insert_eq|].
    by rewrite Htrace, <- !app_assoc.
Qed.

(** X11. The detached monitoring never rejects, and when it ends the
    verification status of the Deal is decided: VERIFIED,
    SP_RECEIVED_RETRIEVE_REQUEST, SP_ADVERTISED, SP_INDEXED or FAILED, never
    PENDING and never missing. Its last save attempt is of the Deal as it
    finally is. When [startIpniMonitoring] returned, that save resolved;
    when it threw, whatever the reason, the status is FAILED and the last
    line of the log is the error [IPNI monitoring failed: ...] with the
    message thrown. *)
Theorem monitoring_ends_decided_and_saved w :
  ∃ w' status events resolved,
    IpniAddonStrategy.detached_monitoring env w = (Ok tt, w')
    ∧ World.deal w' !! "ipniStatus" = Some (VIpni status)
    ∧ decided status
    ∧ World.trace w' = World.trace w ++ events
    ∧ last (saves events) = Some (World.deal w', resolved)
    ∧ match (IpniAddonStrategy.startIpniMonitoring env w).1 with
      | Ok _ => resolved = true
      | Err message =>
          status = IPNI_FAILED
          ∧ ∃ t, last events
                 = Some (t, EvLog ERROR ("IPNI monitoring failed: " +:+ message))
      end.
Proof.
  unfold IpniAddonStrategy.detached_monitoring, try_catch.
  destruct (IpniAddonStrategy.startIpniMonitoring env w) as [[[]|message] w1] eqn:Hstart.
  - apply startIpniMonitoring_Ok in Hstart as (status & events & t & Hstatus & Hdecided & Htrace).
    exists w1, status, (events ++ [(t, EvSave (World.deal w1) true)]), true.
    split_and!; try done.
    unfold saves. rewrite omap_app. simpl. by rewrite last_snoc.
  - apply startIpniMonitoring_Err in Hstart
      as (events & resolved & t & t' & Hstatus & Htrace).
    match type of Htrace with
    | context [EvLog ?l ?x] =>
        remember l as level eqn:Hlevel; remember x as text eqn:Htext
    end.
    clear Hlevel Htext. set (handled := EvLog level text) in *. mrun.
    exists (World.mk (World.now w1) (World.calls w1) (World.deal w1)
              (World.trace w1
               ++ [(World.now w1, EvLog ERROR ("IPNI monitoring failed: " +:+ message))])),
      IPNI_FAILED,
      (events ++ [(t, EvSave (World.deal w1) resolved); (t', handled);
                  (World.now w1, EvLog ERROR ("IPNI monitoring failed: " +:+ message))]),
      resolved.
    cbn [World.deal World.trace fst].
    split; [reflexivity|]. split; [exact Hstatus|]. split; [unfold decided; set_solver|].
    split; [by rewrite Htrace, <- !app_assoc|].
    split.
    + unfold saves. rewrite omap_app.
      change (omap ?f [?a; ?b; ?c]) with (omap f [a] ++ omap f [b; c]).
      rewrite app_assoc. simpl. by rewrite app_nil_r, last_snoc.
    + split; [done|]. exists (World.now w1).
      change [?a; ?b; ?c] with ([a; b] ++ [c]). by rewrite app_assoc, last_snoc.
Qed.

End MonitorEnds.

(** ** The timestamps of the verification stages *)

Global Instance keeps_preorder field companion : PreOrder (keeps field companion).
Proof.
  split.
  - by intros w _.
  - intros w1 w2 w3 H12 H23 Hset. destruct (H12 Hset) as [Hf Hc].
    destruct H23 as [Hf' Hc']; [by rewrite Hf|]. split; congruence.
Qed.

#[export] Hint Resolve keeps_preorder : steps.

Section Timestamps.
Variable env : Env.t.
Variables field companion : string.

Lemma keeps_emit e : steps_within (keeps field companion) (emit e).
Proof. by intros w _. Qed.

Lemma keeps_outside {A} (f : nat → Result A) :
  steps_within (keeps field companion) (outside env f).
Proof. by intros w _. Qed.

Lemma keeps_set_deal other v :
  other ≠ field → other ≠ companion →
  steps_within (keeps field companion) (set_deal other v).
Proof. intros Hf Hc w _. simpl. by rewrite !lookup_insert_ne. Qed.

Lemma keeps_dealRepository_save :
  steps_within (keeps field companion) (dealRepository_save env).
Proof.
  unfold dealRepository_save.
  apply steps_bind; [apply _|steps|intros deal].
  apply steps_try_catch; [apply _| |intros message].
  - apply steps_bind; [apply _|apply keeps_outside|intros _]. apply keeps_emit.
  - apply steps_bind; [apply _|apply keeps_emit|intros _]. steps.
Qed.

(** Reading [field] and going on: only a Deal on which it is set matters. *)
Lemma keeps_get_field {B} (k : option Value → M B) :
  (∀ v, truthy v = true → steps_within (keeps field companion) (k v)) →
  steps_within (keeps field companion) (get_field field ≫= k).
Proof.
  intros Hk w Hset. rewrite run_bind. cbn [get_field]. by apply Hk.
Qed.
End Timestamps.

(** Takes apart code that writes to other properties only. *)
Ltac steps_keeps :=
  repeat first
    [ apply keeps_emit
    | apply keeps_outside
    | apply keeps_dealRepository_save
    | apply keeps_set_deal; [discriminate|discriminate]
    | progress steps
    | progress unfold IpniAddonStrategy.time_since, IpniAddonStrategy.uploadEndTime_or,
        logger ].

Section WrittenOnce.
Variable env : Env.t.

(** X12. [updateDealWithIpniMetrics] writes each stage timestamp once: a
    Deal that already holds [ipniIndexedAt], [ipniAdvertisedAt],
    [ipniRetrievedAt] or [ipniVerifiedAt] keeps it, and keeps the metric
    beside it ([ipniTimeToIndexMs] and so on), whatever the result says and
    however the call ends. *)
Theorem ipni_timestamps_written_once result w field companion :
  (field, companion) ∈ ipni_timestamps →
  truthy (World.deal w !! field) = true →
  let w' := (IpniAddonStrategy.updateDealWithIpniMetrics env result w).2 in
  World.deal w' !! field = World.deal w !! field
  ∧ World.deal w' !! companion = World.deal w !! companion.
Proof.
  intros Hin Hset w'. subst w'.
  assert (steps_within (keeps field companion)
            (IpniAddonStrategy.updateDealWithIpniMetrics env result)) as Hkeeps;
    [|by apply Hkeeps].
  clear w Hset. unfold IpniAddonStrategy.updateDealWithIpniMetrics, ipni_timestamps in *.
  repeat (apply elem_of_cons in Hin as [[= -> ->]|Hin]);
    [| | | |by apply elem_of_nil in Hin].
  - apply steps_bind; [apply _|steps|intros now].
    apply steps_bind; [apply _|steps_keeps|intros uploadEndTime].
    apply steps_bind; [apply _|steps_keeps|intros _].
    apply keeps_get_field. intros v ->. cbn [negb]. rewrite andb_false_r.
    apply steps_bind; [apply _|steps|intros _].
    steps_keeps.
  - apply steps_bind; [apply _|steps|intros now].
    apply steps_bind; [apply _|steps_keeps|intros uploadEndTime].
    apply steps_bind; [apply _|steps_keeps|intros _].
    apply steps_bind; [apply _|steps|intros ipniIndexedAt].
    apply steps_bind; [apply _|steps_keeps|intros _].
    apply keeps_get_field. intros v ->. cbn [negb]. rewrite andb_false_r.
    apply steps_bind; [apply _|steps|intros _].
    steps_keeps.
  - apply steps_bind; [apply _|steps|intros now].
    apply steps_bind; [apply _|steps_keeps|intros uploadEndTime].
    apply steps_bind; [apply _|steps_keeps|intros _].
    apply steps_bind; [apply _|steps|intros ipniIndexedAt].
    apply steps_bind; [apply _|steps_keeps|intros _].
    apply steps_bind; [apply _|steps|intros ipniAdvertisedAt].
    apply steps_bind; [apply _|steps_keeps|intros _].
    apply keeps_get_field. intros v ->. cbn [negb].
    apply steps_bind; [apply _|steps|intros _].
    steps_keeps.
  - apply steps_bind; [apply _|steps|intros now].
    apply steps_bind; [apply _|steps_keeps|intros uploadEndTime].
    apply steps_bind; [apply _|steps_keeps|intros _].
    apply steps_bind; [apply _|steps|intros ipniIndexedAt].
    apply steps_bind; [apply _|steps_keeps|intros _].
    apply steps_bind; [apply _|steps|intros ipniAdvertisedAt].
    apply steps_bind; [apply _|steps_keeps|intros _].
    apply steps_bind; [apply _|steps|intros ipniRetrievedAt].
    apply steps_bind; [apply _|steps_keeps|intros _].
    apply keeps_get_field. intros v ->. cbn [negb]. rewrite andb_false_r.
    apply steps_bind; [apply _|steps|intros _].
    steps_keeps.
Qed.
End WrittenOnce.

(** ** One deal, however it ends *)

Section DealSettles.
Variable env : Env.t.
Variable this : DealService.t.

Lemma postProcessDeal_writes F appliedAddons :
  hooks_write_only F (DealService.dealAddonsService this) →
  steps_within (writes_only F)
    (DealAddonsService.postProcessDeal (DealService.dealAddonsService this) appliedAddons).
Proof.
  intros Hhooks. unfold DealAddonsService.postProcessDeal.
  apply steps_bind; [apply _|steps|intros _].
  apply steps_bind; [apply _| |intros promises; steps].
  apply steps_call_hooks; [apply _|].
  apply Forall_forall. intros hook (addonName & _ & Hhook)%list_elem_of_omap.
  destruct (DealAddonsService.get _ addonName) as [addon|] eqn:Hget; [|done].
  apply get_Some in Hget as [Hin _]. simpl in Hhook.
  apply (Hhooks addon hook Hin). by right.
Qed.

Lemma updateDealWithUploadResult_status uploadResult w :
  World.deal (DealService.updateDealWithUploadResult uploadResult w).2 !! "status"
  = Some (VStatus DEAL_CREATED).
Proof.
  unfold DealService.updateDealWithUploadResult.
  do 4 (rewrite run_bind; cbn [set_deal]).
  match goal with
  | |- World.deal (?rest ?w1).2 !! _ = _ =>
      rewrite (writes_only_preserved (.∈ ["dealConfirmedTime"; "dealLatencyMs"]) rest "status" w1)
  end.
  - simpl. apply lookup_insert_eq.
  - repeat first [ progress steps
                 | apply (writes_set_deal (.∈ ["dealConfirmedTime"; "dealLatencyMs"]));
                   solve [repeat constructor] ].
  - set_solver.
Qed.

Lemma saves_last_app events cleanup save :
  saves cleanup = [save] → last (saves (events ++ cleanup)) = Some save.
Proof. intros Hsave. unfold saves in *. by rewrite omap_app, Hsave, last_snoc. Qed.

(** X13. [createDeal] settles in one of two ways, whatever the backend
    does. It rejects only with the Deal in status FAILED and the message
    thrown as its [errorMessage]; it resolves only with the Deal itself, as
    it finally is, in status DEAL_CREATED (the hooks of the registered
    addons writing to the verification properties only, as the IPNI hook
    does). In both cases the last save attempt is the one of the [finally]
    block, of the Deal in that final state. *)
Theorem createDeal_settles providerInfo dealInput w :
  hooks_write_only (.∈ ipni_fields) (DealService.dealAddonsService this) →
  ∃ outcome w' resolved,
    DealService.createDeal env this providerInfo dealInput w = (outcome, w')
    ∧ last (saves (World.trace w')) = Some (World.deal w', resolved)
    ∧ match outcome with
      | Ok deal =>
          deal = World.deal w'
          ∧ deal !! "status" = Some (VStatus DEAL_CREATED)
      | Err message =>
          World.deal w' !! "status" = Some (VStatus FAILED)
          ∧ World.deal w' !! "errorMessage" = Some (VStr message)
      end.
Proof.
  intros Hhooks.
  set (providerAddress := ProviderInfoEx.serviceProvider providerInfo).
  set (w0 := (dealRepository_create (DealService.new_deal this providerAddress dealInput) w).2).
  destruct (DealService.createDeal_try env this providerAddress dealInput w0)
    as [[deal|message] w1] eqn:Htry.
  - unfold DealService.createDeal. fold providerAddress. rewrite run_bind.
    change (dealRepository_create _ w) with (Ok tt, w0). cbv beta iota.
    unfold try_finally, try_catch. rewrite Htry.
    destruct (saveDeal_run env w1)
      as (w' & cleanup & resolved & -> & Hdeal & Htrace & Hsaves & _).
    exists (Ok deal), w', resolved. split; [done|].
    split; [rewrite Htrace, Hdeal; by apply saves_last_app|].
    rewrite Hdeal. clear Hdeal Htrace Hsaves.
    unfold DealService.createDeal_try in Htry.
    apply bind_Ok in Htry as ([] & wa & _ & Htry).
    apply bind_Ok in Htry as (uploadResult & wb & _ & Hafter).
    unfold DealService.after_upload in Hafter.
    apply bind_Ok in Hafter as ([] & wc & Hupdate & Hafter).
    apply bind_Ok in Hafter as ([] & wd & Hlog & Hafter).
    apply bind_Ok in Hafter as ([] & we & Hpost & Hget).
    injection Hget as <- <-. split; [done|].
    pose proof (updateDealWithUploadResult_status uploadResult wb) as Hstatus.
    rewrite Hupdate in Hstatus. cbn [snd] in Hstatus.
    injection Hlog as <-.
    pose proof (writes_only_preserved (.∈ ipni_fields) _ "status"
                  (World.mk (World.now wc) (World.calls wc) (World.deal wc)
                     (World.trace wc ++ [(World.now wc, EvLog LOG
                        ("Deal created: "
                         +:+ String_slice0 12 (UploadResult.pieceCid uploadResult)
                         +:+ "... (" +:+ String_slice0 8 providerAddress +:+ "...)"))]))
                  (postProcessDeal_writes (.∈ ipni_fields)
                     (DealPreprocessingResult.appliedAddons dealInput) Hhooks)) as Hkept.
    rewrite Hpost in Hkept. cbn [snd World.deal] in Hkept.
    rewrite Hkept; [exact Hstatus|]. unfold ipni_fields. set_solver.
  - destruct (createDeal_after_throw env this providerInfo dealInput w message w1 Htry)
      as (w' & handled & cleanup & resolved & Hrun & Hstatus & Hmessage & Htrace & _ & _
          & Hsaves & _).
    exists (Err message), w', resolved. split; [done|].
    split; [|by split].
    rewrite Htrace, app_assoc. by apply saves_last_app.
Qed.
End DealSettles.

(** ** The batch: before the first deal, and its entries *)

Section BatchMore.
Variable env : Env.t.
Variable this : DealService.t.

(** X14. [createDealsForAllProviders] rejects exactly when no data file
    can be fetched or the preprocessing fails, with the error of the local
    data source (the one tried last) or of the preprocessing. By then
    nothing but logging has happened: the Deal object is as it was, and
    what the trace has gained are lines of the log, so that no Deal was
    created or saved and no provider was asked for anything. *)
Theorem batch_rejects_before_any_deal w :
  let run := DealService.createDealsForAllProviders env this w in
  let rejects (message : string) :=
    run.1 = Err message
    ∧ World.deal run.2 = World.deal w
    ∧ ∃ events,
        World.trace run.2 = World.trace w ++ events
        ∧ Forall (λ timed : Z * Event, ∃ level text, timed.2 = EvLog level text) events in
  match DealService.fetchKaggleDataset this, DealService.fetchLocalDataset this with
  | Err _, Err message => rejects message
  | Ok dataFile, _ | Err _, Ok dataFile =>
      match DealAddonsService.preprocessDeal (DealService.dealAddonsService this)
              (DealConfiguration.mk
                 (if DealService.enableCDNTesting this
                  then DealService.randomCDN this else false)
                 (if DealService.enableIpniTesting this
                  then DealService.randomIpni this else false)
                 dataFile) with
      | Err message => rejects message
      | Ok preprocessed => is_ok run.1 = true
      end
  end.
Proof.
  intros run rejects.
  set (started :=
         World.mk (World.now w) (World.calls w) (World.deal w)
           (World.trace w ++ [(World.now w, EvLog LOG "Starting deal creation")])).
  assert (∀ message, run = (Err message, started) → rejects message) as Hrejects.
  { intros message ->. split; [done|]. split; [done|].
    exists [(World.now w, EvLog LOG "Starting deal creation")]. split; [done|].
    constructor; [by eexists _, _|constructor]. }
  assert (∀ dataFile,
            DealService.fetchDataFile this = Ok dataFile →
            match DealAddonsService.preprocessDeal (DealService.dealAddonsService this)
                    (DealConfiguration.mk
                       (if DealService.enableCDNTesting this
                        then DealService.randomCDN this else false)
                       (if DealService.enableIpniTesting this
                        then DealService.randomIpni this else false)
                       dataFile) with
            | Err message => rejects message
            | Ok preprocessed => is_ok run.1 = true
            end) as Hfetched.
  { intros dataFile Hfetch.
    destruct (DealAddonsService.preprocessDeal _ _) as [preprocessed|message] eqn:Hpre.
    - destruct (createDealsForAllProviders_run env this dataFile preprocessed w Hfetch Hpre)
        as (outcomes & w' & Hrun & _).
      subst run. by rewrite Hrun.
    - apply Hrejects. subst run started.
      unfold DealService.createDealsForAllProviders. mrun.
      rewrite Hfetch. mrun. by rewrite Hpre. }
  unfold DealService.fetchDataFile in Hfetched.
  destruct (DealService.fetchKaggleDataset this) as [dataFile|e1] eqn:Hkaggle.
  - by apply Hfetched.
  - destruct (DealService.fetchLocalDataset this) as [dataFile|e2] eqn:Hlocal.
    + by apply Hfetched.
    + apply Hrejects. subst run started.
      unfold DealService.createDealsForAllProviders. mrun.
      unfold DealService.fetchDataFile. by rewrite Hkaggle, Hlocal.
Qed.

(** X15. [processProvidersInParallel] never rejects, for any group size
    of at least 1: it returns one entry per provider, in the order of the
    providers, each with the provider's address and made from what
    [createDeal] settled to for that provider. An entry has a Deal exactly
    when it is a success and an error message exactly when it is not, and
    that message is never empty ([Unknown error] stands in for an empty
    one). *)
Theorem one_entry_per_provider providers dealInput maxConcurrency w :
  0 < maxConcurrency →
  ∃ entries w',
    DealService.processProvidersInParallel env this providers dealInput maxConcurrency w
    = (Ok entries, w')
    ∧ BatchEntry.provider <$> entries = ProviderInfoEx.serviceProvider <$> providers
    ∧ Forall2 (λ provider entry,
                 ∃ outcome,
                   outcome_of (DealService.createDeal env this provider dealInput) outcome
                   ∧ entry = DealService.batch_entry provider outcome)
              providers entries
    ∧ Forall (λ entry,
                (BatchEntry.success entry = true ↔ is_Some (BatchEntry.deal entry))
                ∧ (BatchEntry.success entry = false ↔ is_Some (BatchEntry.error entry))
                ∧ BatchEntry.error entry ≠ Some EmptyString)
             entries.
Proof.
  intros Hpos. unfold DealService.processProvidersInParallel.
  destruct (process_groups_run env this (length providers) providers dealInput
              maxConcurrency [] w Hpos (le_n _))
    as (outcomes & w' & Hrun & Houtcomes).
  exists (zip_with DealService.batch_entry providers outcomes), w'.
  split; [exact Hrun|]. clear Hrun.
  induction Houtcomes as [|provider outcome providers outcomes Houtcome _ IH].
  - by split_and!.
  - destruct IH as (Hproviders & Hentries & Hshape). cbn [zip_with]. split_and!.
    + rewrite !fmap_cons, Hproviders. by destruct outcome.
    + constructor; [by exists outcome|exact Hentries].
    + constructor; [|exact Hshape].
      destruct outcome as [deal|message]; cbn.
      * split_and!; [by split|split; [done|by intros [? ?]]|done].
      * split_and!; [split; [done|by intros [? ?]]|by split|].
        destruct (String.eqb_spec message EmptyString) as [->|Hne]; [done|].
        intros [= ?]. done.
Qed.
End BatchMore.

(** ** The two callbacks of an upload *)

Section Callbacks.
Variable this : DealService.t.

Lemma handleUploadComplete_writes F appliedAddons :
  hooks_write_only F (DealService.dealAddonsService this) →
  steps_within (writes_only F)
    (DealAddonsService.handleUploadComplete (DealService.dealAddonsService this)
       appliedAddons).
Proof.
  intros Hhooks. unfold DealAddonsService.handleUploadComplete.
  apply steps_bind; [apply _|steps|intros _].
  apply steps_bind; [apply _| |intros promises; steps].
  apply steps_call_hooks; [apply _|].
  apply Forall_forall. intros hook (addonName & _ & Hhook)%list_elem_of_omap.
  destruct (DealAddonsService.get _ addonName) as [addon|] eqn:Hget; [|done].
  apply get_Some in Hget as [Hin _]. simpl in Hhook.
  apply (Hhooks addon hook Hin). by left.
Qed.

(** The throughput of an upload that starts and ends in the same
    millisecond: the division by zero seconds gives an infinity or NaN. *)
Lemma round_per_second_0 fileSize : round_per_second fileSize 0 = VNotFinite.
Proof.
  unfold round_per_second.
  change (Number_of_Z 0 / 1000)%float with 0%float.
  pose proof (div_spec (Number_of_Z fileSize) 0) as Hdiv.
  change (Prim2SF 0) with (S754_zero false) in Hdiv.
  unfold Math_round, Value_of_rounded.
  destruct (Prim2SF (Number_of_Z fileSize)); cbn in Hdiv; by rewrite Hdiv, ?Hdiv.
Qed.

(** X16. The upload-complete callback, when the hooks of the registered
    addons return a promise whenever they are called and write to the
    verification properties only. On a Deal whose upload start is recorded
    it does not reject, and leaves the Deal in status UPLOADED with the
    piece identifier, the upload end time (the time of the call), the
    ingest latency, end less start, and as throughput the file size per
    second of that latency, rounded; an upload that starts and ends in the
    same millisecond leaves a throughput that is not a finite number. On a
    Deal without a recorded upload start it throws before it sets the
    status. *)
Theorem upload_complete_records_the_ingest pieceCid appliedAddons w :
  hooks_write_only (.∈ ipni_fields) (DealService.dealAddonsService this) →
  hooks_return_promises (DealService.dealAddonsService this) →
  let run := DealService.handleUploadComplete this pieceCid appliedAddons w in
  match World.deal w !! "uploadStartTime" with
  | Some (VDate uploadStartTime) =>
      run.1 = Ok tt
      ∧ World.deal run.2 !! "status" = Some (VStatus UPLOADED)
      ∧ World.deal run.2 !! "pieceCid" = Some (VStr pieceCid)
      ∧ World.deal run.2 !! "uploadEndTime" = Some (VDate (World.now w))
      ∧ World.deal run.2 !! "ingestLatencyMs"
        = Some (VNum (World.now w - uploadStartTime))
      ∧ (∀ fileSize, World.deal w !! "fileSize" = Some (VNum fileSize) →
           World.deal run.2 !! "ingestThroughputBps"
           = Some (round_per_second fileSize (World.now w - uploadStartTime))
           ∧ (World.now w = uploadStartTime →
              World.deal run.2 !! "ingestThroughputBps" = Some VNotFinite))
  | _ =>
      run.1 = Err "Cannot read properties of undefined (reading 'getTime')"
      ∧ World.deal run.2 !! "status" = World.deal w !! "status"
  end.
Proof.
  intros Hhooks Hpromises run. subst run.
  unfold DealService.handleUploadComplete, getTime. mrun.
  rewrite lookup_insert_eq. mrun.
  rewrite lookup_insert_ne, lookup_insert_ne by done.
  destruct (World.deal w !! "uploadStartTime") as [[]|] eqn:Hstart; mrun;
    try (split; [done|]; by rewrite !lookup_insert_ne by done).
  rewrite !lookup_insert_ne by done.
  match goal with
  | |- context [DealAddonsService.handleUploadComplete ?s ?a ?w1] =>
      set (uploaded := w1);
      pose proof (handleUploadComplete_writes (.∈ ipni_fields) a Hhooks uploaded)
        as (events & _ & _ & _ & Hkept);
      assert ((DealAddonsService.handleUploadComplete s a uploaded).1 = Ok tt) as Hok
  end.
  { unfold DealAddonsService.handleUploadComplete.
    edestruct hooks_settle as [Hsettle _].
    edestruct Hsettle as (promises & _ & _ & Hreturned & _); [|exact Hreturned].
    apply registered_hooks_return; [done|]. intros addon hook Hhook. by left. }
  assert (∀ field, field ∉ ipni_fields →
            World.deal (DealAddonsService.handleUploadComplete
                          (DealService.dealAddonsService this) appliedAddons uploaded).2
              !! field
            = World.deal uploaded !! field) as Hsame by exact Hkept.
  clear Hkept. split; [exact Hok|].
  rewrite !Hsame by (unfold ipni_fields; set_solver).
  subst uploaded. cbn [World.deal].
  split; [apply lookup_insert_eq|].
  split; [by rewrite !lookup_insert_ne, lookup_insert_eq by done|].
  split; [by rewrite !lookup_insert_ne, lookup_insert_eq by done|].
  split; [by rewrite !lookup_insert_ne, lookup_insert_eq by done|].
  intros fileSize ->. rewrite lookup_insert_ne, lookup_insert_eq by done.
  split; [done|]. intros ->. by rewrite Z.sub_diag, round_per_second_0.
Qed.

End Callbacks.

(** ** Time windows *)

Section TimeWindows.

Import Stdlib.Strings.Ascii.
Import TimeWindowParser.

Local Abbreviation chars := String.list_ascii_of_string.

Local Ltac bools :=
  repeat (rewrite ?orb_true_iff, ?andb_true_iff, ?orb_false_iff,
            ?andb_false_iff, ?N.leb_le, ?N.leb_gt, ?N.eqb_eq, ?N.eqb_neq in * ).

Local Ltac classes :=
  unfold white1, white2, white3, allowed, is_digit, between, code in *;
  bools; lia.

Lemma string_app_cons (x : ascii) (a b : string) :
  String x a +:+ b = String x (a +:+ b).
Proof. reflexivity. Qed.

Lemma string_app_nil (b : string) : EmptyString +:+ b = b.
Proof. reflexivity. Qed.

Lemma string_app_assoc (a b c : string) : (a +:+ b) +:+ c = a +:+ (b +:+ c).
Proof.
  induction a as [|x a IH]; [done|]. rewrite !string_app_cons. by f_equal.
Qed.

Lemma every_app class a b :
  every class (a +:+ b) = every class a && every class b.
Proof.
  induction a as [|x a IH]; [done|]. rewrite string_app_cons. cbn.
  by rewrite IH, andb_assoc.
Qed.

Lemma every_impl (class class' : ascii → bool) s :
  (∀ c, class c = true → class' c = true) →
  every class s = true → every class' s = true.
Proof.
  intros Himpl. induction s as [|c s IH]; [done|]. cbn.
  rewrite !andb_true_iff. intros [? ?]. auto.
Qed.

(** *** [sanitizePreset] *)

Lemma sanitizePreset_filter preset :
  chars (sanitizePreset preset) = List.filter allowed (chars preset).
Proof.
  induction preset as [|c rest IH]; [done|]. cbn.
  destruct (allowed c); cbn; by rewrite IH.
Qed.

Lemma sanitizePreset_app a b :
  sanitizePreset (a +:+ b) = sanitizePreset a +:+ sanitizePreset b.
Proof.
  induction a as [|c a IH]; [done|]. rewrite string_app_cons. cbn.
  destruct (allowed c); by rewrite IH.
Qed.

Lemma sanitizePreset_allowed preset :
  every allowed (sanitizePreset preset) = true.
Proof.
  induction preset as [|c rest IH]; [done|]. cbn.
  destruct (allowed c) eqn:Hc; [|done]. cbn. by rewrite Hc.
Qed.

Lemma sanitizePreset_fixed preset :
  every allowed preset = true ↔ sanitizePreset preset = preset.
Proof.
  split.
  - induction preset as [|c rest IH]; [done|]. cbn.
    rewrite andb_true_iff. intros [-> ?]. by rewrite IH.
  - intros <-. apply sanitizePreset_allowed.
Qed.

(** X17. [sanitizePreset] returns the bytes of the preset that are ASCII
    letters, digits, dots or hyphens, in their order and as often as they
    occur, and drops every other byte: the result is made of such bytes
    only, a preset made of such bytes only (and no other) is returned as it
    is, sanitizing twice is sanitizing once, and the result for two strings
    put together is the two results put together. *)
Theorem sanitizePreset_keeps_the_allowed_bytes (preset : string) :
  let clean := sanitizePreset preset in
  chars clean = List.filter allowed (chars preset)
  ∧ every allowed clean = true
  ∧ (clean = preset ↔ every allowed preset = true)
  ∧ sanitizePreset clean = clean
  ∧ ∀ more, sanitizePreset (preset +:+ more) = clean +:+ sanitizePreset more.
Proof.
  cbv zeta. split_and!.
  - apply sanitizePreset_filter.
  - apply sanitizePreset_allowed.
  - symmetry. apply sanitizePreset_fixed.
  - apply sanitizePreset_fixed, sanitizePreset_allowed.
  - intros more. apply sanitizePreset_app.
Qed.

(** *** [parseCustomDateRange] *)

Lemma end_of_day day time :
  (0 ≤ time < msPerDay)%Z →
  ((day * msPerDay + time) / msPerDay * msPerDay
   + (23 * msPerHour + 59 * 60000 + 59 * 1000 + 999)
   = day * msPerDay + (msPerDay - 1))%Z.
Proof.
  intros Htime.
  replace ((day * msPerDay + time) / msPerDay)%Z with day; [unfold msPerDay, msPerHour; lia|].
  apply Z.div_unique with (r := time); unfold msPerDay in *; lia.
Qed.

(** X18. A custom range between calendar days.  When the start string
    parses to the midnight (UTC) of a day and the end string to a time of a
    day, the range ends at the last millisecond of that day, whatever the
    time of day of the end string; it is accepted exactly when the end day
    is the start day or one of the 89 days after it and is over by now.  So
    a range of one single day is accepted, a range whose end day is 90 days
    after its start day is rejected as too large (when that day is over),
    and a range whose end day is not over yet is rejected as being in the
    future; no such range is rejected as too small. *)
Theorem custom_range_between_calendar_days
    (Date_parse : string → Date) (now : Z) (startDateStr endDateStr : string)
    (startDay endDay time : Z) :
  Date_parse startDateStr = Some (startDay * msPerDay)%Z →
  Date_parse endDateStr = Some (endDay * msPerDay + time)%Z →
  (0 ≤ time < msPerDay)%Z →
  (-100000000 ≤ endDay < 100000000)%Z →
  let endOfDay := (endDay * msPerDay + (msPerDay - 1))%Z in
  let result := parseCustomDateRange Date_parse now startDateStr endDateStr in
  (is_ok result = true
   ↔ (startDay ≤ endDay ≤ startDay + 89)%Z ∧ (endOfDay ≤ now)%Z)
  ∧ (∀ window, result = Ok window →
       TimeWindow.startDate window = Some (startDay * msPerDay)%Z
       ∧ TimeWindow.endDate window = Some endOfDay
       ∧ TimeWindow.preset window = startDateStr +:+ "_" +:+ endDateStr
       ∧ TimeWindow.isAllTime window = false)
  ∧ ((endDay < startDay)%Z →
       result = Err "Start date must be before end date")
  ∧ ((startDay ≤ endDay)%Z → (now < endOfDay)%Z →
       result = Err "End date cannot be in the future")
  ∧ ((startDay + 89 < endDay)%Z → (endOfDay ≤ now)%Z →
       result = Err "Date range too large: ${Math.round(daysDiff)} days. Maximum is 90 days.").
Proof.
  intros Hstart Hend Htime Hrange endOfDay result.
  assert (Hclip : setUTCHours_23_59_59_999 (Date_parse endDateStr) = Some endOfDay).
  { rewrite Hend. unfold setUTCHours_23_59_59_999. rewrite end_of_day by done.
    unfold TimeClip. fold endOfDay.
    destruct (Z.ltb_spec 8640000000000000 (Z.abs endOfDay)); [|done].
    unfold endOfDay, msPerDay in *. lia. }
  subst result. unfold parseCustomDateRange. rewrite Hclip, Hstart.
  unfold validateDateRange. cbn [result_bind].
  destruct (Z.leb_spec endOfDay (startDay * msPerDay)) as [Hle|Hlt].
  { cbn. assert (endDay < startDay)%Z by (unfold endOfDay, msPerDay in *; lia).
    split_and!; try done; try lia; try (intros [? ?]; lia). }
  assert (startDay ≤ endDay)%Z by (unfold endOfDay, msPerDay in *; lia).
  destruct (Z.ltb_spec now endOfDay) as [Hfuture|Hpast].
  { cbn. split_and!; try done; try lia; try (intros [? ?]; lia). }
  destruct (Z.ltb_spec (90 * msPerDay) (endOfDay - startDay * msPerDay)) as [Hlarge|Hfits].
  { cbn. assert (startDay + 89 < endDay)%Z by (unfold endOfDay, msPerDay in *; lia).
    split_and!; try done; try lia; try (intros [? ?]; lia). }
  assert (endDay ≤ startDay + 89)%Z by (unfold endOfDay, msPerDay in *; lia).
  destruct (Z.ltb_spec (endOfDay - startDay * msPerDay) (1 * msPerHour)) as [Hsmall|_].
  { unfold endOfDay, msPerDay, msPerHour in *. lia. }
  cbn [result_bind is_ok]. split_and!; try done; try lia.
  intros window [= <-]. done.
Qed.

(** *** [parseDuration] *)

Lemma code_inj (c : ascii) (n : N) : code c = n → c = ascii_of_N n.
Proof. unfold code. intros <-. by rewrite ascii_N_embedding. Qed.

Lemma code_lower (c : ascii) :
  code (lower c) = if between 65 90 c then (code c + 32)%N else code c.
Proof.
  unfold lower. destruct (between 65 90 c) eqn:Hc; [|done].
  unfold code. apply N_ascii_embedding. classes.
Qed.

Lemma digits_spec (s found after : string) :
  digits s = (found, after) →
  s = found +:+ after ∧ every is_digit found = true
  ∧ match after with String c _ => is_digit c = false | EmptyString => True end.
Proof.
  revert found after. induction s as [|c s IH]; intros found after; cbn.
  - by intros [= <- <-].
  - destruct (is_digit c) eqn:Hc.
    + destruct (digits s) as [found' after']. intros [= <- <-].
      destruct (IH _ _ eq_refl) as (-> & Hevery & Hafter).
      cbn. by rewrite Hc, Hevery.
    + by intros [= <- <-].
Qed.

Lemma digits_app (found after : string) :
  every is_digit found = true →
  match after with String c _ => is_digit c = false | EmptyString => True end →
  digits (found +:+ after) = (found, after).
Proof.
  intros Hfound Hafter. induction found as [|c found IH].
  - rewrite string_app_nil. destruct after as [|c after]; [done|].
    cbn. by rewrite Hafter.
  - rewrite string_app_cons. cbn in Hfound |- *.
    apply andb_true_iff in Hfound as [-> Hfound]. by rewrite IH.
Qed.

(** The pattern matches the decimal numerals followed by [h] or [d], and
    its groups are the numeral and the letter. *)
Lemma match_pattern_spec (normalized valueStr unit : string) :
  match_pattern normalized = Some (valueStr, unit) ↔
  is_decimal valueStr ∧ (unit = "h" ∨ unit = "d")
  ∧ normalized = valueStr +:+ unit.
Proof.
  unfold match_pattern. split.
  - destruct (digits normalized) as [whole after] eqn:Hdigits.
    apply digits_spec in Hdigits as (-> & Hwhole & Hafter).
    destruct whole as [|w whole]; [done|].
    assert (Hunit : ∀ part rest,
      match rest with
      | String c EmptyString =>
          if (code c =? 104)%N || (code c =? 100)%N
          then Some (String w whole +:+ part, String c EmptyString)
          else None
      | _ => None
      end = Some (valueStr, unit) →
      valueStr = String w whole +:+ part ∧ (unit = "h" ∨ unit = "d")
      ∧ rest = unit).
    { intros part [|c [|? ?]]; try done.
      destruct (N.eqb_spec (code c) 104) as [Hc|_]; cbn.
      { intros [= <- <-]. apply code_inj in Hc as ->. auto. }
      destruct (N.eqb_spec (code c) 100) as [Hc|_]; [|done].
      intros [= <- <-]. apply code_inj in Hc as ->. auto. }
    unfold fraction. destruct after as [|c rest].
    { done. }
    destruct (N.eqb_spec (code c) 46) as [Hdot|_].
    + apply code_inj in Hdot as ->.
      destruct (digits rest) as [found after'] eqn:Hrest.
      apply digits_spec in Hrest as (-> & Hfound & _).
      destruct found as [|f found].
      * rewrite string_app_nil. destruct after'; [cbn|]; done.
      * intros (-> & Hu & ->)%Hunit. split_and!; [|done|].
        -- exists (String w whole). split_and!; [done..|]. right.
           exists (String f found). done.
        -- by rewrite !string_app_assoc.
    + intros Hrest. apply (Hunit EmptyString (String c rest)) in Hrest as (-> & Hu & <-).
      split_and!; [|done|].
      * exists (String w whole). split_and!; [done..|]. left.
        clear. generalize (String w whole). intros s.
        induction s as [|x s IH]; [done|]. rewrite string_app_cons. by f_equal.
      * f_equal. clear. generalize (String w whole). intros s.
        induction s as [|x s IH]; [done|]. rewrite string_app_cons. by f_equal.
  - intros ((whole & Hne & Hwhole & Hvalue) & Hunit & ->).
    assert (Hu : ∃ c, unit = String c EmptyString ∧ is_digit c = false
                      ∧ (code c =? 46)%N = false
                      ∧ (code c =? 104)%N || (code c =? 100)%N = true).
    { destruct Hunit as [-> | ->]; eexists; split_and!; try reflexivity. }
    destruct Hu as (c & -> & Hdigit & Hdot & Hletter).
    destruct Hvalue as [-> | (part & Hpart & Hdigits & ->)].
    + rewrite digits_app by done.
      destruct whole as [|w whole]; [done|].
      unfold fraction. rewrite Hdot, Hletter.
      do 2 f_equal. clear. generalize (String w whole). intros s.
      induction s as [|x s IH]; [done|]. rewrite string_app_cons. by f_equal.
    + rewrite !string_app_assoc. rewrite digits_app by done.
      destruct whole as [|w whole]; [done|].
      unfold fraction. rewrite string_app_cons, string_app_nil.
      change (code "." =? 46)%N with true. cbv iota.
      rewrite digits_app by done.
      destruct part as [|p part]; [done|]. by rewrite Hletter.
Qed.

(** X19. [parseDuration] accepts a preset exactly when, trimmed and
    lowered, it is a decimal numeral followed by [h] or [d] and the number
    that [parseFloat] reads from the numeral is positive and finite and
    makes between 1 and 2160 hours, a day being 24 hours; the duration
    returned holds that number, the letter and the hours.  So a sign, an
    exponent, a numeral that starts or ends with the dot, and white space
    between the numeral and the letter are all rejected. *)
Theorem parseDuration_accepts_exactly
    (parseFloat : string → float) (preset : string)
    (duration : ParsedDuration.t) :
  parseDuration parseFloat preset = Ok duration ↔
  ∃ valueStr unit,
    is_decimal valueStr
    ∧ toLowerCase (trim preset) = valueStr +:+ unit
    ∧ let value := parseFloat valueStr in
      PrimFloat.is_nan value = false
      ∧ PrimFloat.is_finite value = true
      ∧ PrimFloat.leb value 0 = false
      ∧ (unit = "h" ∧ duration = ParsedDuration.mk value "h" value
         ∨ unit = "d"
           ∧ duration = ParsedDuration.mk value "d" (value * 24)%float)
      ∧ PrimFloat.ltb (ParsedDuration.hours duration) 1 = false
      ∧ PrimFloat.ltb (90 * 24) (ParsedDuration.hours duration) = false.
Proof.
  unfold parseDuration. set (normalized := toLowerCase (trim preset)).
  split.
  - destruct (String.eqb normalized "all"); [done|].
    destruct (match_pattern normalized) as [[valueStr unit]|] eqn:Hmatch; [|done].
    apply match_pattern_spec in Hmatch as (Hdecimal & Hunit & Hnormalized).
    set (value := parseFloat valueStr).
    destruct (PrimFloat.is_nan value) eqn:Hnan; [done|].
    destruct (PrimFloat.is_finite value) eqn:Hfinite; [|done].
    destruct (PrimFloat.leb value 0) eqn:Hpositive; [done|].
    cbn [orb negb].
    destruct Hunit as [-> | ->]; cbn [String.eqb Ascii.eqb Bool.eqb];
      cbv beta iota zeta.
    + destruct (PrimFloat.ltb value 1) eqn:Hmin; [done|].
      destruct (PrimFloat.ltb (90 * 24) value) eqn:Hmax; [done|].
      intros [= <-]. exists valueStr, "h". fold value. cbn.
      split_and!; auto.
    + change (String.eqb "d" "h") with false.
      change (String.eqb "d" "d") with true. cbv iota.
      destruct (PrimFloat.ltb (value * 24) 1) eqn:Hmin; [done|].
      destruct (PrimFloat.ltb (90 * 24) (value * 24)) eqn:Hmax; [done|].
      intros [= <-]. exists valueStr, "d". fold value. cbn.
      split_and!; auto.
  - intros (valueStr & unit & Hdecimal & Hnormalized
            & Hnan & Hfinite & Hpositive & Hunit & Hmin & Hmax).
    fold normalized in Hnormalized.
    assert (Hall : String.eqb normalized "all" = false).
    { apply String.eqb_neq. rewrite Hnormalized. intros Hall.
      destruct Hdecimal as ([|w whole] & Hne & Hwhole & Hvalue); [done|].
      cbn in Hwhole. apply andb_true_iff in Hwhole as [Hw _].
      assert (w = "a"%char) as ->; [|done].
      destruct Hvalue as [-> | (part & _ & _ & ->)];
        rewrite ?string_app_assoc, string_app_cons in Hall; congruence. }
    rewrite Hall.
    assert (Hmatch : match_pattern normalized = Some (valueStr, unit)).
    { apply match_pattern_spec. split_and!; [done| |done].
      destruct Hunit as [[-> _] | [-> _]]; auto. }
    rewrite Hmatch, Hnan, Hfinite, Hpositive. cbn [orb negb].
    destruct Hunit as [[-> ->] | [-> ->]]; cbn [ParsedDuration.hours] in Hmin, Hmax.
    + change (String.eqb "h" "h") with true. cbv beta iota zeta.
      by rewrite Hmin, Hmax.
    + change (String.eqb "d" "h") with false.
      change (String.eqb "d" "d") with true. cbv beta iota zeta.
      by rewrite Hmin, Hmax.
Qed.

(** *** [sanitizePreset] before [parseDuration] *)

Lemma white1_not_allowed c : white1 c = true → allowed c = false.
Proof. classes. Qed.

Lemma white2_not_allowed c1 c2 :
  white2 c1 c2 = true → allowed c1 = false ∧ allowed c2 = false.
Proof. classes. Qed.

Lemma white3_not_allowed c1 c2 c3 :
  white3 c1 c2 c3 = true →
  allowed c1 = false ∧ allowed c2 = false ∧ allowed c3 = false.
Proof. classes. Qed.

Lemma sanitizePreset_trimStart s :
  sanitizePreset (trimStart s) = sanitizePreset s.
Proof.
  remember (String.length s) as n eqn:Hn. revert s Hn.
  induction n as [n IH] using lt_wf_ind. intros s ->.
  destruct s as [|c1 s1]; [done|]. cbn [trimStart].
  destruct (white1 c1) eqn:W1.
  { rewrite (IH _ (Nat.lt_succ_diag_r _) s1 eq_refl). cbn.
    by rewrite (white1_not_allowed _ W1). }
  destruct s1 as [|c2 s2]; [done|].
  destruct (white2 c1 c2) eqn:W2.
  { rewrite (IH (String.length s2)) by (cbn; lia || done).
    destruct (white2_not_allowed _ _ W2) as [H1 H2]. cbn. by rewrite H1, H2. }
  destruct s2 as [|c3 s3]; [done|].
  destruct (white3 c1 c2 c3) eqn:W3; [|done].
  rewrite (IH (String.length s3)) by (cbn; lia || done).
  destruct (white3_not_allowed _ _ _ W3) as (H1 & H2 & H3). cbn.
  by rewrite H1, H2, H3.
Qed.

Lemma filter_trimStart_reversed l :
  List.filter allowed (trimStart_reversed l) = List.filter allowed l.
Proof.
  remember (length l) as n eqn:Hn. revert l Hn.
  induction n as [n IH] using lt_wf_ind. intros l ->.
  destruct l as [|c1 l1]; [done|]. cbn [trimStart_reversed].
  destruct (white1 c1) eqn:W1.
  { rewrite (IH _ (Nat.lt_succ_diag_r _) l1 eq_refl). cbn.
    by rewrite (white1_not_allowed _ W1). }
  destruct l1 as [|c2 l2]; [done|].
  destruct (white2 c2 c1) eqn:W2.
  { rewrite (IH (length l2)) by (cbn; lia || done).
    destruct (white2_not_allowed _ _ W2) as [H1 H2]. cbn. by rewrite H1, H2. }
  destruct l2 as [|c3 l3]; [done|].
  destruct (white3 c3 c2 c1) eqn:W3; [|done].
  rewrite (IH (length l3)) by (cbn; lia || done).
  destruct (white3_not_allowed _ _ _ W3) as (H1 & H2 & H3). cbn.
  by rewrite H1, H2, H3.
Qed.

Lemma chars_inj (a b : string) : chars a = chars b → a = b.
Proof.
  intros H. rewrite <- (String.string_of_list_ascii_of_string a),
    <- (String.string_of_list_ascii_of_string b). by rewrite H.
Qed.

Lemma sanitizePreset_trimEnd s :
  sanitizePreset (trimEnd s) = sanitizePreset s.
Proof.
  apply chars_inj. rewrite !sanitizePreset_filter. unfold trimEnd.
  rewrite String.list_ascii_of_string_of_list_ascii.
  rewrite List.filter_rev, filter_trimStart_reversed, <- List.filter_rev.
  by rewrite rev_involutive.
Qed.

Lemma every_forallb class s : every class s = forallb class (chars s).
Proof. induction s as [|c s IH]; [done|]. cbn. by rewrite IH. Qed.

Lemma trimStart_fixed s : every allowed s = true → trimStart s = s.
Proof.
  destruct s as [|c1 s1]; [done|]. cbn [every trimStart].
  intros [H1 _]%andb_true_iff.
  assert (white1 c1 = false) as -> by classes.
  destruct s1 as [|c2 s2]; [done|].
  assert (white2 c1 c2 = false) as -> by classes.
  destruct s2 as [|c3 s3]; [done|].
  assert (white3 c1 c2 c3 = false) as -> by classes. done.
Qed.

Lemma trimEnd_fixed s : every allowed s = true → trimEnd s = s.
Proof.
  rewrite every_forallb. intros Hall. unfold trimEnd.
  assert (Hrev : forallb allowed (rev (chars s)) = true).
  { rewrite forallb_forall in Hall |- *. intros c Hc. apply Hall.
    by apply in_rev. }
  assert (trimStart_reversed (rev (chars s)) = rev (chars s)) as ->.
  { destruct (rev (chars s)) as [|c1 l1]; [done|].
    cbn [forallb trimStart_reversed] in *.
    apply andb_true_iff in Hrev as [H1 _].
    assert (white1 c1 = false) as -> by classes.
    destruct l1 as [|c2 l2]; [done|].
    assert (white2 c2 c1 = false) as -> by classes.
    destruct l2 as [|c3 l3]; [done|].
    assert (white3 c3 c2 c1 = false) as -> by classes. done. }
  rewrite rev_involutive. apply String.string_of_list_ascii_of_string.
Qed.

Lemma allowed_lower c : allowed (lower c) = allowed c.
Proof.
  pose proof (code_lower c) as Hcode.
  destruct (between 65 90 c) eqn:Hc.
  - transitivity true; [|symmetry]; revert Hcode; generalize (lower c);
      intros; classes.
  - by apply code_inj in Hcode as ->; unfold code; rewrite ascii_N_embedding.
Qed.

Lemma every_allowed_toLowerCase s :
  every allowed (toLowerCase s) = every allowed s.
Proof.
  induction s as [|c s IH]; [done|]. cbn. by rewrite allowed_lower, IH.
Qed.

Lemma lower_lower c : lower (lower c) = lower c.
Proof.
  unfold lower at 1. destruct (between 65 90 (lower c)) eqn:Hlow; [|done].
  exfalso. pose proof (code_lower c) as Hcode.
  revert Hlow Hcode. unfold between at 1. generalize (code (lower c)).
  intros n Hn Hcode. destruct (between 65 90 c) eqn:Hc; subst n; classes.
Qed.

Lemma toLowerCase_idempotent s : toLowerCase (toLowerCase s) = toLowerCase s.
Proof.
  induction s as [|c s IH]; [done|]. cbn. by rewrite lower_lower, IH.
Qed.

Lemma match_pattern_allowed normalized groups :
  match_pattern normalized = Some groups → every allowed normalized = true.
Proof.
  destruct groups as [valueStr unit].
  intros ((whole & _ & Hwhole & Hvalue) & Hunit & ->)%match_pattern_spec.
  assert (Hdigits : ∀ s, every is_digit s = true → every allowed s = true).
  { intros s. apply every_impl. intros c. classes. }
  rewrite every_app. apply andb_true_iff. split.
  - destruct Hvalue as [-> | (part & _ & Hpart & ->)]; [by apply Hdigits|].
    rewrite !every_app, (Hdigits whole), (Hdigits part) by done. reflexivity.
  - by destruct Hunit as [-> | ->].
Qed.

(** A preset that the pattern matches once it is trimmed and lowered is,
    sanitized, or trimmed and lowered, normalized to the same string. *)
Lemma normalized_of_matched preset groups :
  match_pattern (toLowerCase (trim preset)) = Some groups →
  toLowerCase (trim (sanitizePreset preset)) = toLowerCase (trim preset)
  ∧ toLowerCase (trim (toLowerCase (trim preset))) = toLowerCase (trim preset).
Proof.
  intros Hallowed%match_pattern_allowed.
  assert (Hfixed : ∀ s, every allowed s = true → trim s = s).
  { intros s Hs. unfold trim. by rewrite trimStart_fixed, trimEnd_fixed. }
  split.
  - rewrite every_allowed_toLowerCase in Hallowed.
    assert (sanitizePreset preset = trim preset) as ->.
    { rewrite <- (sanitizePreset_trimStart preset).
      rewrite <- (sanitizePreset_trimEnd (trimStart preset)).
      by apply sanitizePreset_fixed. }
    by rewrite Hfixed.
  - by rewrite Hfixed, toLowerCase_idempotent.
Qed.

(** X20. Sanitizing a preset that [parseDuration] accepts does not change
    what it is parsed to, and neither does trimming and lowering it: the
    white space around a preset and the case of its letter are all that an
    accepted preset can hold besides the numeral and the letter. *)
Theorem parseDuration_of_sanitized_preset
    (parseFloat : string → float) (preset : string)
    (duration : ParsedDuration.t) :
  parseDuration parseFloat preset = Ok duration →
  parseDuration parseFloat (sanitizePreset preset) = Ok duration
  ∧ parseDuration parseFloat (toLowerCase (trim preset)) = Ok duration.
Proof.
  unfold parseDuration. cbv zeta.
  destruct (String.eqb (toLowerCase (trim preset)) "all") eqn:Hall; [done|].
  destruct (match_pattern (toLowerCase (trim preset))) as [groups|] eqn:Hmatch;
    [|done].
  destruct (normalized_of_matched _ _ Hmatch) as [-> ->].
  by rewrite Hall, Hmatch.
Qed.

End TimeWindows.

(** * The further properties on the sample inputs *)

Lemma sample_hooks_write_only :
  hooks_write_only (.∈ ipni_fields) Sample.addons.
Proof.
  intros addon hook Hin Hhook. rewrite sample_addons in Hin.
  apply elem_of_cons in Hin as [->|Hin]; [by destruct Hhook|].
  apply elem_of_cons in Hin as [->|Hin]; [by destruct Hhook|].
  apply elem_of_cons in Hin as [->|Hin]; [|by apply elem_of_nil in Hin].
  destruct Hhook as [[= <-]|[=]].
  apply steps_async, onUploadComplete_writes_only_ipni_fields.
Qed.

Lemma sample_hooks_return_promises : hooks_return_promises Sample.addons.
Proof.
  intros addon hook Hin Hhook. rewrite sample_addons in Hin.
  apply elem_of_cons in Hin as [->|Hin]; [by destruct Hhook|].
  apply elem_of_cons in Hin as [->|Hin]; [by destruct Hhook|].
  apply elem_of_cons in Hin as [->|Hin]; [|by apply elem_of_nil in Hin].
  destruct Hhook as [[= <-]|[=]]. intros w. unfold async.
  by destruct (IpniAddonStrategy.onUploadComplete Sample.env w).
Qed.


Lemma pipeline_stores_metadata_by_addon_name_witness :
  dom (DealPreprocessingResult.metadata Sample.preprocessed)
  =@{gset string} list_to_set (DealPreprocessingResult.appliedAddons Sample.preprocessed)
  ∧ DataFile.name (DealPreprocessingResult.processedData Sample.preprocessed) = "data.bin"
  ∧ ∃ last output,
      last ∈ DealAddonsService.addons_to_run Sample.addons (Sample.config true true)
      ∧ DataFile.data (DealPreprocessingResult.processedData Sample.preprocessed)
        = PreprocessingResult.data output
      ∧ DealPreprocessingResult.metadata Sample.preprocessed !! IDealAddon.name last
        = Some (PreprocessingResult.metadata output).
Proof.
  destruct (pipeline_stores_metadata_by_addon_name Sample.addons (Sample.config true true)
              Sample.preprocessed sample_preprocessed)
    as (Hdom & Hname & last & input & output & _ & Hin & _ & Hdata & _ & Hmeta).
  split; [exact Hdom|]. split; [exact Hname|].
  exists last, output. split_and!; [exact Hin|exact Hdata|exact Hmeta].
Defined.

Lemma cdn_alone_passes_the_payload_through_witness :
  DealAddonsService.preprocessDeal Sample.addons (Sample.config true false)
  = Ok (DealPreprocessingResult.mk Sample.dataFile
          {[ "cdn" := CdnMetadata true "fil-beam" ]}
          ({[ "withCDN" := EmptyString ]}, ∅)
          ["cdn"]).
Proof.
  apply (cdn_alone_passes_the_payload_through Sample.addons (Sample.config true false)).
  reflexivity.
Defined.

Lemma ipni_alone_hands_on_the_car_witness :
  let this :=
    DealAddonsService.new Sample.direct CdnAddonStrategy.addon
      (IpniAddonStrategy.addon Sample.env_framed) in
  ∃ car result,
    IpniAddonStrategy.convertToCar Sample.env_framed Sample.dataFile = Ok car
    ∧ DealAddonsService.preprocessDeal this (Sample.config false true) = Ok result
    ∧ DataFile.data (DealPreprocessingResult.processedData result)
      = CarDataFile.carData car
    ∧ DealPreprocessingResult.appliedAddons result = ["ipfs_pin"].
Proof.
  intros this.
  destruct (ipni_alone_hands_on_the_car Sample.env_framed this (Sample.config false true))
    as (car & output & Hcar & _ & _ & Hresult).
  - reflexivity.
  - intros bytes. discriminate.
  - intros roots blocks. discriminate.
  - reflexivity.
  - simpl. lia.
  - exists car. eexists. split; [exact Hcar|]. split; [exact Hresult|]. split; reflexivity.
Defined.


Lemma ipni_timestamps_written_once_witness :
  let result :=
    MonitorAndVerifyResult.mk (placeholder 3)
      (IPNIVerificationResult.mk 1 0 1 true 5 [] 9) in
  let w' :=
    (IpniAddonStrategy.updateDealWithIpniMetrics Sample.env result Sample.world_indexed).2 in
  World.deal w' !! "ipniIndexedAt" = Some (VDate 7)
  ∧ World.deal w' !! "ipniTimeToIndexMs" = Some (VNum 3).
Proof.
  intros result.
  apply (ipni_timestamps_written_once Sample.env result Sample.world_indexed
           "ipniIndexedAt" "ipniTimeToIndexMs").
  - apply list_elem_of_here.
  - reflexivity.
Defined.

Lemma createDeal_settles_witness :
  ∃ outcome w' resolved,
    DealService.createDeal Sample.env Sample.service (ProviderInfoEx.mk "0xSuccess")
      Sample.preprocessed Sample.world = (outcome, w')
    ∧ last (saves (World.trace w')) = Some (World.deal w', resolved)
    ∧ match outcome with
      | Ok deal =>
          deal = World.deal w'
          ∧ deal !! "status" = Some (VStatus DEAL_CREATED)
      | Err message =>
          World.deal w' !! "status" = Some (VStatus FAILED)
          ∧ World.deal w' !! "errorMessage" = Some (VStr message)
      end.
Proof.
  apply (createDeal_settles Sample.env Sample.service (ProviderInfoEx.mk "0xSuccess")
           Sample.preprocessed Sample.world).
  exact sample_hooks_write_only.
Defined.

Lemma one_entry_per_provider_witness :
  ∃ entries w',
    DealService.processProvidersInParallel Sample.env Sample.service
      (DealService.getTestingProviders Sample.service) Sample.preprocessed 1 Sample.world
    = (Ok entries, w')
    ∧ BatchEntry.provider <$> entries = ["0xSuccess"; "0xFail"]
    ∧ Forall (λ entry,
                (BatchEntry.success entry = true ↔ is_Some (BatchEntry.deal entry))
                ∧ (BatchEntry.success entry = false ↔ is_Some (BatchEntry.error entry))
                ∧ BatchEntry.error entry ≠ Some EmptyString)
             entries.
Proof.
  destruct (one_entry_per_provider Sample.env Sample.service
              (DealService.getTestingProviders Sample.service) Sample.preprocessed 1
              Sample.world)
    as (entries & w' & Hrun & Hproviders & _ & Hentries); [lia|].
  exists entries, w'. split_and!; [exact Hrun|exact Hproviders|exact Hentries].
Defined.

Lemma upload_complete_records_the_ingest_witness :
  let run :=
    DealService.handleUploadComplete Sample.service "bafk-piece" ["ipfs_pin"; "cdn"]
      Sample.world_indexed in
  run.1 = Ok tt
  ∧ World.deal run.2 !! "status" = Some (VStatus UPLOADED)
  ∧ World.deal run.2 !! "uploadEndTime" = Some (VDate 10)
  ∧ World.deal run.2 !! "ingestLatencyMs" = Some (VNum 6).
Proof.
  destruct (upload_complete_records_the_ingest Sample.service "bafk-piece"
              ["ipfs_pin"; "cdn"] Sample.world_indexed sample_hooks_write_only
              sample_hooks_return_promises)
    as (Hrun & Hstatus & _ & Hend & Hlatency & _).
  cbv zeta. split_and!; [exact Hrun|exact Hstatus|exact Hend|exact Hlatency].
Defined.

Lemma custom_range_between_calendar_days_witness :
  let result :=
    TimeWindowParser.parseCustomDateRange Sample.Date_parse 1762084800000
      "2024-10-01" "2024-10-31" in
  is_ok result = true
  ∧ ∀ window, result = Ok window →
      TimeWindowParser.TimeWindow.startDate window = Some 1727740800000%Z
      ∧ TimeWindowParser.TimeWindow.endDate window = Some 1730419199999%Z.
Proof.
  destruct (custom_range_between_calendar_days Sample.Date_parse 1762084800000
              "2024-10-01" "2024-10-31" 19997 20027 0)
    as (Haccepted & Hwindow & _); [reflexivity|reflexivity|done|lia|].
  cbv zeta. split.
  - apply Haccepted. unfold TimeWindowParser.msPerDay. lia.
  - intros window Hresult. destruct (Hwindow window Hresult) as (Hstart & Hend & _).
    split; [exact Hstart|exact Hend].
Defined.

Lemma parseDuration_of_sanitized_preset_witness :
  let duration := TimeWindowParser.ParsedDuration.mk 1.5 "h" 1.5 in
  TimeWindowParser.parseDuration Sample.parseFloat
    (TimeWindowParser.sanitizePreset " 1.5H ") = Ok duration
  ∧ TimeWindowParser.parseDuration Sample.parseFloat
      (TimeWindowParser.toLowerCase (TimeWindowParser.trim " 1.5H ")) = Ok duration.
Proof.
  intros duration.
  apply (parseDuration_of_sanitized_preset Sample.parseFloat " 1.5H " duration).
  vm_compute. reflexivity.
Defined.
